(** * Verification of [utils/utils.py]

    A shallow embedding of the helper routines of [utils/utils.py]:
    the array utility [pad_and_stack], the duration printer [format_time]
    and the ranking metrics [dcg_score], [ndcg_score], [hit_score] and
    [mrr_score].

    Modelling conventions.
    - A Python exception is a value [Raise e] of the [result] monad.
    - A numpy array of dimension one or two is a value of [ndarray]; the
      shape of a two-dimensional array is kept explicitly, so that an
      array with no row still has a column count.
    - A Python list that the code updates in place is threaded through
      the function: the function returns the final contents of the list
      next to its result.
    - float64 arithmetic is idealised as exact arithmetic on the reals:
      rounding and overflow are outside the model.  The one IEEE
      behaviour that is kept is the division of two numpy scalars, which
      yields [NaN] or an infinity when the divisor is zero.
    - The ground truth of a metric is a numpy array of float64 or of
      int64.  [dcg_score], [ndcg_score] and [mrr_score] are the functions
      on a float64 ground truth; [dcg_score_int64] and [mrr_score_int64]
      are the same source functions on an int64 ground truth, where the
      power, the subtraction and the sum are 64-bit integer operations
      that wrap around and the power refuses a negative exponent;
      [dcg_score_array], [ndcg_score_array] and [mrr_score_array] choose
      by the type of the array.
    - A duration is an exact rational number.  Python's [divmod] on
      floats is exact on the durations from 0 up to [2^53] seconds; on
      negative floats and on larger ones it rounds, which is outside the
      model.
    - [np.argsort] is not part of the repository.  It is a parameter
      [argsort], constrained by [argsort_contract] and, where ties
      matter, by [comparison_sort]; [stable_argsort] is one
      implementation of both.
    - The other helpers ([non_increasing], [count_variables],
      [batch_to_gpu], [load_hyperparam], [format_metric]) raise further
      built-in exceptions; their results are values of [outcome].  A
      dictionary is the list of its items in insertion order, a namespace
      a finite map from attribute names to values.  What the libraries
      provide is a parameter: the comparison of list entries, Python's
      [str] and [int], and the reading of a YAML file. *)

From Stdlib Require Import Reals Psatz ZArith QArith Qround Qabs.
From Stdlib Require Import String Ascii List Permutation Sorted.
From Stdlib Require OrderedTypeEx.
From stdpp Require Import base list sorting strings pretty gmap.

(** ** Part I: definitions *)

(** *** Exceptions *)

Inductive exn : Type :=
| ValueError
| IndexError.

Inductive result (A : Type) : Type :=
| Ok (a : A)
| Raise (e : exn).

Arguments Ok {A} a.
Arguments Raise {A} e.

#[global] Instance result_ret : MRet result := fun _ a => Ok a.

#[global] Instance result_bind : MBind result :=
  fun _ _ f m => match m with Ok a => f a | Raise e => Raise e end.

(** *** numpy arrays of dimension one and two *)

Section Arrays.
Context {A : Type}.

Inductive ndarray : Type :=
| Arr1 (data : list A)
| Arr2 (ncols : nat) (rows : list (list A)).

(** Every row of a two-dimensional array has [ncols] entries. *)
Definition wf_array (a : ndarray) : Prop :=
  match a with
  | Arr1 _ => True
  | Arr2 c rows => Forall (fun r => length r = c) rows
  end.

Definition ndim (a : ndarray) : nat :=
  match a with Arr1 _ => 1 | Arr2 _ _ => 2 end.

(** [a.shape[-1]] *)
Definition shape_last (a : ndarray) : nat :=
  match a with Arr1 d => length d | Arr2 c _ => c end.

(** [a.shape[0]] *)
Definition shape_first (a : ndarray) : nat :=
  match a with Arr1 d => length d | Arr2 _ rows => length rows end.

(** [np.full((r, c), v)] *)
Definition np_full (r c : nat) (v : A) : ndarray :=
  Arr2 c (replicate r (replicate c v)).

(** [np.hstack([a, b])]: two one-dimensional arrays are joined end to
    end, two two-dimensional arrays row by row; the row counts must
    agree. *)
Definition np_hstack (a b : ndarray) : result ndarray :=
  match a, b with
  | Arr1 x, Arr1 y => Ok (Arr1 (x ++ y))
  | Arr2 c1 r1, Arr2 c2 r2 =>
      if length r1 =? length r2
      then Ok (Arr2 (c1 + c2) (zip_with app r1 r2))
      else Raise ValueError
  | _, _ => Raise ValueError
  end.

(** [np.atleast_2d(a)], which is also [a[np.newaxis, :]] on a
    one-dimensional array. *)
Definition atleast_2d (a : ndarray) : nat * list (list A) :=
  match a with
  | Arr1 d => (length d, [d])
  | Arr2 c rows => (c, rows)
  end.

Fixpoint vstack_rows (c : nat) (l : list ndarray) : result (list (list A)) :=
  match l with
  | [] => Ok []
  | a :: l' =>
      let '(c', rows) := atleast_2d a in
      if c' =? c
      then rest ← vstack_rows c l'; Ok (rows ++ rest)
      else Raise ValueError
  end.

(** [np.vstack(l)]: at least one array, all of the same width. *)
Definition np_vstack (l : list ndarray) : result ndarray :=
  match l with
  | [] => Raise ValueError
  | a :: _ =>
      let c := fst (atleast_2d a) in
      rows ← vstack_rows c l; Ok (Arr2 c rows)
  end.

(** Python's [max] over a sequence of integers. *)
Definition py_max (l : list nat) : result nat :=
  match l with
  | [] => Raise ValueError
  | x :: l' => Ok (foldl Nat.max x l')
  end.

(** The first loop of [pad_and_stack]:
    [for i, array in enumerate(arrays): if array.ndim == 1: arrays[i] = array[np.newaxis,:]].
    The list is updated in place while it is enumerated; [fuel] bounds
    the number of iterations by the length of the list, which the loop
    never changes. *)
Fixpoint promote_loop (fuel i : nat) (arrays : list ndarray) : list ndarray :=
  match fuel with
  | O => arrays
  | S fuel' =>
      match arrays !! i with
      | None => arrays
      | Some array =>
          match array with
          | Arr1 d => promote_loop fuel' (S i) (<[i := Arr2 (length d) [d]]> arrays)
          | Arr2 _ _ => promote_loop fuel' (S i) arrays
          end
      end
  end.

(** The second loop of [pad_and_stack], with [padded_arrays] as
    accumulator. *)
Fixpoint pad_loop (max_cols : nat) (pad_value : A)
    (arrays padded_arrays : list ndarray) : result (list ndarray) :=
  match arrays with
  | [] => Ok padded_arrays
  | array :: rest =>
      let current_cols := shape_last array in
      array' ←
        (if current_cols <? max_cols then
           let padding :=
             np_full (shape_first array) (max_cols - current_cols) pad_value in
           np_hstack array padding
         else Ok array);
      pad_loop max_cols pad_value rest (padded_arrays ++ [array'])
  end.

(** [pad_and_stack(arrays, pad_value)].  The first component is the
    contents of the caller's list [arrays] when the call ends, the
    second the value returned or the exception raised. *)
Definition pad_and_stack (arrays : list ndarray) (pad_value : A)
    : list ndarray * result ndarray :=
  let arrays := promote_loop (length arrays) 0 arrays in
  (arrays,
   max_cols ← py_max (map shape_last arrays);
   padded_arrays ← pad_loop max_cols pad_value arrays [];
   np_vstack padded_arrays).

(** The description of [pad_and_stack] in words: promote, measure,
    pad on the right, stack. *)
Definition promote (a : ndarray) : ndarray :=
  match a with
  | Arr1 d => Arr2 (length d) [d]
  | Arr2 _ _ => a
  end.

Definition max_width (arrays : list ndarray) : nat :=
  foldr Nat.max 0 (map shape_last arrays).

Definition right_pad (w : nat) (v : A) (a : ndarray) : list (list A) :=
  let '(c, rows) := atleast_2d a in
  map (fun r => r ++ replicate (w - c) v) rows.

Definition pad_and_stack_spec (arrays : list ndarray) (v : A) : ndarray :=
  Arr2 (max_width arrays)
       (concat (map (right_pad (max_width arrays) v) arrays)).

Definition is_2d (a : ndarray) : Prop := ndim a = 2.

(** One array padded to the width [w]. *)
Definition padded (w : nat) (v : A) (a : ndarray) : ndarray :=
  Arr2 w (right_pad w v a).
End Arrays.

Arguments ndarray A : clear implicits.

(** *** Durations *)

(** A duration is an exact rational number of seconds; every integer
    and every float64 is one. *)

(** [divmod(x, y)] for a positive divisor: floor quotient and
    remainder.  This is what Python computes on integers, and on floats
    [x] from 0 up to [2^53] with the divisors 86400, 3600 and 60, where
    no operation of the float [divmod] rounds; on a negative float or a
    larger one Python rounds the remainder or the quotient, and the
    properties below leave those durations out. *)
Definition py_divmod (x y : Q) : Q * Q :=
  let q := Qfloor (x / y) in
  (inject_Z q, (x - inject_Z q * y)%Q).

(** [int(x)]: truncation towards zero. *)
Definition py_int (x : Q) : Z := Z.quot (Qnum x) (Z.pos (Qden x)).

(** Rounding to the nearest integer, ties to the even one. *)
Definition round_half_even (x : Q) : Z :=
  let f := Qfloor x in
  match (x - inject_Z f ?= 1 # 2)%Q with
  | Lt => f
  | Gt => (f + 1)%Z
  | Eq => if Z.even f then f else (f + 1)%Z
  end.

Definition two_digits (n : Z) : string :=
  if (n <? 10)%Z then "0" +:+ pretty n else pretty n.

(** The format specification [:.2f]. *)
Definition format_2f (x : Q) : string :=
  let h := round_half_even (Qabs x * 100)%Q in
  (match (x ?= 0)%Q with Lt => "-" | _ => "" end)
    +:+ pretty (h / 100)%Z +:+ "." +:+ two_digits (h mod 100)%Z.

(** [format_time(seconds)] *)
Definition format_time (seconds : Q) : string :=
  let '(days, remainder) := py_divmod seconds 86400 in
  let '(hours, remainder) := py_divmod remainder 3600 in
  let '(minutes, seconds) := py_divmod remainder 60 in
  pretty (py_int days) +:+ "d " +:+ pretty (py_int hours) +:+ "h "
    +:+ pretty (py_int minutes) +:+ "m " +:+ format_2f seconds +:+ "s".

(** The same string from the four components. *)
Definition render_time (d h m : Z) (s : Q) : string :=
  pretty d +:+ "d " +:+ pretty h +:+ "h " +:+ pretty m +:+ "m "
    +:+ format_2f s +:+ "s".

(** *** Ranking metrics *)

(** A numpy float64 scalar: a real number or one of the IEEE special
    values. *)
Inductive float64 : Type :=
| Finite (r : R)
| PosInf
| NegInf
| NaN.

Definition is_nan_or_inf (v : float64) : Prop :=
  match v with Finite _ => False | _ => True end.

(** [x / y] on numpy scalars.  A zero divisor gives a warning and a
    special value, never an exception.  The sign of a zero is not
    modelled: the infinity has the sign of the dividend. *)
Definition np_divide (x y : R) : float64 :=
  if Req_dec_T y 0 then
    if Req_dec_T x 0 then NaN
    else if Rlt_dec 0 x then PosInf else NegInf
  else Finite (x / y).

(** [np.take(a, indices)] *)
Definition np_take (a : list R) (indices : list nat) : result (list R) :=
  mapM (fun i => match a !! i with
                 | Some v => Ok v
                 | None => Raise IndexError
                 end) indices.

(** [np.sum(a)] *)
Definition np_sum (a : list R) : R := foldr Rplus 0%R a.

(** [np.arange(n)] *)
Definition np_arange (n : nat) : list R := map INR (seq 0 n).

(** [np.log2] *)
Definition log2 (x : R) : R := (ln x / ln 2)%R.

(** [a / b] on two arrays of the same length.  The divisors that the
    metrics pass are positive ([discounts_positive], [ranks_positive]),
    so every entry is a real quotient. *)
Definition np_divide_arrays (a b : list R) : list R := zip_with Rdiv a b.

(** [l[:k]] *)
Definition py_slice_to {X : Type} (k : Z) (l : list X) : list X :=
  if (k <? 0)%Z
  then take (Z.to_nat (Z.of_nat (length l) + k)) l
  else take (Z.to_nat k) l.

(** [np.where(a == v)[0]], the positions counted from [i]. *)
Fixpoint where_eq_from (i : nat) (a : list R) (v : R) : list nat :=
  match a with
  | [] => []
  | x :: a' =>
      if Req_dec_T x v
      then i :: where_eq_from (S i) a' v
      else where_eq_from (S i) a' v
  end.

Definition np_where_eq (a : list R) (v : R) : list nat := where_eq_from 0 a v.

(** The loop of [hit_score]:
    [for idx in argsort: if idx in ground_truth: return 1] and then
    [return 0]. *)
Fixpoint hit_loop (argsort ground_truth : list nat) : Z :=
  match argsort with
  | [] => 0
  | idx :: rest =>
      if bool_decide (idx ∈ ground_truth) then 1
      else hit_loop rest ground_truth
  end.

Section Metrics.
Variable argsort : list R → list nat.

(** [dcg_score(y_true, y_score, k)] on a float64 ground truth;
    [Raise IndexError] when [np.take] meets a position outside
    [y_true]. *)
Definition dcg_score (y_true y_score : list R) (k : Z) : result R :=
  let k := Z.min (Z.of_nat (length y_true)) k in
  let order := rev (argsort y_score) in
  y_true ← np_take y_true (py_slice_to k order);
  let gains := map (fun r => (Rpower 2 r - 1)%R) y_true in
  let discounts :=
    map log2 (map (fun i => (i + 2)%R) (np_arange (length y_true))) in
  Ok (np_sum (np_divide_arrays gains discounts)).

(** [ndcg_score(y_true, y_score, k)] *)
Definition ndcg_score (y_true y_score : list R) (k : Z) : result float64 :=
  best ← dcg_score y_true y_true k;
  actual ← dcg_score y_true y_score k;
  Ok (np_divide actual best).

(** [hit_score(y_true, y_score, k)] *)
Definition hit_score (y_true y_score : list R) (k : Z) : Z :=
  let ground_truth := np_where_eq y_true 1%R in
  let argsort := py_slice_to k (rev (argsort y_score)) in
  hit_loop argsort ground_truth.

(** [mrr_score(y_true, y_score)] on a float64 ground truth *)
Definition mrr_score (y_true y_score : list R) : result float64 :=
  let order := rev (argsort y_score) in
  y_true ← np_take y_true order;
  let rr_score :=
    np_divide_arrays y_true
      (map (fun i => (i + 1)%R) (np_arange (length y_true))) in
  Ok (np_divide (np_sum rr_score) (np_sum y_true)).

(** The candidates ranked by descending score:
    [np.argsort(y_score)[::-1]]. *)
Definition ranking (y_score : list R) : list nat := rev (argsort y_score).
End Metrics.

(** The value at position [i] of an array, for [i] in range. *)
Definition at_index (a : list R) (i : nat) : R := nth i a 0%R.

(** [order] lists positions of [a] by non-increasing value. *)
Definition descending (a : list R) (order : list nat) : Prop :=
  ∀ i j, i < j < length order →
    (at_index a (nth j order 0%nat) <= at_index a (nth i order 0%nat))%R.

(** What the repository relies on from [np.argsort]: the result is a
    permutation of the positions and lists them by non-decreasing value
    ([argsort_contract]); and, where ties matter, it is found by
    comparing values only, so that two arrays whose entries compare alike
    are sorted alike ([comparison_sort]). *)
Record argsort_contract (argsort : list R → list nat) : Prop := {
  argsort_perm : ∀ a, argsort a ≡ₚ seq 0 (length a);
  argsort_sorted : ∀ a, StronglySorted Rle (map (at_index a) (argsort a))
}.

Definition comparison_sort (argsort : list R → list nat) : Prop :=
  ∀ a b,
    length a = length b →
    (∀ i j, i < length a → j < length a →
       (at_index a i <= at_index a j)%R ↔ (at_index b i <= at_index b j)%R) →
    argsort a = argsort b.

(** An implementation of the contract: stable insertion sort of the
    positions. *)
Definition key_le (a : list R) (i j : nat) : bool :=
  if Rle_dec (at_index a i) (at_index a j) then true else false.

Fixpoint insert_by (le : nat → nat → bool) (i : nat) (l : list nat) : list nat :=
  match l with
  | [] => [i]
  | j :: l' => if le i j then i :: l else j :: insert_by le i l'
  end.

Definition sort_by (le : nat → nat → bool) (l : list nat) : list nat :=
  foldr (insert_by le) [] l.

Definition stable_argsort (a : list R) : list nat :=
  sort_by (key_le a) (seq 0 (length a)).

(** Finite sums [f 0 + ... + f (m - 1)]. *)
Definition sum_upto (m : nat) (f : nat → R) : R := np_sum (map f (seq 0 m)).

(** The term of rank [i] in [dcg_score]: gain over discount. *)
Definition dcg_term (y_true : list R) (order : list nat) (i : nat) : R :=
  ((Rpower 2 (at_index y_true (nth i order 0%nat)) - 1)
   / log2 (INR i + 2))%R.

(** The term of rank [i] in [mrr_score]. *)
Definition mrr_term (y_true : list R) (order : list nat) (i : nat) : R :=
  (at_index y_true (nth i order 0%nat) / (INR i + 1))%R.

(** *** Ground truth of integer type *)

(** The metrics take the ground truth as a numpy array, and numpy
    chooses the arithmetic by the type of the entries.  On an array of
    float64 the functions above apply.  On an array of int64 the power
    [2 ** y_true], the subtraction of 1 and [np.sum(y_true)] are
    computed on 64-bit integers: a result outside the range is reduced
    modulo [2^64], and a negative exponent is refused with ValueError.
    The division by the discounts or by the ranks then converts to
    float64, as before. *)

(** The 64-bit integer with the same residue modulo [2^64]. *)
Definition wrap64 (z : Z) : Z := ((z + 2 ^ 63) mod 2 ^ 64 - 2 ^ 63)%Z.

(** [np.take(a, indices)] on an array of integers *)
Definition np_take_int64 (a : list Z) (indices : list nat) : result (list Z) :=
  mapM (fun i => match a !! i with
                 | Some v => Ok v
                 | None => Raise IndexError
                 end) indices.

(** [2 ** a] on an array of integers: ValueError when an exponent is
    negative, whatever the other entries. *)
Definition np_power2_int64 (a : list Z) : result (list Z) :=
  if forallb (fun y => (0 <=? y)%Z) a
  then Ok (map (fun y => wrap64 (2 ^ y)) a)
  else Raise ValueError.

(** [np.sum(a)] on an array of integers *)
Definition np_sum_int64 (a : list Z) : Z :=
  foldr (fun x acc => wrap64 (x + acc)) 0%Z a.

(** The ground truth: an array of int64 or an array of float64. *)
Inductive label_array : Type :=
| Int64Array (a : list Z)
| Float64Array (a : list R).

(** The entries as numbers, which is how [np.argsort] compares them. *)
Definition label_values (y_true : label_array) : list R :=
  match y_true with
  | Int64Array a => map IZR a
  | Float64Array a => a
  end.

Section IntegerMetrics.
Variable argsort : list R → list nat.

(** [dcg_score(y_true, y_score, k)] on an int64 ground truth. *)
Definition dcg_score_int64 (y_true : list Z) (y_score : list R) (k : Z)
    : result R :=
  let k := Z.min (Z.of_nat (length y_true)) k in
  let order := rev (argsort y_score) in
  y_true ← np_take_int64 y_true (py_slice_to k order);
  powers ← np_power2_int64 y_true;
  let gains := map (fun p => IZR (wrap64 (p - 1))) powers in
  let discounts :=
    map log2 (map (fun i => (i + 2)%R) (np_arange (length y_true))) in
  Ok (np_sum (np_divide_arrays gains discounts)).

(** [mrr_score(y_true, y_score)] on an int64 ground truth. *)
Definition mrr_score_int64 (y_true : list Z) (y_score : list R)
    : result float64 :=
  let order := rev (argsort y_score) in
  y_true ← np_take_int64 y_true order;
  let rr_score :=
    np_divide_arrays (map IZR y_true)
      (map (fun i => (i + 1)%R) (np_arange (length y_true))) in
  Ok (np_divide (np_sum rr_score) (IZR (np_sum_int64 y_true))).

(** The three metrics on a ground truth of either type. *)
Definition dcg_score_array (y_true : label_array) (y_score : list R) (k : Z)
    : result R :=
  match y_true with
  | Int64Array a => dcg_score_int64 a y_score k
  | Float64Array a => dcg_score argsort a y_score k
  end.

Definition ndcg_score_array (y_true : label_array) (y_score : list R) (k : Z)
    : result float64 :=
  best ← dcg_score_array y_true (label_values y_true) k;
  actual ← dcg_score_array y_true y_score k;
  Ok (np_divide actual best).

Definition mrr_score_array (y_true : label_array) (y_score : list R)
    : result float64 :=
  match y_true with
  | Int64Array a => mrr_score_int64 a y_score
  | Float64Array a => mrr_score argsort a y_score
  end.
End IntegerMetrics.

(** *** Further definitions for the metrics *)

(** The number of ranks that [order[:min(n, k)]] keeps out of [n]: a
    negative cutoff drops ranks from the end. *)
Definition kept_ranks (n : nat) (k : Z) : nat :=
  if (k <? 0)%Z then Z.to_nat (Z.of_nat n + k) else Z.to_nat k `min` n.

(** The gain of a relevance value in [dcg_score]. *)
Definition gain (r : R) : R := (Rpower 2 r - 1)%R.

(** The weight of rank [i] when [m] ranks are kept. *)
Definition dcg_weight (m i : nat) : R :=
  if i <? m then (/ log2 (INR i + 2))%R else 0%R.

(** Weighted sums [w 0 * x0 + w 1 * x1 + ...]. *)
Fixpoint wsum (w : nat → R) (l : list R) : R :=
  match l with
  | [] => 0%R
  | x :: l' => (w 0%nat * x + wsum (fun i => w (S i)) l')%R
  end.

(** *** Further definitions for arrays *)

(** The rows of the input arrays in order, a one-dimensional array
    being one row. *)
Definition input_rows {A : Type} (arrays : list (ndarray A)) : list (list A) :=
  concat (map (fun a => snd (atleast_2d a)) arrays).

(** [padded_row] is [row] followed by pad values up to the width [w]. *)
Definition padded_from {A : Type} (w : nat) (v : A) (row padded_row : list A)
    : Prop :=
  length padded_row = w
  ∧ take (length row) padded_row = row
  ∧ drop (length row) padded_row = replicate (w - length row) v.

(** *** [non_increasing] and [count_variables] *)

(** [non_increasing(lst)]:
    [all(x >= y for x, y in zip(lst, lst[1:]))], for the comparison
    [ge] of the entries. *)
Definition non_increasing {A : Type} (ge : A → A → bool) (lst : list A) : bool :=
  forallb (fun '(x, y) => ge x y) (zip lst (drop 1 lst)).

(** [>=] on floats without NaN. *)
Definition Rgeb (x y : R) : bool := if Rge_dec x y then true else false.

(** A parameter of a module, as far as [count_variables] reads it. *)
Record parameter : Type := {
  requires_grad : bool;
  numel : nat
}.

(** The loop of [count_variables] over [model.named_parameters()]. *)
Fixpoint count_loop (named_parameters : list (string * parameter))
    (total_parameters : nat) : nat :=
  match named_parameters with
  | [] => total_parameters
  | (name, p) :: rest =>
      if requires_grad p
      then count_loop rest (total_parameters + numel p)
      else count_loop rest total_parameters
  end.

(** [count_variables(model)], the module being given by its named
    parameters. *)
Definition count_variables (model : list (string * parameter)) : nat :=
  count_loop model 0.

Definition trainable (np : string * parameter) : bool := requires_grad np.2.

(** *** Exceptions of the other helpers *)

(** The exceptions that the remaining helpers raise: the two of [exn]
    and the built-in ones below. *)
Inductive exception : Type :=
| Builtin (e : exn)
| AttributeError
| TypeError
| KeyError
| OSError.

Inductive outcome (A : Type) : Type :=
| Returns (a : A)
| Raises (e : exception).

Arguments Returns {A} a.
Arguments Raises {A} e.

#[global] Instance outcome_ret : MRet outcome := fun _ a => Returns a.

#[global] Instance outcome_bind : MBind outcome :=
  fun _ _ f m => match m with Returns a => f a | Raises e => Raises e end.

(** *** [batch_to_gpu] *)

Section BatchToGpu.
(** Devices, tensor contents, dictionary keys and the objects that are
    neither tensors nor lists.  Such an object is taken to have no
    method [to]. *)
Context {D X K O : Type}.

Record tensor : Type := {
  tensor_device : D;
  tensor_data : X
}.

(** [t.to(device)] *)
Definition tensor_to (t : tensor) (device : D) : tensor :=
  {| tensor_device := device; tensor_data := tensor_data t |}.

#[warnings="-register-all"]
Inductive value : Type :=
| Tensor (t : tensor)
| PyList (items : list value)
| Other (o : O).

(** [p.to(device)] on an entry of a list. *)
Definition to_device (device : D) (p : value) : outcome value :=
  match p with
  | Tensor t => Returns (Tensor (tensor_to t device))
  | PyList _ => Raises AttributeError
  | Other _ => Raises AttributeError
  end.

(** [[p.to(device) for p in k] if isinstance(k, List) else k.to(device)] *)
Definition move_item (device : D) (k : value) : outcome value :=
  match k with
  | PyList ps => ps' ← mapM (to_device device) ps; Returns (PyList ps')
  | _ => to_device device k
  end.

(** The new value of [batch[c]]. *)
Definition move_value (device : D) (v : value) : outcome value :=
  match v with
  | Tensor t => Returns (Tensor (tensor_to t device))
  | PyList ks => ks' ← mapM (move_item device) ks; Returns (PyList ks')
  | Other _ => Returns v
  end.

(** [for c in batch: batch[c] = ...], the dictionary being the list of
    its items: [moved] holds the items already visited, with their new
    values. *)
Fixpoint batch_loop (device : D) (moved todo : list (K * value))
    : list (K * value) * outcome unit :=
  match todo with
  | [] => (moved, Returns ())
  | (c, v) :: rest =>
      match move_value device v with
      | Returns v' => batch_loop device (moved ++ [(c, v')]) rest
      | Raises e => (moved ++ todo, Raises e)
      end
  end.

(** [batch_to_gpu(batch, device)]: the dictionary when the call ends,
    which is also the value returned, and whether the call returned. *)
Definition batch_to_gpu (batch : list (K * value)) (device : D)
    : list (K * value) * outcome unit :=
  batch_loop device [] batch.

(** A list entry that [move_item] accepts: a tensor or a list of
    tensors. *)
Definition is_tensor (v : value) : Prop :=
  match v with Tensor _ => True | _ => False end.

Definition movable_item (k : value) : Prop :=
  match k with
  | Tensor _ => True
  | PyList ps => Forall is_tensor ps
  | Other _ => False
  end.

(** A value that [move_value] accepts. *)
Definition movable (v : value) : Prop :=
  match v with
  | PyList ks => Forall movable_item ks
  | _ => True
  end.

(** The tensors of a value down to the second level of lists. *)
Definition tensors_of_item (k : value) : list tensor :=
  match k with
  | Tensor t => [t]
  | PyList ps =>
      concat (map (fun p => match p with Tensor t => [t] | _ => [] end) ps)
  | Other _ => []
  end.

Definition tensors_of (v : value) : list tensor :=
  match v with
  | Tensor t => [t]
  | PyList ks => concat (map tensors_of_item ks)
  | Other _ => []
  end.

(** The values that a successful call leaves behind. *)
Definition moved_leaf (device : D) (p : value) : value :=
  match p with
  | Tensor t => Tensor (tensor_to t device)
  | _ => p
  end.

Definition moved_item (device : D) (k : value) : value :=
  match k with
  | PyList ps => PyList (map (moved_leaf device) ps)
  | _ => moved_leaf device k
  end.

Definition moved (device : D) (v : value) : value :=
  match v with
  | Tensor t => Tensor (tensor_to t device)
  | PyList ks => PyList (map (moved_item device) ks)
  | Other _ => v
  end.

Definition moved_entry (device : D) (cv : K * value) : K * value :=
  (cv.1, moved device cv.2).
End BatchToGpu.

Arguments tensor D X : clear implicits.
Arguments value D X O : clear implicits.

(** *** [load_hyperparam] *)

Section LoadHyperparam.
(** The values of attributes and of configuration entries, with
    Python's [str] on them. *)
Context {V : Type}.
Variable str : V → string.

(** A key of a YAML mapping: a string or something else. *)
Inductive yaml_key : Type :=
| KeyStr (s : string)
| KeyOther.

(** What [yaml.load] returns: a mapping, given by its items in order,
    or a document of another kind (nothing, a scalar, a sequence), which
    has no [items]. *)
Inductive yaml_doc : Type :=
| YamlMapping (items : list (yaml_key * V))
| YamlOther.

(** [open(path, 'r')] followed by [yaml.load]: the document of the file
    or the exception of the failure. *)
Variable yaml_load : string → outcome yaml_doc.

(** [args.name] on a namespace. *)
Definition getattr (args : gmap string V) (name : string) : outcome V :=
  match args !! name with
  | Some v => Returns v
  | None => Raises AttributeError
  end.

(** [for key, value in configs.items(): setattr(args, key, value)];
    [setattr] refuses a name that is not a string. *)
Fixpoint setattr_loop (items : list (yaml_key * V)) (args : gmap string V)
    : gmap string V * outcome unit :=
  match items with
  | [] => (args, Returns ())
  | (KeyStr key, value) :: rest => setattr_loop rest (<[key := value]> args)
  | (KeyOther, _) :: _ => (args, Raises TypeError)
  end.

(** [f"config/{args.model}_{args.data}.yaml"] *)
Definition default_path (args : gmap string V) : outcome string :=
  model ← getattr args "model";
  data ← getattr args "data";
  Returns ("config/" +:+ str model +:+ "_" +:+ str data +:+ ".yaml").

(** [load_hyperparam(args, load_path)]: the namespace when the call
    ends, which is also the value returned, and whether the call
    returned. *)
Definition load_hyperparam (args : gmap string V) (load_path : string)
    : gmap string V * outcome unit :=
  match (if decide (load_path = "") then default_path args
         else Returns load_path) with
  | Raises e => (args, Raises e)
  | Returns load_path =>
      match yaml_load load_path with
      | Raises e => (args, Raises e)
      | Returns YamlOther => (args, Raises AttributeError)
      | Returns (YamlMapping items) => setattr_loop items args
      end
  end.


End LoadHyperparam.

Arguments yaml_doc V : clear implicits.

(** *** [format_metric] *)

(** [s.split(sep)] for a separator of one character. *)
Fixpoint py_split (sep : ascii) (s : string) : list string :=
  match s with
  | EmptyString => [EmptyString]
  | String c s' =>
      if Ascii.eqb c sep then EmptyString :: py_split sep s'
      else match py_split sep s' with
           | part :: parts => String c part :: parts
           | [] => [String c EmptyString]
           end
  end.

(** [l[i]] *)
Definition py_index {A : Type} (l : list A) (i : nat) : outcome A :=
  match l !! i with
  | Some x => Returns x
  | None => Raises (Builtin IndexError)
  end.

(** [np.unique] and [np.sort] on a one-dimensional array, for the strict
    order [ltb] of its entries: sorted without duplicates, and sorted. *)
Fixpoint insert_unique {A : Type} (ltb : A → A → bool) (x : A) (l : list A)
    : list A :=
  match l with
  | [] => [x]
  | y :: l' =>
      if ltb x y then x :: l
      else if ltb y x then y :: insert_unique ltb x l'
      else l
  end.

Definition np_unique {A : Type} (ltb : A → A → bool) (l : list A) : list A :=
  foldr (insert_unique ltb) [] l.

Fixpoint insert_sorted {A : Type} (ltb : A → A → bool) (x : A) (l : list A)
    : list A :=
  match l with
  | [] => [x]
  | y :: l' => if ltb y x then y :: insert_sorted ltb x l' else x :: l
  end.

Definition np_sort {A : Type} (ltb : A → A → bool) (l : list A) : list A :=
  foldr (insert_sorted ltb) [] l.

(** A Python or numpy float: a rational or a special value. *)
Inductive py_float : Type :=
| FloatOf (q : Q)
| FloatInf
| FloatNegInf
| FloatNan.

(** A value of the result dictionary: of one of the float types that
    [format_metric] prints with four decimals, of one of the integer
    types that it prints as they are, or of another type. *)
Inductive metric_value : Type :=
| FloatValue (x : py_float)
| IntValue (z : Z)
| OtherValue.

Definition four_digits (n : Z) : string :=
  (if (n <? 10)%Z then "000"
   else if (n <? 100)%Z then "00"
   else if (n <? 1000)%Z then "0" else "") +:+ pretty n.

(** The format specification [:<.4f]. *)
Definition format_4f (x : py_float) : string :=
  match x with
  | FloatOf q =>
      let h := round_half_even (Qabs q * 10000)%Q in
      (match (q ?= 0)%Q with Lt => "-" | _ => "" end)
        +:+ pretty (h / 10000)%Z +:+ "." +:+ four_digits (h mod 10000)%Z
  | FloatInf => "inf"
  | FloatNegInf => "-inf"
  | FloatNan => "nan"
  end.

(** [result_dict[name]], the dictionary being the list of its items. *)
Fixpoint dict_get (result_dict : list (string * metric_value)) (name : string)
    : outcome metric_value :=
  match result_dict with
  | [] => Raises KeyError
  | (k, m) :: rest => if decide (k = name) then Returns m else dict_get rest name
  end.

(** ['{}@{}'.format(metric, topk)] *)
Definition metric_name (metric : string) (topk : Z) : string :=
  metric +:+ "@" +:+ pretty topk.

(** What one pass of the inner loop appends for the value [m]. *)
Definition formatted (name : string) (m : metric_value) : list string :=
  match m with
  | FloatValue x => [name +:+ ":" +:+ format_4f x]
  | IntValue z => [name +:+ ":" +:+ pretty z]
  | OtherValue => []
  end.

Section FormatMetric.
(** [int] on a string: the integer or ValueError.  The cutoffs are
    taken within the range of the integer type of numpy arrays. *)
Variable int_of_str : string → outcome Z.

Fixpoint metric_loop (result_dict : list (string * metric_value)) (topk : Z)
    (metrics : list string) (format_str : list string)
    : outcome (list string) :=
  match metrics with
  | [] => Returns format_str
  | metric :: rest =>
      let name := metric_name metric topk in
      m ← dict_get result_dict name;
      metric_loop result_dict topk rest (format_str ++ formatted name m)
  end.

Fixpoint topk_loop (result_dict : list (string * metric_value))
    (topks : list Z) (metrics : list string) (format_str : list string)
    : outcome (list string) :=
  match topks with
  | [] => Returns format_str
  | topk :: rest =>
      format_str ← metric_loop result_dict topk metrics format_str;
      topk_loop result_dict rest metrics format_str
  end.

Definition format_metric (result_dict : list (string * metric_value))
    : outcome string :=
  let keys := map fst result_dict in
  metrics ← mapM (fun k => py_index (py_split "@" k) 0) keys;
  let metrics := np_unique String.ltb metrics in
  topks ← mapM (fun k => s ← py_index (py_split "@" k) 1; int_of_str s) keys;
  let topks := np_unique Z.ltb topks in
  format_str ←
    topk_loop result_dict (np_sort Z.ltb topks) (np_sort String.ltb metrics) [];
  Returns (String.concat "," format_str).

(** The key [key] reads as the metric [metric] at the cutoff [topk]. *)
Definition reads_as (key : string) (metric_topk : string * Z) : Prop :=
  ∃ s rest,
    py_split "@" key = metric_topk.1 :: s :: rest
    ∧ int_of_str s = Returns metric_topk.2.
End FormatMetric.

(** The entries of the result for the cutoffs and the metrics in the
    given order. *)
Definition entry (result_dict : list (string * metric_value)) (topk : Z)
    (metric : string) : list string :=
  match dict_get result_dict (metric_name metric topk) with
  | Returns m => formatted (metric_name metric topk) m
  | Raises _ => []
  end.


(** A numeral reader that agrees with [int] on the strings of decimal
    digits. *)
Fixpoint digits_value (s : string) (acc : Z) : outcome Z :=
  match s with
  | EmptyString => Returns acc
  | String c s' =>
      let d := (Z.of_nat (nat_of_ascii c) - 48)%Z in
      if ((0 <=? d) && (d <=? 9))%Z
      then digits_value s' (10 * acc + d)%Z
      else Raises (Builtin ValueError)
  end.

Definition decimal_int (s : string) : outcome Z :=
  match s with
  | EmptyString => Raises (Builtin ValueError)
  | _ => digits_value s 0
  end.

(** The weight of rank [i] in [mrr_score]. *)
Definition mrr_weight (i : nat) : R := (/ (INR i + 1))%R.

(** ** Part II: properties *)

(** *** The result monad *)

Lemma result_bind_Ok {A B : Type} (f : A → result B) (a : A) :
  (Ok a ≫= f) = f a.
Proof. reflexivity. Qed.

(** *** Arrays *)

Section ArrayFacts.
Context {A : Type}.
Implicit Types (a : ndarray A) (arrays : list (ndarray A)) (v : A).

Lemma promote_is_2d a : is_2d (promote a).
Proof. by destruct a. Qed.

Lemma shape_last_promote a : shape_last (promote a) = shape_last a.
Proof. by destruct a. Qed.

Lemma atleast_2d_promote a : atleast_2d (promote a) = atleast_2d a.
Proof. by destruct a. Qed.

(** The enumeration with in-place update has replaced, when it has
    reached position [i], the entries before [i] only. *)
Lemma promote_loop_from fuel : ∀ i arrays,
  length arrays ≤ i + fuel →
  promote_loop fuel i arrays = take i arrays ++ map promote (drop i arrays).
Proof.
  induction fuel as [|fuel IH]; intros i arrays Hlen; simpl.
  - rewrite take_ge, drop_ge by lia. by rewrite app_nil_r.
  - destruct (arrays !! i) as [array|] eqn:Hi.
    + rewrite (drop_S _ _ _ Hi). simpl.
      assert (i < length arrays) by (by apply lookup_lt_is_Some; eexists).
      destruct array as [d|c rows]; rewrite IH.
      * rewrite (take_S_r _ _ (Arr2 (length d) [d])),
          take_insert_ge, drop_insert_lt by
          (rewrite ?list_lookup_insert_eq; auto with lia).
        by rewrite <- app_assoc.
      * rewrite length_insert; lia.
      * rewrite (take_S_r _ _ _ Hi). by rewrite <- app_assoc.
      * lia.
    + apply lookup_ge_None in Hi.
      rewrite take_ge, drop_ge by lia. by rewrite app_nil_r.
Qed.

Lemma promote_loop_map arrays :
  promote_loop (length arrays) 0 arrays = map promote arrays.
Proof. by rewrite promote_loop_from by lia. Qed.

Lemma max_width_promote arrays :
  max_width (map promote arrays) = max_width arrays.
Proof.
  unfold max_width. rewrite map_map.
  f_equal. apply map_ext. intros a. apply shape_last_promote.
Qed.

Lemma foldl_max_foldr x (l : list nat) :
  foldl Nat.max x l = Nat.max x (foldr Nat.max 0 l).
Proof.
  revert x; induction l as [|y l IH]; intros x; simpl; [lia|].
  rewrite IH. lia.
Qed.

Lemma py_max_widths arrays :
  arrays ≠ [] → py_max (map shape_last arrays) = Ok (max_width arrays).
Proof.
  destruct arrays as [|a arrays]; [done|intros _].
  unfold max_width; simpl. by rewrite foldl_max_foldr.
Qed.

Lemma shape_last_le_max_width arrays a :
  a ∈ arrays → shape_last a ≤ max_width arrays.
Proof.
  unfold max_width.
  induction 1 as [a arrays|a b arrays _ IH]; simpl; lia.
Qed.

Lemma pad_one w v c (rows : list (list A)) :
  c ≤ w →
  (if c <? w
   then np_hstack (Arr2 c rows) (np_full (length rows) (w - c) v)
   else Ok (Arr2 c rows)) = Ok (padded w v (Arr2 c rows)).
Proof.
  intros Hc. unfold padded, right_pad; simpl.
  destruct (Nat.ltb_spec c w) as [Hlt|Hge].
  - rewrite length_replicate, Nat.eqb_refl.
    rewrite zip_with_replicate_r_eq by done.
    do 2 f_equal. lia.
  - assert (c = w) as -> by lia.
    rewrite Nat.sub_diag. simpl.
    do 2 f_equal. induction rows as [|r rows IH]; simpl; [done|].
    by rewrite app_nil_r, <- IH.
Qed.

Lemma pad_loop_2d w v : ∀ arrays acc,
  Forall is_2d arrays →
  Forall (fun a => shape_last a ≤ w) arrays →
  pad_loop w v arrays acc = Ok (acc ++ map (padded w v) arrays).
Proof.
  induction arrays as [|a arrays IH]; intros acc H2 Hw; simpl.
  - by rewrite app_nil_r.
  - inversion H2 as [|? ? Ha H2']; inversion Hw as [|? ? Hc Hw']; subst.
    destruct a as [d|c rows]; [discriminate Ha|].
    simpl in Hc. change (shape_first (Arr2 c rows)) with (length rows).
    change (shape_last (Arr2 c rows)) with c.
    rewrite (pad_one w v c rows Hc), result_bind_Ok.
    rewrite IH by done. by rewrite <- app_assoc.
Qed.

Lemma vstack_rows_padded w v : ∀ arrays,
  vstack_rows w (map (padded w v) arrays)
  = Ok (concat (map (right_pad w v) arrays)).
Proof.
  induction arrays as [|a arrays IH]; simpl; [done|].
  by rewrite Nat.eqb_refl, IH.
Qed.

Lemma np_vstack_padded w v arrays :
  arrays ≠ [] →
  np_vstack (map (padded w v) arrays)
  = Ok (Arr2 w (concat (map (right_pad w v) arrays))).
Proof.
  destruct arrays as [|a arrays]; [done|intros _].
  unfold np_vstack. change (map (padded w v) (a :: arrays))
    with (padded w v a :: map (padded w v) arrays).
  cbv beta iota. change (fst (atleast_2d (padded w v a))) with w.
  change (padded w v a :: map (padded w v) arrays)
    with (map (padded w v) (a :: arrays)).
  by rewrite vstack_rows_padded.
Qed.

Lemma right_pad_promote w v a : right_pad w v (promote a) = right_pad w v a.
Proof. unfold right_pad. by rewrite atleast_2d_promote. Qed.

(** The caller's list after the call. *)
Lemma pad_and_stack_final_list arrays v :
  (pad_and_stack arrays v).1 = map promote arrays.
Proof. unfold pad_and_stack. simpl. apply promote_loop_map. Qed.

(** The value returned. *)
Lemma pad_and_stack_returns arrays v :
  arrays ≠ [] →
  (pad_and_stack arrays v).2 = Ok (pad_and_stack_spec arrays v).
Proof.
  intros Hne. unfold pad_and_stack, pad_and_stack_spec. simpl.
  rewrite promote_loop_map.
  assert (map promote arrays ≠ []) as Hne' by (by destruct arrays).
  rewrite (py_max_widths _ Hne'), result_bind_Ok, max_width_promote.
  rewrite pad_loop_2d, result_bind_Ok; simpl.
  - rewrite np_vstack_padded by done.
    rewrite map_map. do 3 f_equal.
    apply map_ext. intros a. apply right_pad_promote.
  - apply List.Forall_forall. intros a Ha. apply in_map_iff in Ha.
    destruct Ha as (b & <- & _). apply promote_is_2d.
  - apply List.Forall_forall. intros a Ha. apply in_map_iff in Ha.
    destruct Ha as (b & <- & Hb). rewrite shape_last_promote.
    apply shape_last_le_max_width. by apply list_elem_of_In.
Qed.

(** Every row of the result has the maximal width. *)
Lemma pad_and_stack_spec_wf arrays v :
  Forall wf_array arrays → wf_array (pad_and_stack_spec arrays v).
Proof.
  intros Hwf. unfold pad_and_stack_spec. simpl.
  apply List.Forall_forall. intros r Hr.
  apply in_concat in Hr. destruct Hr as (rs & Hrs & Hr).
  apply in_map_iff in Hrs. destruct Hrs as (a & <- & Ha).
  rewrite List.Forall_forall in Hwf. specialize (Hwf a Ha).
  assert (shape_last a ≤ max_width arrays) as Hle
    by (apply shape_last_le_max_width; by apply list_elem_of_In).
  unfold right_pad in Hr. destruct a as [d|c rows]; simpl in *.
  - destruct Hr as [<-|[]]. rewrite length_app, length_replicate. lia.
  - apply in_map_iff in Hr. destruct Hr as (r0 & <- & Hr0).
    rewrite List.Forall_forall in Hwf. specialize (Hwf r0 Hr0).
    rewrite length_app, length_replicate. lia.
Qed.
End ArrayFacts.

(** *** Sorting positions *)

Section SortBy.
Variable le : nat → nat → bool.

Lemma insert_by_perm i l : insert_by le i l ≡ₚ i :: l.
Proof.
  induction l as [|j l IH]; simpl; [done|].
  destruct (le i j); [done|].
  rewrite IH. apply perm_swap.
Qed.

Lemma sort_by_perm l : sort_by le l ≡ₚ l.
Proof.
  induction l as [|i l IH]; simpl; [done|].
  by rewrite insert_by_perm, IH.
Qed.

Hypothesis le_total : ∀ i j, le i j = true ∨ le j i = true.

Lemma insert_by_hd i j l :
  le j i = true → HdRel (fun x y => le x y = true) j l →
  HdRel (fun x y => le x y = true) j (insert_by le i l).
Proof.
  intros Hji Hhd. destruct l as [|x l]; simpl.
  - by constructor.
  - destruct (le i x); constructor; [done|].
    by inversion Hhd.
Qed.

Lemma insert_by_sorted i l :
  Sorted (fun x y => le x y = true) l →
  Sorted (fun x y => le x y = true) (insert_by le i l).
Proof.
  induction 1 as [|j l Hs IH Hhd]; simpl.
  - by repeat constructor.
  - destruct (le i j) eqn:Hij.
    + constructor; [by constructor | by constructor].
    + constructor; [done|].
      apply insert_by_hd; [|done].
      destruct (le_total i j) as [H|H]; congruence.
Qed.

Lemma sort_by_sorted l : Sorted (fun x y => le x y = true) (sort_by le l).
Proof.
  induction l as [|i l IH]; simpl; [constructor|].
  by apply insert_by_sorted.
Qed.
End SortBy.

Lemma insert_by_ext le1 le2 i l :
  (∀ j, j ∈ l → le1 i j = le2 i j) →
  insert_by le1 i l = insert_by le2 i l.
Proof.
  induction l as [|j l IH]; intros Hext; simpl; [done|].
  rewrite (Hext j) by apply list_elem_of_here.
  destruct (le2 i j); [done|].
  f_equal. apply IH. intros x Hx. apply Hext. by apply list_elem_of_further.
Qed.

Lemma sort_by_ext le1 le2 l :
  (∀ i j, i ∈ l → j ∈ l → le1 i j = le2 i j) →
  sort_by le1 l = sort_by le2 l.
Proof.
  induction l as [|i l IH]; intros Hext; simpl; [done|].
  rewrite IH.
  - apply insert_by_ext. intros j Hj.
    apply Hext; [apply list_elem_of_here|].
    apply list_elem_of_further. by rewrite <- (sort_by_perm le2 l).
  - intros x y Hx Hy. apply Hext; by apply list_elem_of_further.
Qed.

Lemma key_le_true a i j :
  key_le a i j = true ↔ (at_index a i <= at_index a j)%R.
Proof. unfold key_le. by destruct (Rle_dec _ _). Qed.

Lemma key_le_total a i j : key_le a i j = true ∨ key_le a j i = true.
Proof.
  rewrite !key_le_true.
  destruct (Rle_lt_dec (at_index a i) (at_index a j)); [by left|right; lra].
Qed.

Lemma key_le_sorted_values a l :
  Sorted (fun x y => key_le a x y = true) l →
  StronglySorted Rle (map (at_index a) l).
Proof.
  intros Hs. apply Sorted_StronglySorted; [intros x y z; apply Rle_trans|].
  induction Hs as [|i l Hs IH Hhd]; simpl; constructor; [done|].
  destruct Hhd; simpl; constructor. by apply key_le_true.
Qed.

(** Stable insertion sort meets the contract. *)
Lemma stable_argsort_contract : argsort_contract stable_argsort.
Proof.
  split.
  - intros a. apply sort_by_perm.
  - intros a. apply key_le_sorted_values, sort_by_sorted, key_le_total.
Qed.

Lemma stable_argsort_comparison : comparison_sort stable_argsort.
Proof.
  intros a b Hlen Hcmp. unfold stable_argsort. rewrite <- Hlen.
  apply sort_by_ext. intros i j Hi Hj.
  apply elem_of_seq in Hi, Hj.
  apply eq_true_iff_eq. rewrite !key_le_true. apply Hcmp; lia.
Qed.

(** *** Gathering, slicing and summing *)

Lemma np_take_in_range a idx :
  Forall (fun i => i < length a) idx →
  np_take a idx = Ok (map (at_index a) idx).
Proof.
  unfold np_take. induction 1 as [|i idx Hi _ IH]; simpl; [done|].
  destruct (a !! i) as [v|] eqn:Hv.
  - rewrite result_bind_Ok, IH, result_bind_Ok.
    unfold at_index. by rewrite (nth_lookup_Some _ _ _ _ Hv).
  - apply lookup_ge_None in Hv. lia.
Qed.

Lemma np_take_out_of_range a idx :
  Exists (fun i => length a ≤ i) idx → np_take a idx = Raise IndexError.
Proof.
  unfold np_take. induction idx as [|i idx IH]; intros Hex; simpl.
  - inversion Hex.
  - destruct (a !! i) as [v|] eqn:Hv; [|done].
    rewrite result_bind_Ok, IH; [done|].
    inversion Hex as [? ? Hi|]; subst; [|done].
    apply lookup_ge_None in Hi. congruence.
Qed.

Lemma py_slice_to_nonneg {X : Type} (k : Z) (l : list X) :
  (0 <= k)%Z → py_slice_to k l = take (Z.to_nat k) l.
Proof.
  intros Hk. unfold py_slice_to.
  by destruct (Z.ltb_spec k 0); [lia|].
Qed.

Lemma py_slice_to_min {X : Type} (k : Z) (l : list X) :
  (0 <= k)%Z →
  py_slice_to (Z.min (Z.of_nat (length l)) k) l = py_slice_to k l.
Proof.
  intros Hk. rewrite !py_slice_to_nonneg by lia.
  rewrite Z2Nat.inj_min, Nat2Z.id.
  destruct (Nat.le_ge_cases (length l) (Z.to_nat k)).
  - rewrite Nat.min_l by done. by rewrite !take_ge.
  - by rewrite Nat.min_r.
Qed.

Lemma np_sum_app a b : np_sum (a ++ b) = (np_sum a + np_sum b)%R.
Proof.
  unfold np_sum. induction a as [|x a IH]; simpl; [lra|].
  rewrite IH. lra.
Qed.

Lemma np_sum_perm a b : a ≡ₚ b → np_sum a = np_sum b.
Proof.
  unfold np_sum.
  induction 1 as [|x a b _ IH|x y a|a b c _ IH1 _ IH2]; simpl; lra.
Qed.

Lemma map_at_index_seq a : map (at_index a) (seq 0 (length a)) = a.
Proof.
  unfold at_index. induction a as [|x a IH]; simpl; [done|].
  f_equal. by rewrite <- seq_shift, map_map.
Qed.

(** Gathering along a permutation of the positions keeps the sum. *)
Lemma np_sum_gather a order :
  order ≡ₚ seq 0 (length a) → np_sum (map (at_index a) order) = np_sum a.
Proof.
  intros Hperm. rewrite (np_sum_perm _ (map (at_index a) (seq 0 (length a)))).
  - by rewrite map_at_index_seq.
  - by apply Permutation_map.
Qed.

Lemma sum_upto_ext m f g :
  (∀ i, i < m → f i = g i) → sum_upto m f = sum_upto m g.
Proof.
  intros Hext. unfold sum_upto. f_equal.
  apply map_ext_in. intros i Hi. apply in_seq in Hi. apply Hext. lia.
Qed.

(** The sum of the quotients of two arrays, the second one computed
    from the positions, read position by position. *)
Lemma np_sum_divide_positions (g h : R → R) (c : R) (ys : list R) :
  np_sum (np_divide_arrays (map g ys)
            (map h (map (fun i => (i + c)%R) (np_arange (length ys)))))
  = sum_upto (length ys) (fun i => (g (nth i ys 0) / h (INR i + c))%R).
Proof.
  unfold sum_upto, np_arange, np_divide_arrays.
  rewrite !map_map.
  assert (∀ s,
    np_sum (zip_with Rdiv (map g ys)
              (map (fun i => h (INR i + c)%R) (seq s (length ys))))
    = np_sum (map (fun i => (g (nth i ys 0) / h (INR (s + i) + c))%R)
                (seq 0 (length ys)))) as Hshift.
  { induction ys as [|y ys IH]; intros s; simpl; [done|].
    rewrite Nat.add_0_r. f_equal.
    rewrite IH, <- seq_shift, map_map. f_equal.
    apply map_ext. intros i. by rewrite Nat.add_succ_r. }
  apply (Hshift 0%nat).
Qed.

Lemma log2_position_pos i : (0 < log2 (INR i + 2))%R.
Proof.
  unfold log2. pose proof (pos_INR i).
  assert (0 < ln 2)%R by (rewrite <- ln_1; apply ln_increasing; lra).
  assert (0 < ln (INR i + 2))%R by (rewrite <- ln_1; apply ln_increasing; lra).
  by apply Rdiv_lt_0_compat.
Qed.

Lemma discounts_positive n :
  Forall (fun d => (0 < d)%R)
    (map log2 (map (fun i => (i + 2)%R) (np_arange n))).
Proof.
  unfold np_arange. rewrite !map_map. apply List.Forall_forall.
  intros d Hd. apply in_map_iff in Hd. destruct Hd as (i & <- & _).
  apply log2_position_pos.
Qed.

Lemma ranks_positive n :
  Forall (fun d => (0 < d)%R) (map (fun i => (i + 1)%R) (np_arange n)).
Proof.
  unfold np_arange. rewrite !map_map. apply List.Forall_forall.
  intros d Hd. apply in_map_iff in Hd. destruct Hd as (i & <- & _).
  pose proof (pos_INR i). lra.
Qed.

Lemma StronglySorted_nth_le (l : list R) :
  StronglySorted Rle l →
  ∀ i j, i < j < length l → (nth i l 0 <= nth j l 0)%R.
Proof.
  induction 1 as [|x l _ IH Hall]; intros i j Hij; simpl in *; [lia|].
  destruct i as [|i], j as [|j]; try lia.
  - rewrite List.Forall_forall in Hall. apply Hall, nth_In. lia.
  - apply IH. lia.
Qed.

(** *** The ranking *)

Section Ranking.
Variable argsort : list R → list nat.
Hypothesis Hsort : argsort_contract argsort.

Lemma ranking_perm s : ranking argsort s ≡ₚ seq 0 (length s).
Proof.
  unfold ranking. rewrite <- Permutation_rev. apply (argsort_perm _ Hsort).
Qed.

Lemma ranking_length s : length (ranking argsort s) = length s.
Proof. by rewrite (Permutation_length (ranking_perm s)), length_seq. Qed.

Lemma ranking_in_range s :
  Forall (fun i => i < length s) (ranking argsort s).
Proof.
  apply List.Forall_forall. intros i Hi.
  apply (Permutation_in _ (ranking_perm s)), in_seq in Hi. lia.
Qed.

Lemma ranking_descending s : descending s (ranking argsort s).
Proof.
  intros i j Hij. unfold ranking in *. rewrite length_rev in Hij.
  rewrite !rev_nth by lia.
  pose proof (StronglySorted_nth_le _ (argsort_sorted _ Hsort s)) as Hle.
  rewrite length_map in Hle.
  specialize (Hle (length (argsort s) - S j) (length (argsort s) - S i)).
  rewrite !(nth_indep _ 0%R (at_index s 0%nat)) in Hle
    by (rewrite length_map; lia).
  rewrite !map_nth in Hle. apply Hle. lia.
Qed.

Lemma gathered_nth (y_true : list R) (idx : list nat) i :
  i < length idx →
  nth i (map (at_index y_true) idx) 0%R = at_index y_true (nth i idx 0%nat).
Proof.
  intros Hi.
  rewrite (nth_indep _ 0%R (at_index y_true 0%nat)) by (by rewrite length_map).
  apply map_nth.
Qed.

(** [dcg_score] returns, whatever the cutoff, and its value is the sum
    of the terms of the positions it keeps. *)
Lemma dcg_score_kept y_true y_score (k : Z) :
  length y_true = length y_score →
  let kept :=
    py_slice_to (Z.min (Z.of_nat (length y_true)) k) (ranking argsort y_score) in
  dcg_score argsort y_true y_score k
  = Ok (sum_upto (length kept) (dcg_term y_true kept)).
Proof.
  intros Hlen kept. unfold dcg_score. fold (ranking argsort y_score).
  fold kept.
  rewrite np_take_in_range, result_bind_Ok.
  - rewrite (np_sum_divide_positions (fun r => (Rpower 2 r - 1)%R) log2 2).
    rewrite length_map. f_equal. apply sum_upto_ext. intros i Hi.
    unfold dcg_term. by rewrite gathered_nth.
  - rewrite Hlen. unfold kept, py_slice_to.
    destruct (_ <? 0)%Z; apply Forall_take, ranking_in_range.
Qed.

Lemma dcg_score_value y_true y_score (k : Z) :
  length y_true = length y_score → (0 < k)%Z →
  dcg_score argsort y_true y_score k
  = Ok (sum_upto (Z.to_nat k `min` length y_true)
          (dcg_term y_true (ranking argsort y_score))).
Proof.
  intros Hlen Hk. rewrite dcg_score_kept by done. cbv zeta.
  rewrite <- (ranking_length y_score) in Hlen. rewrite Hlen.
  rewrite py_slice_to_min, py_slice_to_nonneg by lia.
  rewrite length_take. f_equal. apply sum_upto_ext. intros i Hi.
  unfold dcg_term. rewrite nth_firstn.
  by destruct (Nat.ltb_spec i (Z.to_nat k)); [|lia].
Qed.
End Ranking.

(** *** Hits *)

Lemma elem_of_where_eq_from (a : list R) (v : R) : ∀ s i,
  i ∈ where_eq_from s a v ↔ ∃ j, i = s + j ∧ a !! j = Some v.
Proof.
  induction a as [|x a IH]; intros s i; simpl.
  - split; [by intros ?%elem_of_nil | by intros (j & _ & ?)].
  - assert (i ∈ where_eq_from (S s) a v
            ↔ ∃ j, i = s + S j ∧ a !! j = Some v) as IH'.
    { rewrite IH. by setoid_rewrite Nat.add_succ_r. }
    destruct (Req_dec_T x v) as [->|Hne]; [rewrite elem_of_cons|];
      rewrite IH'; split.
    + intros [->|(j & -> & Hj)]; [exists 0%nat | exists (S j)]; auto with lia.
    + intros ([|j] & -> & Hj); [left; lia | right; eauto].
    + intros (j & -> & Hj). exists (S j); auto.
    + intros ([|j] & -> & Hj); [simpl in Hj; congruence | eauto].
Qed.

Lemma elem_of_np_where_eq (a : list R) (v : R) i :
  i ∈ np_where_eq a v ↔ a !! i = Some v.
Proof.
  unfold np_where_eq. rewrite elem_of_where_eq_from. split.
  - by intros (j & -> & Hj).
  - intros Hi. by exists i.
Qed.

Lemma hit_loop_cases idxs gt :
  (hit_loop idxs gt = 1%Z ∧ ∃ idx, idx ∈ idxs ∧ idx ∈ gt)
  ∨ (hit_loop idxs gt = 0%Z ∧ ¬ ∃ idx, idx ∈ idxs ∧ idx ∈ gt).
Proof.
  induction idxs as [|i idxs IH]; simpl.
  - right. split; [done|]. by intros (idx & ?%elem_of_nil & _).
  - destruct (bool_decide_reflect (i ∈ gt)) as [Hi|Hi].
    + left. split; [done|]. exists i. split; [apply list_elem_of_here|done].
    + destruct IH as [(-> & idx & Hin & Hgt)|(-> & Hno)].
      * left. split; [done|]. exists idx. split; [by apply list_elem_of_further|done].
      * right. split; [done|]. intros (idx & Hin & Hgt).
        apply elem_of_cons in Hin. destruct Hin as [->|Hin]; [done|].
        apply Hno. eauto.
Qed.

(** *** Reciprocal ranks *)

Lemma mrr_score_value argsort y_true y_score :
  argsort_contract argsort →
  length y_true = length y_score →
  mrr_score argsort y_true y_score
  = Ok (np_divide
          (sum_upto (length y_true) (mrr_term y_true (ranking argsort y_score)))
          (np_sum y_true)).
Proof.
  intros Hsort Hlen. unfold mrr_score. fold (ranking argsort y_score).
  pose proof (ranking_length argsort Hsort y_score) as Hrl.
  rewrite np_take_in_range, result_bind_Ok
    by (rewrite Hlen; by apply ranking_in_range).
  pose proof (np_sum_divide_positions (fun r => r) (fun r => r) 1
                (map (at_index y_true) (ranking argsort y_score))) as Hsum.
  rewrite !map_id in Hsum. rewrite Hsum. clear Hsum.
  rewrite length_map, Hrl, <- Hlen.
  rewrite np_sum_gather by (rewrite Hlen; by apply ranking_perm).
  do 2 f_equal. apply sum_upto_ext. intros i Hi.
  unfold mrr_term. rewrite gathered_nth by lia. done.
Qed.

(** *** Division of scalars *)

Lemma np_divide_by_zero x : is_nan_or_inf (np_divide x 0).
Proof.
  unfold np_divide. destruct (Req_dec_T 0 0) as [_|Hne]; [|done].
  destruct (Req_dec_T x 0); [done|]. by destruct (Rlt_dec 0 x).
Qed.

Lemma np_divide_zero_zero : np_divide 0 0 = NaN.
Proof.
  unfold np_divide. destruct (Req_dec_T 0 0) as [_|Hne]; done.
Qed.

Lemma np_divide_nonzero x y : y ≠ 0%R → np_divide x y = Finite (x / y).
Proof. intros Hy. unfold np_divide. by destruct (Req_dec_T y 0). Qed.

Lemma np_divide_self x : x ≠ 0%R → np_divide x x = Finite 1.
Proof. intros Hx. rewrite np_divide_nonzero by done. f_equal. by field. Qed.

Lemma sum_upto_S m f : sum_upto (S m) f = (sum_upto m f + f m)%R.
Proof.
  unfold sum_upto. rewrite seq_S, map_app, np_sum_app. simpl. lra.
Qed.

Lemma sum_upto_pos m f :
  0 < m → (∀ i, i < m → (0 < f i)%R) → (0 < sum_upto m f)%R.
Proof.
  induction m as [|m IH]; intros Hm Hf; [lia|].
  rewrite sum_upto_S. specialize (Hf m (Nat.lt_succ_diag_r m)) as Hfm.
  destruct m as [|m].
  - unfold sum_upto; simpl. lra.
  - assert (0 < sum_upto (S m) f)%R by (apply IH; auto with lia). lra.
Qed.

Lemma at_index_all (v : R) (a : list R) i :
  Forall (fun x => x = v) a → i < length a → at_index a i = v.
Proof.
  intros Hall Hi. rewrite List.Forall_forall in Hall.
  apply Hall. by apply nth_In.
Qed.

Lemma at_index_map (f : R → R) (a : list R) i :
  i < length a → at_index (map f a) i = f (at_index a i).
Proof.
  intros Hi. unfold at_index.
  rewrite (nth_indep _ 0%R (f 0%R)) by (by rewrite length_map).
  apply map_nth.
Qed.

Lemma strictly_monotone_le (f : R → R) :
  (∀ x y, (x < y)%R → (f x < f y)%R) →
  ∀ x y, (x <= y)%R ↔ (f x <= f y)%R.
Proof.
  intros Hf x y. split; intros Hle.
  - destruct Hle as [Hlt| ->]; [left; by apply Hf | right; done].
  - destruct (Rle_lt_dec x y) as [|Hlt]; [done|].
    apply Hf in Hlt. lra.
Qed.

(** A strictly monotone rescaling leaves a comparison sort's result
    unchanged. *)
Lemma argsort_rescale argsort (f : R → R) (s : list R) :
  comparison_sort argsort →
  (∀ x y, (x < y)%R → (f x < f y)%R) →
  argsort (map f s) = argsort s.
Proof.
  intros Hcmp Hf. apply Hcmp; [apply length_map|].
  rewrite length_map. intros i j Hi Hj.
  rewrite !at_index_map by done. symmetry. by apply strictly_monotone_le.
Qed.

(** Without ties the sorted order is determined by the contract alone. *)
Lemma map_inj_on {X Y : Type} (f : X → Y) (l1 l2 : list X) :
  (∀ x y, In x l1 → In y l2 → f x = f y → x = y) →
  map f l1 = map f l2 → l1 = l2.
Proof.
  revert l2. induction l1 as [|x l1 IH]; intros [|y l2] Hinj Heq;
    simpl in *; try done.
  injection Heq as Hxy Heq. f_equal.
  - apply Hinj; auto.
  - apply IH; auto.
Qed.

Lemma at_index_inj (a : list R) i j :
  NoDup a → i < length a → j < length a →
  at_index a i = at_index a j → i = j.
Proof.
  intros Hnd Hi Hj Heq. apply NoDup_ListNoDup in Hnd.
  by apply (proj1 (List.NoDup_nth a 0%R) Hnd).
Qed.

Lemma sorted_order_unique (a : list R) (l1 l2 : list nat) :
  NoDup a →
  l1 ≡ₚ seq 0 (length a) → l2 ≡ₚ seq 0 (length a) →
  StronglySorted Rle (map (at_index a) l1) →
  StronglySorted Rle (map (at_index a) l2) →
  l1 = l2.
Proof.
  intros Hnd Hp1 Hp2 Hs1 Hs2.
  apply (map_inj_on (at_index a)).
  - intros x y Hx Hy. apply at_index_inj; [done| |].
    + apply (Permutation_in _ Hp1), in_seq in Hx. lia.
    + apply (Permutation_in _ Hp2), in_seq in Hy. lia.
  - apply (StronglySorted_unique_strong Rle); [|done|done|].
    + intros x y _ _. apply Rle_antisym.
    + apply Permutation_map. by rewrite Hp1, Hp2.
Qed.

Lemma StronglySorted_rescale_inv (f : R → R) (l : list R) :
  (∀ x y, (x < y)%R → (f x < f y)%R) →
  StronglySorted Rle (map f l) → StronglySorted Rle l.
Proof.
  intros Hf. induction l as [|x l IH]; simpl; intros Hs; [constructor|].
  inversion Hs as [|? ? Hs' Hall]; subst. constructor; [by apply IH|].
  rewrite List.Forall_forall in Hall. apply List.Forall_forall.
  intros y Hy. apply (strictly_monotone_le f Hf). apply Hall. by apply in_map.
Qed.

Lemma argsort_rescale_distinct argsort (f : R → R) (s : list R) :
  argsort_contract argsort →
  NoDup s →
  (∀ x y, (x < y)%R → (f x < f y)%R) →
  argsort (map f s) = argsort s.
Proof.
  intros Hsort Hnd Hf.
  apply (sorted_order_unique s); [done| | | |].
  - rewrite (argsort_perm _ Hsort). by rewrite length_map.
  - apply (argsort_perm _ Hsort).
  - pose proof (argsort_sorted _ Hsort (map f s)) as Hs.
    pose proof (argsort_perm _ Hsort (map f s)) as Hp.
    rewrite length_map in Hp.
    apply (StronglySorted_rescale_inv f); [done|].
    rewrite map_map.
    erewrite map_ext_in; [exact Hs|].
    intros i Hi. simpl. symmetry. apply at_index_map.
    apply (Permutation_in _ Hp), in_seq in Hi. lia.
  - apply (argsort_sorted _ Hsort).
Qed.

(** *** Durations *)

Lemma py_int_inject_Z (z : Z) : py_int (inject_Z z) = z.
Proof. unfold py_int; simpl. apply Z.quot_1_r. Qed.

Lemma py_divmod_spec (x y : Q) :
  (0 < y)%Q →
  let q := Qfloor (x / y) in
  py_divmod x y = (inject_Z q, (x - inject_Z q * y)%Q)
  ∧ (0 <= x - inject_Z q * y)%Q
  ∧ (x - inject_Z q * y < y)%Q.
Proof.
  intros Hy q. split; [reflexivity|].
  pose proof (Qfloor_le (x / y)) as Hlo.
  pose proof (Qlt_floor (x / y)) as Hhi.
  fold q in Hlo, Hhi.
  assert (x / y * y == x)%Q as Hx by (field; lra).
  rewrite inject_Z_plus in Hhi.
  apply (Qmult_le_r _ _ y Hy) in Hlo.
  apply (Qmult_lt_r _ _ y Hy) in Hhi.
  rewrite Hx in Hlo, Hhi.
  rewrite Qmult_plus_distr_l, Qmult_1_l in Hhi.
  generalize dependent (inject_Z q * y)%Q. intros a Hlo Hhi.
  split; lra.
Qed.

Lemma Qfloor_bounds (x : Q) (lo hi : Z) :
  (inject_Z lo <= x)%Q → (x < inject_Z hi)%Q →
  (lo <= Qfloor x < hi)%Z.
Proof.
  intros Hlo Hhi. split.
  - rewrite <- (Qfloor_Z lo). by apply Qfloor_resp_le.
  - rewrite Zlt_Qlt. eapply Qle_lt_trans; [apply Qfloor_le | done].
Qed.

Lemma format_time_unfold (seconds : Q) :
  let days := Qfloor (seconds / 86400) in
  let r1 := (seconds - inject_Z days * 86400)%Q in
  let hours := Qfloor (r1 / 3600) in
  let r2 := (r1 - inject_Z hours * 3600)%Q in
  let minutes := Qfloor (r2 / 60) in
  let s := (r2 - inject_Z minutes * 60)%Q in
  format_time seconds = render_time days hours minutes s.
Proof.
  cbv zeta. unfold format_time, py_divmod, render_time.
  by rewrite !py_int_inject_Z.
Qed.

Example format_time_whole_hour : format_time 3600 = "0d 1h 0m 0.00s".
Proof. vm_compute. reflexivity. Qed.

Example format_time_rounds_up : format_time (59999 # 1000) = "0d 0h 0m 60.00s".
Proof. vm_compute. reflexivity. Qed.

Example format_2f_half_even :
  format_2f (1 # 8) = "0.12" ∧ format_2f (3 # 8) = "0.38".
Proof. split; vm_compute; reflexivity. Qed.

(** *** Worked examples *)

Ltac decide_Rle :=
  match goal with
  | |- context [Rle_dec ?a ?b] =>
      destruct (Rle_dec a b); [try (exfalso; lra) | try (exfalso; lra)]
  end.

Ltac decide_Req :=
  match goal with
  | |- context [Req_dec_T ?a ?b] =>
      destruct (Req_dec_T a b); [try (exfalso; lra) | try (exfalso; lra)]
  end.

Ltac run_argsort :=
  unfold ranking, stable_argsort, sort_by; simpl;
  unfold key_le, at_index; simpl;
  repeat (decide_Rle; simpl).

Example ranking_example :
  ranking stable_argsort [0.1; 0.4; 0.3; 0.2; 0.5]%R = [4; 1; 2; 3; 0].
Proof. run_argsort. reflexivity. Qed.

(** Equal scores are ranked by decreasing position under the stable
    sort, as the reversal of a stable ascending order. *)
Example ranking_ties_example :
  ranking stable_argsort [0.4; 0.4; 0.9]%R = [2; 1; 0].
Proof. run_argsort. reflexivity. Qed.

Example hit_score_example :
  hit_score stable_argsort [0; 1; 0]%R [0.3; 0.9; 0.5]%R 1 = 1%Z
  ∧ hit_score stable_argsort [1; 0; 0]%R [0.3; 0.9; 0.5]%R 2 = 0%Z.
Proof.
  split; unfold hit_score, np_where_eq; simpl;
    repeat (decide_Req; simpl); run_argsort; reflexivity.
Qed.

Example mrr_score_example :
  mrr_score stable_argsort [0; 1; 0]%R [0.2; 0.9; 0.7]%R = Ok (Finite 1)
  ∧ mrr_score stable_argsort [0; 1; 0]%R [0.9; 0.2; 0.7]%R
    = Ok (Finite (1 / 3)).
Proof.
  split; rewrite (mrr_score_value _ _ _ stable_argsort_contract)
    by reflexivity;
    run_argsort; unfold sum_upto, mrr_term, np_sum, at_index; simpl;
    rewrite np_divide_nonzero by lra; do 2 f_equal; field.
Qed.

Lemma Rpower_2_nat (n : nat) : Rpower 2 (INR n) = (2 ^ n)%R.
Proof. apply Rpower_pow. lra. Qed.

Lemma Rpower_2_small :
  Rpower 2 0 = 1%R ∧ Rpower 2 1 = 2%R ∧ Rpower 2 2 = 4%R ∧ Rpower 2 3 = 8%R.
Proof.
  pose proof (Rpower_2_nat 0) as H0. pose proof (Rpower_2_nat 1) as H1.
  pose proof (Rpower_2_nat 2) as H2. pose proof (Rpower_2_nat 3) as H3.
  simpl in H0, H1, H2, H3.
  replace (1 + 1)%R with 2%R in H2, H3 by lra.
  replace (2 + 1)%R with 3%R in H3 by lra.
  rewrite H0, H1, H2, H3. lra.
Qed.

(** The example of the specification: relevance [3,2,0,0,1], scores
    [0.1,0.4,0.3,0.2,0.5], cutoff 5. *)
Example ndcg_score_example :
  ndcg_score stable_argsort [3; 2; 0; 0; 1]%R [0.1; 0.4; 0.3; 0.2; 0.5]%R 5
  = Ok (np_divide
          (1 / log2 2 + 3 / log2 3 + 0 / log2 4 + 0 / log2 5 + 7 / log2 6)
          (7 / log2 2 + 3 / log2 3 + 1 / log2 4 + 0 / log2 5 + 0 / log2 6)).
Proof.
  unfold ndcg_score.
  rewrite !(dcg_score_value _ stable_argsort_contract) by (reflexivity || lia).
  rewrite !result_bind_Ok.
  replace (ranking stable_argsort [0.1; 0.4; 0.3; 0.2; 0.5]%R)
    with [4; 1; 2; 3; 0] by (symmetry; apply ranking_example).
  replace (ranking stable_argsort [3; 2; 0; 0; 1]%R)
    with [0; 1; 4; 3; 2] by (symmetry; run_argsort; reflexivity).
  unfold sum_upto, dcg_term, np_sum, at_index. simpl.
  destruct Rpower_2_small as (-> & -> & -> & ->).
  replace (0 + 2)%R with 2%R by lra.
  replace (1 + 2)%R with 3%R by lra.
  replace (1 + 1 + 2)%R with 4%R by lra.
  replace (1 + 1 + 1 + 2)%R with 5%R by lra.
  replace (1 + 1 + 1 + 1 + 2)%R with 6%R by lra.
  do 2 f_equal; lra.
Qed.

(** A score vector longer than the ground truth makes [np.take] fail. *)
Example dcg_score_index_error :
  dcg_score stable_argsort [1]%R [0.1; 0.7]%R 1 = Raise IndexError.
Proof.
  unfold dcg_score. 
  replace (rev (stable_argsort [0.1; 0.7]%R)) with [1; 0]
    by (symmetry; apply (eq_trans (y := ranking stable_argsort [0.1; 0.7]%R));
        [reflexivity | run_argsort; reflexivity]).
  reflexivity.
Qed.

(** *** Ground truth of integer type *)

Lemma wrap64_small (z : Z) : (- 2 ^ 63 <= z < 2 ^ 63)%Z → wrap64 z = z.
Proof.
  intros Hz. unfold wrap64.
  change (2 ^ 64)%Z with (2 * 2 ^ 63)%Z. rewrite Z.mod_small by lia. lia.
Qed.

Lemma wrap64_add (x y : Z) : wrap64 (x + wrap64 y) = wrap64 (x + y).
Proof.
  unfold wrap64. f_equal.
  replace (x + ((y + 2 ^ 63) mod 2 ^ 64 - 2 ^ 63) + 2 ^ 63)%Z
    with (x + (y + 2 ^ 63) mod 2 ^ 64)%Z by lia.
  rewrite Zplus_mod_idemp_r. f_equal. lia.
Qed.

Lemma np_sum_int64_wrap (a : list Z) :
  np_sum_int64 a = wrap64 (foldr Z.add 0%Z a).
Proof.
  unfold np_sum_int64. induction a as [|x a IH]; simpl; [done|].
  by rewrite IH, wrap64_add.
Qed.

(** From 0 to 63 the gain [2 ** y - 1] is the integer [2^y - 1]: up to
    62 nothing leaves the range, and at 63 the power wraps to [-2^63]
    and the subtraction wraps back to [2^63 - 1]. *)
Lemma int64_gain (y : Z) :
  (0 <= y <= 63)%Z → wrap64 (wrap64 (2 ^ y) - 1) = (2 ^ y - 1)%Z.
Proof.
  intros Hy. destruct (decide (y = 63%Z)) as [->|Hne]; [by vm_compute|].
  assert (0 < 2 ^ y <= 2 ^ 62)%Z as Hp
    by (split; [apply Z.pow_pos_nonneg | apply Z.pow_le_mono_r]; lia).
  assert (2 ^ 63 = 2 * 2 ^ 62)%Z as H63 by done.
  rewrite (wrap64_small (2 ^ y)) by lia. apply wrap64_small. lia.
Qed.

(** From 64 on the power is a multiple of [2^64]: the gain is [-1]. *)
Lemma int64_gain_wraps (y : Z) :
  (64 <= y)%Z → wrap64 (wrap64 (2 ^ y) - 1) = (-1)%Z.
Proof.
  intros Hy. replace y with (64 + (y - 64))%Z by lia.
  rewrite Z.pow_add_r by lia. unfold wrap64 at 2.
  replace (2 ^ 64 * 2 ^ (y - 64) + 2 ^ 63)%Z
    with (2 ^ 63 + 2 ^ (y - 64) * 2 ^ 64)%Z by lia.
  rewrite Z_mod_plus_full. by vm_compute.
Qed.

Lemma IZR_pow2 (y : Z) : (0 <= y)%Z → IZR (2 ^ y) = Rpower 2 (IZR y).
Proof.
  intros Hy. rewrite <- (Z2Nat.id y) by done.
  rewrite <- pow_IZR, <- INR_IZR_INZ. symmetry. apply Rpower_pow. lra.
Qed.

Lemma IZR_int64_gain (y : Z) :
  (0 <= y <= 63)%Z →
  IZR (wrap64 (wrap64 (2 ^ y) - 1)) = (Rpower 2 (IZR y) - 1)%R.
Proof.
  intros Hy. rewrite int64_gain by done.
  rewrite minus_IZR, IZR_pow2 by lia. done.
Qed.

Lemma np_take_int64_in_range (a : list Z) idx :
  Forall (fun i => i < length a) idx →
  np_take_int64 a idx = Ok (map (fun i => nth i a 0%Z) idx).
Proof.
  unfold np_take_int64. induction 1 as [|i idx Hi _ IH]; simpl; [done|].
  destruct (a !! i) as [v|] eqn:Hv.
  - rewrite result_bind_Ok, IH, result_bind_Ok.
    by rewrite (nth_lookup_Some _ _ _ _ Hv).
  - apply lookup_ge_None in Hv. lia.
Qed.

Lemma at_index_IZR (a : list Z) (i : nat) :
  at_index (map IZR a) i = IZR (nth i a 0%Z).
Proof. unfold at_index. by rewrite <- (map_nth IZR). Qed.

Lemma np_power2_int64_nonneg (a : list Z) :
  Forall (fun y => (0 <= y)%Z) a →
  np_power2_int64 a = Ok (map (fun y => wrap64 (2 ^ y)) a).
Proof.
  intros Ha. unfold np_power2_int64.
  replace (forallb _ a) with true; [done|].
  symmetry. apply forallb_forall. intros y Hy.
  apply Z.leb_le. by apply (proj1 (List.Forall_forall _ _) Ha).
Qed.

Lemma np_power2_int64_negative (a : list Z) :
  Exists (fun y => (y < 0)%Z) a → np_power2_int64 a = Raise ValueError.
Proof.
  intros Ha. unfold np_power2_int64.
  destruct (forallb _ a) eqn:Hall; [|done].
  apply List.Exists_exists in Ha as (y & Hin & Hy).
  pose proof (proj1 (forallb_forall _ _) Hall y Hin) as Hle.
  apply Z.leb_le in Hle. lia.
Qed.

Lemma nth_in_range_Forall (P : Z → Prop) (a : list Z) (idx : list nat) :
  Forall P a → Forall (fun i => i < length a) idx →
  Forall P (map (fun i => nth i a 0%Z) idx).
Proof.
  intros Ha Hidx. apply List.Forall_forall. intros y Hy.
  apply in_map_iff in Hy as (i & <- & Hi).
  pose proof (proj1 (List.Forall_forall _ _) Hidx i Hi) as Hlt.
  apply (proj1 (List.Forall_forall _ _) Ha), nth_In. exact Hlt.
Qed.

Section IntegerRanking.
Variable argsort : list R → list nat.
Hypothesis Hsort : argsort_contract argsort.

Lemma kept_in_range {X : Type} (y_true : list X) y_score (k : Z) :
  length y_true = length y_score →
  Forall (fun i => i < length y_true)
    (py_slice_to k (rev (argsort y_score))).
Proof.
  intros Hlen. rewrite Hlen. unfold py_slice_to.
  destruct (_ <? 0)%Z; apply Forall_take, (ranking_in_range argsort Hsort).
Qed.

(** With labels from 0 to 63 the integer arithmetic is exact: the value
    is the one of the labels taken as numbers. *)
Lemma dcg_score_int64_exact (a : list Z) y_score (k : Z) :
  length a = length y_score →
  Forall (fun y => (0 <= y <= 63)%Z) a →
  dcg_score_int64 argsort a y_score k = dcg_score argsort (map IZR a) y_score k.
Proof.
  intros Hlen Ha. unfold dcg_score_int64, dcg_score. rewrite length_map.
  set (idx := py_slice_to _ _).
  assert (Forall (fun i => i < length a) idx) as Hidx
    by (by apply kept_in_range).
  rewrite np_take_int64_in_range, result_bind_Ok by done.
  rewrite np_take_in_range, result_bind_Ok by (by rewrite length_map).
  rewrite np_power2_int64_nonneg, result_bind_Ok.
  - rewrite !length_map. do 3 f_equal. rewrite !map_map.
    apply map_ext_in. intros i Hi. rewrite at_index_IZR.
    apply IZR_int64_gain.
    apply (proj1 (List.Forall_forall _ _) Ha), nth_In.
    by apply (proj1 (List.Forall_forall _ _) Hidx).
  - eapply Forall_impl; [by apply nth_in_range_Forall|].
    simpl. intros y Hy. lia.
Qed.

(** A negative label among the kept positions stops [dcg_score] with
    ValueError. *)
Lemma dcg_score_int64_negative (a : list Z) y_score (k : Z) :
  length a = length y_score →
  Exists (fun i => (nth i a 0 < 0)%Z)
    (py_slice_to (Z.min (Z.of_nat (length a)) k) (rev (argsort y_score))) →
  dcg_score_int64 argsort a y_score k = Raise ValueError.
Proof.
  intros Hlen Hneg. unfold dcg_score_int64.
  rewrite np_take_int64_in_range, result_bind_Ok by (by apply kept_in_range).
  rewrite np_power2_int64_negative; [done|].
  apply List.Exists_exists in Hneg as (i & Hi & Hlt).
  apply List.Exists_exists. exists (nth i a 0%Z). split; [|done].
  apply in_map_iff. by exists i.
Qed.

Lemma ndcg_score_int64_exact (a : list Z) y_score (k : Z) :
  length a = length y_score →
  Forall (fun y => (0 <= y <= 63)%Z) a →
  ndcg_score_array argsort (Int64Array a) y_score k
  = ndcg_score argsort (map IZR a) y_score k.
Proof.
  intros Hlen Ha. unfold ndcg_score_array, ndcg_score. simpl.
  rewrite !dcg_score_int64_exact by (done || by rewrite length_map).
  done.
Qed.

Lemma IZR_sum (a : list Z) : IZR (foldr Z.add 0%Z a) = np_sum (map IZR a).
Proof.
  unfold np_sum. induction a as [|x a IH]; simpl; [done|].
  by rewrite plus_IZR, IH.
Qed.

Lemma sum_gather_int64 (a : list Z) (order : list nat) :
  order ≡ₚ seq 0 (length a) →
  foldr Z.add 0%Z (map (fun i => nth i a 0%Z) order) = foldr Z.add 0%Z a.
Proof.
  intros Hperm. apply eq_IZR. rewrite !IZR_sum, map_map.
  rewrite <- (np_sum_gather (map IZR a) order) by (by rewrite length_map).
  f_equal. apply map_ext. intros i. by rewrite at_index_IZR.
Qed.

(** When the sum of the labels is within the range of int64,
    [mrr_score] is the one of the labels taken as numbers. *)
Lemma mrr_score_int64_exact (a : list Z) y_score :
  length a = length y_score →
  (- 2 ^ 63 <= foldr Z.add 0 a < 2 ^ 63)%Z →
  mrr_score_int64 argsort a y_score = mrr_score argsort (map IZR a) y_score.
Proof.
  intros Hlen Hsum. unfold mrr_score_int64, mrr_score.
  assert (Forall (fun i => i < length a) (rev (argsort y_score))) as Hidx
    by (rewrite Hlen; apply (ranking_in_range argsort Hsort)).
  rewrite np_take_int64_in_range, result_bind_Ok by done.
  rewrite np_take_in_range, result_bind_Ok by (by rewrite length_map).
  rewrite np_sum_int64_wrap, sum_gather_int64
    by (rewrite Hlen; apply (ranking_perm argsort Hsort)).
  rewrite wrap64_small by done.
  rewrite IZR_sum, !length_map.
  rewrite <- (np_sum_gather (map IZR a) (rev (argsort y_score)))
    by (rewrite length_map, Hlen; apply (ranking_perm argsort Hsort)).
  rewrite map_map.
  replace (map (fun i => IZR (nth i a 0%Z)) (rev (argsort y_score)))
    with (map (at_index (map IZR a)) (rev (argsort y_score))); [done|].
  apply map_ext. intros i. apply at_index_IZR.
Qed.
End IntegerRanking.

(** *** Printing with two decimals *)

Lemma string_app_assoc (a b c : string) : (a +:+ b) +:+ c = a +:+ b +:+ c.
Proof.
  induction a as [|x a IH]; [done|].
  change (String x ((a +:+ b) +:+ c) = String x (a +:+ b +:+ c)).
  by rewrite IH.
Qed.

Lemma round_half_even_near (x : Q) :
  (Qabs (x - inject_Z (round_half_even x)) <= 1 # 2)%Q.
Proof.
  pose proof (Qfloor_le x) as Hlo. pose proof (Qlt_floor x) as Hhi.
  rewrite inject_Z_plus in Hhi. change (inject_Z 1) with 1%Q in Hhi.
  apply Qabs_Qle_condition. unfold round_half_even.
  destruct (x - inject_Z (Qfloor x) ?= 1 # 2)%Q eqn:Hcmp.
  - apply Qeq_alt in Hcmp.
    destruct (Z.even (Qfloor x));
      [|rewrite inject_Z_plus; change (inject_Z 1) with 1%Q];
      generalize dependent (inject_Z (Qfloor x)); intros f Hlo Hhi Hcmp;
      split; lra.
  - apply Qlt_alt in Hcmp.
    generalize dependent (inject_Z (Qfloor x)). intros f Hlo Hhi Hcmp.
    split; lra.
  - apply Qgt_alt in Hcmp.
    rewrite inject_Z_plus. change (inject_Z 1) with 1%Q.
    generalize dependent (inject_Z (Qfloor x)). intros f Hlo Hhi Hcmp.
    split; lra.
Qed.

Lemma round_half_even_tie (x : Q) :
  (Qabs (x - inject_Z (round_half_even x)) == 1 # 2)%Q →
  Z.even (round_half_even x) = true.
Proof.
  pose proof (Qfloor_le x) as Hlo. pose proof (Qlt_floor x) as Hhi.
  rewrite inject_Z_plus in Hhi. change (inject_Z 1) with 1%Q in Hhi.
  unfold round_half_even.
  destruct (x - inject_Z (Qfloor x) ?= 1 # 2)%Q eqn:Hcmp.
  - intros _. destruct (Z.even (Qfloor x)) eqn:Heven; [done|].
    rewrite Z.add_1_r, Z.even_succ, <- Z.negb_even, Heven. done.
  - apply Qlt_alt in Hcmp. intros Htie. exfalso.
    rewrite Qabs_pos in Htie;
      generalize dependent (inject_Z (Qfloor x)); intros; lra.
  - apply Qgt_alt in Hcmp. intros Htie. exfalso.
    rewrite inject_Z_plus in Htie. change (inject_Z 1) with 1%Q in Htie.
    rewrite Qabs_neg in Htie;
      generalize dependent (inject_Z (Qfloor x)); intros; lra.
Qed.

(** The two decimals of a number of hundredths. *)
Lemma two_digits_chars (n : Z) :
  (0 <= n < 100)%Z →
  two_digits n
  = String (ascii_of_nat (48 + Z.to_nat (n / 10)))
      (String (ascii_of_nat (48 + Z.to_nat (n mod 10))) "").
Proof.
  intros Hn.
  assert (forallb
            (fun k : nat =>
               String.eqb (two_digits (Z.of_nat k))
                 (String (ascii_of_nat (48 + Z.to_nat (Z.of_nat k / 10)))
                    (String (ascii_of_nat (48 + Z.to_nat (Z.of_nat k mod 10)))
                       "")))
            (seq 0 100) = true) as Hall by (vm_compute; reflexivity).
  pose proof (proj1 (forallb_forall _ _) Hall (Z.to_nat n)) as Hk.
  cbv beta in Hk. rewrite Z2Nat.id in Hk by lia.
  apply String.eqb_eq, Hk, in_seq. lia.
Qed.

Lemma format_2f_nonneg (x : Q) :
  (0 <= x)%Q →
  ∃ hundredths : Z,
    (Qabs (x * 100 - inject_Z hundredths) <= 1 # 2)%Q
    ∧ ((Qabs (x * 100 - inject_Z hundredths) == 1 # 2)%Q
       → Z.even hundredths = true)
    ∧ format_2f x
      = pretty (hundredths / 100)%Z +:+ "."
          +:+ String (ascii_of_nat (48 + Z.to_nat (hundredths / 10 mod 10)))
                (String (ascii_of_nat (48 + Z.to_nat (hundredths mod 10))) "").
Proof.
  intros Hx. exists (round_half_even (Qabs x * 100)).
  assert (∀ h : Z,
            (Qabs (x * 100 - inject_Z h) == Qabs (Qabs x * 100 - inject_Z h))%Q)
    as Habs by (intros h; by rewrite (Qabs_pos x Hx)).
  split; [rewrite Habs; apply round_half_even_near|].
  split; [rewrite Habs; apply round_half_even_tie|].
  unfold format_2f.
  set (h := round_half_even (Qabs x * 100)).
  assert (match (x ?= 0)%Q with Lt => "-" | _ => "" end = "") as ->.
  { destruct (x ?= 0)%Q eqn:Hcmp; [done| |done].
    apply Qlt_alt in Hcmp. lra. }
  rewrite two_digits_chars by (apply Z.mod_pos_bound; lia).
  replace (h mod 100 / 10)%Z with (h / 10 mod 10)%Z
    by (Z.to_euclidean_division_equations; lia).
  replace (h mod 100 mod 10)%Z with (h mod 10)%Z
    by (Z.to_euclidean_division_equations; lia).
  reflexivity.
Qed.

(** *** Cutoffs *)

Lemma sum_upto_shift m f :
  sum_upto (S m) f = (f 0%nat + sum_upto m (fun i => f (S i)))%R.
Proof.
  unfold sum_upto. simpl. f_equal. by rewrite <- seq_shift, map_map.
Qed.

Lemma sum_upto_truncate n m f :
  m ≤ n → (∀ i, m ≤ i < n → f i = 0%R) → sum_upto n f = sum_upto m f.
Proof.
  induction n as [|n IH]; intros Hm Hf.
  - by replace m with 0%nat by lia.
  - destruct (decide (m = S n)) as [->|Hne]; [done|].
    rewrite sum_upto_S, IH, Hf by auto with lia. lra.
Qed.

Lemma dcg_term_take y order j i :
  i < j → dcg_term y (take j order) i = dcg_term y order i.
Proof.
  intros Hi. unfold dcg_term. rewrite nth_firstn.
  by destruct (Nat.ltb_spec i j); [|lia].
Qed.

(** [dcg_score] for any cutoff. *)
Lemma dcg_score_cut argsort y_true y_score (k : Z) :
  argsort_contract argsort →
  length y_true = length y_score →
  dcg_score argsort y_true y_score k
  = Ok (sum_upto (kept_ranks (length y_true) k)
          (dcg_term y_true (ranking argsort y_score))).
Proof.
  intros Hsort Hlen. rewrite dcg_score_kept by done. cbv zeta.
  pose proof (ranking_length argsort Hsort y_score) as Hrl.
  unfold py_slice_to, kept_ranks. f_equal.
  destruct (Z.ltb_spec k 0) as [Hneg|Hpos].
  - destruct (Z.ltb_spec (Z.of_nat (length y_true) `min` k) 0); [|lia].
    rewrite Z.min_r by lia. rewrite Hrl, <- Hlen, length_take, Hrl.
    rewrite Nat.min_l by lia.
    apply sum_upto_ext. intros i Hi. by apply dcg_term_take.
  - destruct (Z.ltb_spec (Z.of_nat (length y_true) `min` k) 0); [lia|].
    rewrite length_take, Hrl, <- Hlen, Z2Nat.inj_min, Nat2Z.id.
    replace ((length y_true `min` Z.to_nat k) `min` length y_true)
      with (Z.to_nat k `min` length y_true) by lia.
    apply sum_upto_ext. intros i Hi. apply dcg_term_take. lia.
Qed.

Lemma kept_ranks_le n k : kept_ranks n k ≤ n.
Proof. unfold kept_ranks. destruct (k <? 0)%Z eqn:E; lia. Qed.

(** *** Weighted sums and the rearrangement inequality *)

Lemma wsum_nth (l : list R) : ∀ w,
  wsum w l = sum_upto (length l) (fun i => (w i * nth i l 0)%R).
Proof.
  induction l as [|x l IH]; intros w; simpl; [done|].
  by rewrite sum_upto_shift, IH.
Qed.

Lemma wsum_ext (l : list R) : ∀ w1 w2,
  (∀ i, i < length l → w1 i = w2 i) → wsum w1 l = wsum w2 l.
Proof.
  induction l as [|x l IH]; intros w1 w2 Hw; simpl; [done|].
  rewrite (Hw 0%nat) by (simpl; lia). f_equal.
  apply IH. intros i Hi. apply Hw. simpl; lia.
Qed.

(** Moving the largest entry to the front does not lower the sum when
    the weights never increase. *)
Lemma wsum_move_front (x : R) (l1 l2 : list R) : ∀ w,
  (∀ i, (w (S i) <= w i)%R) →
  Forall (fun y => (y <= x)%R) l1 →
  (wsum w (l1 ++ x :: l2) <= wsum w (x :: l1 ++ l2))%R.
Proof.
  induction l1 as [|y l1 IH]; intros w Hw Hall; simpl; [lra|].
  inversion Hall as [|? ? Hy Hall']; subst.
  specialize (IH (fun i => w (S i)) (fun i => Hw (S i)) Hall').
  simpl in IH. pose proof (Hw 0%nat). nra.
Qed.

Lemma wsum_rearrangement (s : list R) : ∀ w l,
  (∀ i, (w (S i) <= w i)%R) →
  StronglySorted (fun a b => (b <= a)%R) s →
  l ≡ₚ s →
  (wsum w l <= wsum w s)%R.
Proof.
  induction s as [|x s IH]; intros w l Hw Hs Hperm.
  - symmetry in Hperm. apply Permutation_nil in Hperm. subst. simpl. lra.
  - inversion Hs as [|? ? Hs' Hall]; subst.
    assert (x ∈ l) as Hx by (rewrite Hperm; apply list_elem_of_here).
    apply list_elem_of_split in Hx. destruct Hx as (l1 & l2 & ->).
    symmetry in Hperm. apply Permutation_cons_app_inv in Hperm.
    assert (Forall (fun y => (y <= x)%R) l1) as Hl1.
    { apply List.Forall_forall. intros y Hy.
      rewrite List.Forall_forall in Hall. apply Hall.
      apply (Permutation_in _ (Permutation_sym Hperm)), in_or_app. by left. }
    etransitivity; [by apply wsum_move_front|].
    simpl. apply Rplus_le_compat_l.
    apply IH; [intros i; apply Hw | done | by symmetry].
Qed.

Lemma gain_monotone x y : (x <= y)%R → (gain x <= gain y)%R.
Proof.
  intros Hxy. unfold gain.
  pose proof (Rle_Rpower 2 x y ltac:(lra) Hxy). lra.
Qed.

Lemma gain_nonneg x : (0 <= x)%R → (0 <= gain x)%R.
Proof.
  intros Hx. unfold gain.
  pose proof (Rle_Rpower 2 0 x ltac:(lra) Hx) as H.
  rewrite Rpower_O in H by lra. lra.
Qed.

Lemma log2_monotone x y : (0 < x)%R → (x <= y)%R → (log2 x <= log2 y)%R.
Proof.
  intros Hx Hxy. unfold log2.
  assert (0 < ln 2)%R by (rewrite <- ln_1; apply ln_increasing; lra).
  apply Rmult_le_compat_r; [left; by apply Rinv_0_lt_compat|].
  destruct Hxy as [Hlt| ->]; [left; by apply ln_increasing | right; done].
Qed.

Lemma dcg_weight_nonneg m i : (0 <= dcg_weight m i)%R.
Proof.
  unfold dcg_weight. destruct (i <? m); [|lra].
  left. apply Rinv_0_lt_compat, log2_position_pos.
Qed.

Lemma dcg_weight_decreasing m i : (dcg_weight m (S i) <= dcg_weight m i)%R.
Proof.
  unfold dcg_weight.
  destruct (Nat.ltb_spec (S i) m), (Nat.ltb_spec i m); try lia; try lra.
  - apply Rinv_le_contravar; [apply log2_position_pos|].
    apply log2_monotone; [pose proof (pos_INR i); lra|].
    rewrite S_INR. lra.
  - left. apply Rinv_0_lt_compat, log2_position_pos.
Qed.

(** The value of [dcg_score] as a weighted sum of the gains along the
    ranking. *)
Lemma dcg_sum_as_wsum y order m :
  m ≤ length order →
  sum_upto m (dcg_term y order)
  = wsum (dcg_weight m) (map gain (map (at_index y) order)).
Proof.
  intros Hm. rewrite wsum_nth, !length_map.
  rewrite (sum_upto_truncate (length order) m); [|done|].
  - apply sum_upto_ext. intros i Hi. unfold dcg_term, dcg_weight.
    destruct (Nat.ltb_spec i m); [|lia].
    rewrite (nth_indep _ 0%R (gain (at_index y 0%nat)))
      by (rewrite !length_map; lia).
    rewrite map_map, (map_nth (fun j => gain (at_index y j))).
    unfold gain, Rdiv. lra.
  - intros i Hi. unfold dcg_weight.
    destruct (Nat.ltb_spec i m); [lia|lra].
Qed.

Lemma StronglySorted_rev_flip {X : Type} (Rel : relation X) (l : list X) :
  StronglySorted Rel l → StronglySorted (fun a b => Rel b a) (rev l).
Proof.
  induction 1 as [|x l Hs IH Hall]; simpl; [constructor|].
  apply StronglySorted_app_2; [|done|repeat constructor].
  intros a b Ha Hb. apply list_elem_of_singleton in Hb. subst b.
  rewrite List.Forall_forall in Hall. apply Hall.
  apply in_rev. by apply list_elem_of_In.
Qed.

(** Along the ranking of the ground truth itself the gains never
    increase. *)
Lemma ideal_gains_sorted argsort y :
  argsort_contract argsort →
  StronglySorted (fun a b => (b <= a)%R)
    (map gain (map (at_index y) (ranking argsort y))).
Proof.
  intros Hsort. unfold ranking. rewrite !map_rev.
  apply (StronglySorted_rev_flip Rle).
  apply (StronglySorted_fmap gain Rle Rle); [apply gain_monotone|].
  apply (argsort_sorted _ Hsort).
Qed.

(** No ranking of the candidates beats the ranking by the ground truth
    itself. *)
Lemma dcg_sum_le_ideal argsort y s m :
  argsort_contract argsort →
  length y = length s → m ≤ length y →
  (sum_upto m (dcg_term y (ranking argsort s))
   <= sum_upto m (dcg_term y (ranking argsort y)))%R.
Proof.
  intros Hsort Hlen Hm.
  rewrite !dcg_sum_as_wsum by (rewrite ranking_length by done; lia).
  apply wsum_rearrangement.
  - apply dcg_weight_decreasing.
  - by apply ideal_gains_sorted.
  - do 2 apply Permutation_map.
    rewrite !ranking_perm by done. by rewrite Hlen.
Qed.

Lemma sum_upto_nonneg m f :
  (∀ i, i < m → (0 <= f i)%R) → (0 <= sum_upto m f)%R.
Proof.
  induction m as [|m IH]; intros Hf.
  - unfold sum_upto; simpl. lra.
  - rewrite sum_upto_S.
    pose proof (Hf m (Nat.lt_succ_diag_r m)).
    assert (0 <= sum_upto m f)%R by (apply IH; auto with lia). lra.
Qed.

Lemma sum_upto_le m f g :
  (∀ i, i < m → (f i <= g i)%R) → (sum_upto m f <= sum_upto m g)%R.
Proof.
  induction m as [|m IH]; intros Hfg.
  - unfold sum_upto; simpl. lra.
  - rewrite !sum_upto_S.
    pose proof (Hfg m (Nat.lt_succ_diag_r m)).
    assert (sum_upto m f <= sum_upto m g)%R by (apply IH; auto with lia). lra.
Qed.

Lemma at_index_nonneg (a : list R) i :
  Forall (fun x => (0 <= x)%R) a → (0 <= at_index a i)%R.
Proof.
  intros Hall. unfold at_index.
  destruct (nth_in_or_default i a 0%R) as [Hin| ->]; [|lra].
  rewrite List.Forall_forall in Hall. by apply Hall.
Qed.

Lemma dcg_term_nonneg y order i :
  Forall (fun x => (0 <= x)%R) y → (0 <= dcg_term y order i)%R.
Proof.
  intros Hall. unfold dcg_term.
  apply Rle_mult_inv_pos; [|apply log2_position_pos].
  apply (gain_nonneg _ (at_index_nonneg y _ Hall)).
Qed.

(** *** Bounds on the metrics *)

Lemma Rdiv_le_bound (a b c : R) :
  (0 < b)%R → (a <= c * b)%R → (a / b <= c)%R.
Proof.
  intros Hb Hle. replace c with (c * b / b)%R by (field; lra).
  unfold Rdiv. apply Rmult_le_compat_r; [|done].
  left. by apply Rinv_0_lt_compat.
Qed.

Lemma sum_upto_pos_at m f j :
  (∀ i, i < m → (0 <= f i)%R) → j < m → (0 < f j)%R →
  (0 < sum_upto m f)%R.
Proof.
  induction m as [|m IH]; intros Hf Hj Hpos; [lia|].
  rewrite sum_upto_S.
  pose proof (Hf m (Nat.lt_succ_diag_r m)).
  assert (0 <= sum_upto m f)%R by (apply sum_upto_nonneg; auto with lia).
  destruct (decide (j = m)) as [->|Hne]; [lra|].
  assert (0 < sum_upto m f)%R by (apply IH; auto with lia). lra.
Qed.


Lemma np_sum_nth (l : list R) :
  np_sum l = sum_upto (length l) (fun i => nth i l 0%R).
Proof.
  induction l as [|x l IH]; [done|].
  simpl length. rewrite sum_upto_shift. simpl. by rewrite <- IH.
Qed.

Lemma np_sum_positions (y : list R) (order : list nat) :
  np_sum (map (at_index y) order)
  = sum_upto (length order) (fun i => at_index y (nth i order 0%nat)).
Proof.
  rewrite np_sum_nth, length_map. apply sum_upto_ext. intros i Hi.
  by apply gathered_nth.
Qed.

Lemma np_sum_nonneg (l : list R) :
  Forall (fun x => (0 <= x)%R) l → (0 <= np_sum l)%R.
Proof. unfold np_sum. induction 1; simpl; lra. Qed.

Lemma np_sum_pos (l : list R) :
  Forall (fun x => (0 <= x)%R) l → Exists (fun x => (0 < x)%R) l →
  (0 < np_sum l)%R.
Proof.
  unfold np_sum. induction 1 as [|x l Hx Hall IH]; intros Hex; simpl.
  - inversion Hex.
  - pose proof (np_sum_nonneg l Hall) as Hl. unfold np_sum in Hl.
    inversion Hex; subst; [lra|]. specialize (IH ltac:(done)). lra.
Qed.

(** Every position occurs at some rank. *)
Lemma ranking_rank_of argsort s p :
  argsort_contract argsort → p < length s →
  ∃ j, j < length s ∧ nth j (ranking argsort s) 0%nat = p.
Proof.
  intros Hsort Hp.
  assert (In p (ranking argsort s)) as Hin.
  { apply (Permutation_in _ (Permutation_sym (ranking_perm _ Hsort s))).
    apply in_seq. lia. }
  apply (In_nth _ _ 0%nat) in Hin. destruct Hin as (j & Hj & Hnth).
  rewrite ranking_length in Hj by done. eauto.
Qed.


Lemma ranking_nth_in_range argsort s j :
  argsort_contract argsort → j < length s →
  nth j (ranking argsort s) 0%nat < length s.
Proof.
  intros Hsort Hj.
  pose proof (ranking_in_range _ Hsort s) as Hr.
  rewrite List.Forall_forall in Hr. apply Hr, nth_In.
  by rewrite ranking_length.
Qed.

(** The first rank carries a largest value. *)
Lemma ranking_top_max argsort y p :
  argsort_contract argsort → p < length y →
  (at_index y p <= at_index y (nth 0 (ranking argsort y) 0%nat))%R.
Proof.
  intros Hsort Hp.
  destruct (ranking_rank_of _ y p Hsort Hp) as (j & Hj & <-).
  destruct j as [|j]; [lra|].
  apply (ranking_descending _ Hsort y). rewrite ranking_length by done. lia.
Qed.

Lemma Exists_at_index (P : R → Prop) (y : list R) :
  Exists P y → ∃ p, p < length y ∧ P (at_index y p).
Proof.
  intros Hex. apply List.Exists_exists in Hex. destruct Hex as (x & Hx & HP).
  apply (In_nth _ _ 0%R) in Hx. destruct Hx as (p & Hp & <-). eauto.
Qed.

Lemma gain_pos x : (0 < x)%R → (0 < gain x)%R.
Proof.
  intros Hx. unfold gain.
  pose proof (Rpower_lt 2 0 x ltac:(lra) Hx) as H.
  rewrite Rpower_O in H by lra. lra.
Qed.

(** With a positive label the ideal DCG is positive as soon as one rank
    is kept. *)
Lemma ideal_dcg_pos argsort y m :
  argsort_contract argsort →
  Forall (fun x => (0 <= x)%R) y → Exists (fun x => (0 < x)%R) y →
  0 < m →
  (0 < sum_upto m (dcg_term y (ranking argsort y)))%R.
Proof.
  intros Hsort Hall Hex Hm.
  apply (sum_upto_pos_at m _ 0%nat); [|done|].
  - intros i _. by apply dcg_term_nonneg.
  - destruct (Exists_at_index _ _ Hex) as (p & Hp & Hpos).
    pose proof (ranking_top_max _ y p Hsort Hp) as Htop.
    unfold dcg_term. apply Rdiv_lt_0_compat; [|apply log2_position_pos].
    apply gain_pos. lra.
Qed.

Lemma mrr_term_bounds y order i :
  Forall (fun x => (0 <= x)%R) y →
  (0 <= mrr_term y order i <= at_index y (nth i order 0%nat))%R.
Proof.
  intros Hall. unfold mrr_term.
  pose proof (at_index_nonneg y (nth i order 0%nat) Hall) as Hy.
  pose proof (pos_INR i) as Hi.
  split.
  - apply Rle_mult_inv_pos; lra.
  - apply Rdiv_le_bound; [lra|]. nra.
Qed.

(** *** Cutoffs and lengths *)

Lemma hit_loop_one idxs gt :
  hit_loop idxs gt = 1%Z ↔ ∃ idx, idx ∈ idxs ∧ idx ∈ gt.
Proof.
  destruct (hit_loop_cases idxs gt) as [(-> & Hex)|(-> & Hno)];
    split; try done.
Qed.

Lemma hit_loop_zero_or_one idxs gt :
  hit_loop idxs gt = 0%Z ∨ hit_loop idxs gt = 1%Z.
Proof.
  destruct (hit_loop_cases idxs gt) as [(-> & _)|(-> & _)]; auto.
Qed.

Lemma at_index_take (y : list R) n i :
  i < n → at_index (take n y) i = at_index y i.
Proof.
  intros Hi. unfold at_index. rewrite nth_firstn.
  by destruct (Nat.ltb_spec i n); [|lia].
Qed.

Lemma np_take_truncated (y : list R) n idx :
  n ≤ length y →
  Forall (fun i => i < n) idx →
  np_take (take n y) idx = np_take y idx.
Proof.
  intros Hn Hidx.
  rewrite !np_take_in_range.
  - f_equal. apply map_ext_in. intros i Hi.
    rewrite List.Forall_forall in Hidx. apply at_index_take. by apply Hidx.
  - eapply Forall_impl; [exact Hidx|]. simpl. lia.
  - rewrite length_take. eapply Forall_impl; [exact Hidx|]. simpl. lia.
Qed.

Lemma py_slice_to_Forall {X : Type} (P : X → Prop) (k : Z) (l : list X) :
  Forall P l → Forall P (py_slice_to k l).
Proof.
  intros Hl. unfold py_slice_to. destruct (k <? 0)%Z; by apply Forall_take.
Qed.

Lemma py_slice_to_saturate {X : Type} (k k' : Z) (l : list X) :
  (Z.of_nat (length l) <= k)%Z → (Z.of_nat (length l) <= k')%Z →
  py_slice_to k l = py_slice_to k' l.
Proof.
  intros Hk Hk'. rewrite !py_slice_to_nonneg by lia.
  by rewrite !take_ge by lia.
Qed.

Lemma elem_of_where_eq_take (y : list R) n idx :
  idx < n →
  idx ∈ np_where_eq (take n y) 1%R ↔ idx ∈ np_where_eq y 1%R.
Proof.
  intros Hidx. rewrite !elem_of_np_where_eq.
  by rewrite lookup_take_lt by done.
Qed.

(** *** More on [pad_and_stack] *)

Lemma promote_promote {A : Type} (a : ndarray A) :
  promote (promote a) = promote a.
Proof. by destruct a. Qed.

Lemma pad_and_stack_spec_promote {A : Type} (arrays : list (ndarray A)) v :
  pad_and_stack_spec (map promote arrays) v = pad_and_stack_spec arrays v.
Proof.
  unfold pad_and_stack_spec. rewrite max_width_promote, map_map.
  do 2 f_equal. apply map_ext. intros a. apply right_pad_promote.
Qed.

Lemma pad_and_stack_nil {A : Type} (v : A) :
  pad_and_stack [] v = ([], Raise ValueError).
Proof. reflexivity. Qed.

Lemma right_pad_rows {A : Type} (w : nat) (v : A) (a : ndarray A) :
  wf_array (promote a) → shape_last a ≤ w →
  Forall2 (padded_from w v) (snd (atleast_2d a)) (right_pad w v a).
Proof.
  intros Hwf Hw. unfold right_pad.
  destruct a as [d|c rows]; simpl in *.
  - repeat constructor.
    + rewrite length_app, length_replicate. lia.
    + by rewrite take_app_length.
    + by rewrite drop_app_length.
  - apply Forall2_fmap_r, Forall_Forall2_diag.
    eapply Forall_impl; [exact Hwf|]. intros r Hr. simpl in Hr.
    repeat split.
    + rewrite length_app, length_replicate. lia.
    + by rewrite take_app_length.
    + rewrite drop_app_length. by rewrite Hr.
Qed.

Lemma padded_rows {A : Type} (w : nat) (v : A) (arrays : list (ndarray A)) :
  Forall wf_array arrays →
  Forall (fun a => shape_last a ≤ w) arrays →
  Forall2 (padded_from w v) (input_rows arrays)
    (concat (map (right_pad w v) arrays)).
Proof.
  unfold input_rows.
  induction 1 as [|a arrays Ha _ IH]; intros Hw; simpl; [constructor|].
  inversion Hw; subst. apply Forall2_app; [|by apply IH].
  apply right_pad_rows; [|done]. by destruct a; [repeat constructor|].
Qed.

(** *** [non_increasing] *)

Lemma non_increasing_cons {A : Type} (ge : A → A → bool) x y (l : list A) :
  non_increasing ge (x :: y :: l) = ge x y && non_increasing ge (y :: l).
Proof. reflexivity. Qed.

(** [non_increasing] compares the neighbours. *)
Lemma non_increasing_adjacent {A : Type} (ge : A → A → bool) (l : list A) :
  non_increasing ge l = true
  ↔ ∀ i x y, l !! i = Some x → l !! S i = Some y → ge x y = true.
Proof.
  induction l as [|x [|y l] IH].
  - split; [intros _ i x y Hx; by rewrite lookup_nil in Hx | done].
  - split; [|done]. intros _ [|i] a b Ha Hb; simpl in *; [done|].
    by rewrite lookup_nil in Ha.
  - rewrite non_increasing_cons, andb_true_iff, IH. split.
    + intros (Hxy & Hrest) [|i] a b Ha Hb; simpl in *.
      * congruence.
      * by apply (Hrest i).
    + intros Hall. split; [by apply (Hall 0%nat)|].
      intros i a b Ha Hb. by apply (Hall (S i)).
Qed.

Lemma Rgeb_true x y : Rgeb x y = true ↔ (y <= x)%R.
Proof.
  unfold Rgeb. destruct (Rge_dec x y) as [H|H]; split; try done.
  - intros _. by apply Rge_le.
  - intros Hle. exfalso. apply H. by apply Rle_ge.
Qed.

(** *** [count_variables] *)

Lemma count_loop_acc (ps : list (string * parameter)) : ∀ acc,
  count_loop ps acc = acc + count_loop ps 0.
Proof.
  induction ps as [|[name p] ps IH]; intros acc; simpl; [lia|].
  destruct (requires_grad p); [|done].
  rewrite (IH (acc + numel p)), (IH (numel p)). lia.
Qed.

Lemma count_variables_cons name p (ps : list (string * parameter)) :
  count_variables ((name, p) :: ps)
  = (if requires_grad p then numel p else 0) + count_variables ps.
Proof.
  unfold count_variables. simpl.
  destruct (requires_grad p); [|done]. by rewrite count_loop_acc.
Qed.

(** *** Rounding in [format_time] *)

Lemma round_half_even_carry (x : Q) :
  (59995 # 10 <= x)%Q → (x < 6000)%Q → round_half_even x = 6000%Z.
Proof.
  intros Hlo Hhi. unfold round_half_even.
  assert (Qfloor x = 5999%Z) as ->.
  { assert (5999 <= Qfloor x < 6000)%Z; [|lia].
    apply Qfloor_bounds; [|done].
    change (inject_Z 5999) with 5999%Q. lra. }
  change (inject_Z 5999) with 5999%Q.
  destruct (x - 5999 ?= 1 # 2)%Q eqn:Hcmp; [reflexivity| |reflexivity].
  apply Qlt_alt in Hcmp. lra.
Qed.

(** *** [batch_to_gpu] *)

Lemma outcome_bind_Returns {A B : Type} (f : A → outcome B) (a : A) :
  (Returns a ≫= f) = f a.
Proof. reflexivity. Qed.

Lemma mapM_outcome_all {A B : Type} (f : A → outcome B) (g : A → B)
    (P : A → Prop) (l : list A) :
  (∀ x, P x → f x = Returns (g x)) →
  Forall P l → mapM f l = Returns (map g l).
Proof.
  intros Hf. induction 1 as [|x l Hx _ IH]; simpl; [done|].
  by rewrite (Hf x Hx), outcome_bind_Returns, IH.
Qed.

Lemma mapM_outcome_fail {A B : Type} (f : A → outcome B) (e : exception)
    (P : A → Prop) (l : list A) :
  (∀ x, P x → ∃ y, f x = Returns y) →
  (∀ x, ¬ P x → f x = Raises e) →
  (∀ x, P x ∨ ¬ P x) →
  ¬ Forall P l → mapM f l = Raises e.
Proof.
  intros Hok Hfail Hdec. induction l as [|x l IH]; intros Hnot; simpl.
  - destruct Hnot. constructor.
  - destruct (Hdec x) as [Hx|Hx].
    + destruct (Hok x Hx) as (y & ->). rewrite outcome_bind_Returns.
      rewrite IH; [done|]. intros Hall. apply Hnot. by constructor.
    + by rewrite (Hfail x Hx).
Qed.

Lemma mapM_outcome_cons {A B : Type} (f : A → outcome B) (a : A) (l : list A) :
  mapM f (a :: l) = (y ← f a; k ← mapM f l; Returns (y :: k)).
Proof. reflexivity. Qed.

Lemma mapM_outcome_first_fail {A B : Type} (f : A → outcome B)
    (before after : list A) (x : A) (ys : list B) (e : exception) :
  mapM f before = Returns ys → f x = Raises e →
  mapM f (before ++ x :: after) = Raises e.
Proof.
  revert ys. induction before as [|a before IH]; intros ys Hys Hx.
  - simpl. by rewrite Hx.
  - change (mapM f ((a :: before) ++ x :: after))
      with (y ← f a; k ← mapM f (before ++ x :: after); mret (y :: k)).
    change (mapM f (a :: before))
      with (y ← f a; k ← mapM f before; mret (y :: k)) in Hys.
    destruct (f a) as [y|e']; [|discriminate Hys].
    rewrite outcome_bind_Returns in *.
    destruct (mapM f before) as [ys'|e']; [|discriminate Hys].
    by rewrite (IH ys').
Qed.

Section BatchToGpuFacts.
Context {D X K O : Type}.
Implicit Types (v k p : value D X O) (device : D).

Lemma is_tensor_dec p : is_tensor p ∨ ¬ is_tensor p.
Proof. destruct p; simpl; auto. Qed.

Lemma Forall_is_tensor_dec (ps : list (value D X O)) :
  Forall is_tensor ps ∨ ¬ Forall is_tensor ps.
Proof.
  induction ps as [|p ps [IH|IH]].
  - left. constructor.
  - destruct (is_tensor_dec p) as [Hp|Hp]; [left; by constructor|].
    right. by inversion 1.
  - right. by inversion 1.
Qed.

Lemma movable_item_dec k : movable_item k ∨ ¬ movable_item k.
Proof. destruct k; simpl; auto using Forall_is_tensor_dec. Qed.

Lemma to_device_tensor device p :
  is_tensor p → to_device device p = Returns (moved_leaf device p).
Proof. by destruct p. Qed.

Lemma to_device_fails device p :
  ¬ is_tensor p → to_device device p = Raises AttributeError.
Proof. destruct p; simpl; [intros []|..]; done. Qed.

Lemma move_item_movable device k :
  movable_item k → move_item device k = Returns (moved_item device k).
Proof.
  destruct k as [t|ps|o]; simpl; [done| |done].
  intros Hps.
  by rewrite (mapM_outcome_all _ (moved_leaf device) is_tensor)
    by auto using to_device_tensor.
Qed.

Lemma move_item_fails device k :
  ¬ movable_item k → move_item device k = Raises AttributeError.
Proof.
  destruct k as [t|ps|o]; simpl; [intros []; done| |done].
  intros Hps.
  rewrite (mapM_outcome_fail _ AttributeError is_tensor); [done|..|done].
  - intros p Hp. rewrite to_device_tensor by done. eauto.
  - apply to_device_fails.
  - apply is_tensor_dec.
Qed.

Lemma move_value_movable device v :
  movable v → move_value device v = Returns (moved device v).
Proof.
  destruct v as [t|ks|o]; simpl; [done| |done].
  intros Hks.
  by rewrite (mapM_outcome_all _ (moved_item device) movable_item)
    by auto using move_item_movable.
Qed.

Lemma move_value_fails device v :
  ¬ movable v → move_value device v = Raises AttributeError.
Proof.
  destruct v as [t|ks|o]; simpl; [intros []; done| |intros []; done].
  intros Hks.
  rewrite (mapM_outcome_fail _ AttributeError movable_item); [done|..|done].
  - intros k Hk. rewrite move_item_movable by done. eauto.
  - apply move_item_fails.
  - apply movable_item_dec.
Qed.

Lemma batch_loop_movable device (todo : list (K * value D X O)) : ∀ acc,
  Forall (fun cv => movable cv.2) todo →
  batch_loop device acc todo
  = (acc ++ map (moved_entry device) todo, Returns ()).
Proof.
  induction todo as [|[c v] todo IH]; intros acc Hall; simpl.
  - by rewrite app_nil_r.
  - inversion Hall as [|? ? Hv Hall']; subst. simpl in Hv.
    rewrite move_value_movable by done.
    rewrite IH by done. by rewrite <- app_assoc.
Qed.

Lemma batch_loop_fails device (before after : list (K * value D X O)) c v :
  ∀ acc,
  Forall (fun cv => movable cv.2) before → ¬ movable v →
  batch_loop device acc (before ++ (c, v) :: after)
  = (acc ++ map (moved_entry device) before ++ (c, v) :: after,
     Raises AttributeError).
Proof.
  induction before as [|[c0 v0] before IH]; intros acc Hall Hv; simpl.
  - by rewrite move_value_fails.
  - inversion Hall as [|? ? Hv0 Hall']; subst. simpl in Hv0.
    rewrite move_value_movable by done.
    rewrite IH by done. by rewrite <- app_assoc.
Qed.

Lemma moved_leaf_idemp device p :
  moved_leaf device (moved_leaf device p) = moved_leaf device p.
Proof. by destruct p. Qed.

Lemma moved_item_idemp device k :
  moved_item device (moved_item device k) = moved_item device k.
Proof.
  destruct k as [t|ps|o]; simpl; [done| |done].
  rewrite map_map. f_equal. apply map_ext. intros p. apply moved_leaf_idemp.
Qed.

Lemma moved_idemp device v : moved device (moved device v) = moved device v.
Proof.
  destruct v as [t|ks|o]; simpl; [done| |done].
  rewrite map_map. f_equal. apply map_ext. intros k. apply moved_item_idemp.
Qed.

Lemma moved_leaf_is_tensor device p :
  is_tensor p → is_tensor (moved_leaf device p).
Proof. by destruct p. Qed.

Lemma moved_item_movable device k :
  movable_item k → movable_item (moved_item device k).
Proof.
  destruct k as [t|ps|o]; simpl; [done| |done].
  intros Hps. apply List.Forall_forall. intros p Hp.
  apply in_map_iff in Hp. destruct Hp as (q & <- & Hq).
  rewrite List.Forall_forall in Hps. by apply moved_leaf_is_tensor, Hps.
Qed.

Lemma moved_movable device v : movable v → movable (moved device v).
Proof.
  destruct v as [t|ks|o]; simpl; [done| |done].
  intros Hks. apply List.Forall_forall. intros k Hk.
  apply in_map_iff in Hk. destruct Hk as (q & <- & Hq).
  rewrite List.Forall_forall in Hks. by apply moved_item_movable, Hks.
Qed.

Lemma tensors_of_item_moved device k :
  tensors_of_item (moved_item device k)
  = map (fun t => tensor_to t device) (tensors_of_item k).
Proof.
  destruct k as [t|ps|o]; simpl; [done| |done].
  induction ps as [|p ps IH]; simpl; [done|].
  destruct p; simpl; by rewrite ?IH.
Qed.

Lemma tensors_of_moved device v :
  tensors_of (moved device v)
  = map (fun t => tensor_to t device) (tensors_of v).
Proof.
  destruct v as [t|ks|o]; simpl; [done| |done].
  induction ks as [|k ks IH]; simpl; [done|].
  by rewrite map_app, tensors_of_item_moved, IH.
Qed.
End BatchToGpuFacts.

(** *** [load_hyperparam] *)

Section LoadHyperparamFacts.
Context {V : Type}.
Implicit Types (args : gmap string V) (items : list (yaml_key * V)).



Lemma default_path_nonempty (str : V → string) args p :
  default_path str args = Returns p → p ≠ "".
Proof.
  unfold default_path, getattr.
  destruct (args !! "model"); [|discriminate].
  destruct (args !! "data"); [|discriminate].
  simpl. intros [= <-]. discriminate.
Qed.
End LoadHyperparamFacts.

(** *** [np.unique] and [np.sort] *)

Section SortUnique.
Context {A : Type}.
Variable ltb : A → A → bool.
Hypothesis ltb_irrefl : ∀ x, ltb x x = false.
Hypothesis ltb_trans : ∀ x y z, ltb x y = true → ltb y z = true → ltb x z = true.
Hypothesis ltb_total : ∀ x y, ltb x y = false → ltb y x = false → x = y.

Let lt (x y : A) : Prop := ltb x y = true.

Lemma ltb_asym x y : ltb x y = true → ltb y x = false.
Proof.
  intros Hxy. destruct (ltb y x) eqn:Hyx; [|done].
  by rewrite <- (ltb_irrefl x), (ltb_trans x y x).
Qed.

Lemma elem_of_insert_unique x (l : list A) y :
  y ∈ insert_unique ltb x l ↔ y = x ∨ y ∈ l.
Proof.
  induction l as [|z l IH]; simpl.
  - rewrite list_elem_of_singleton, elem_of_nil. tauto.
  - destruct (ltb x z) eqn:Hxz; [by rewrite elem_of_cons|].
    destruct (ltb z x) eqn:Hzx.
    + rewrite !elem_of_cons, IH. tauto.
    + rewrite (ltb_total x z Hxz Hzx), elem_of_cons. tauto.
Qed.

Lemma insert_unique_sorted x (l : list A) :
  StronglySorted lt l → StronglySorted lt (insert_unique ltb x l).
Proof.
  induction 1 as [|z l Hs IH Hall]; simpl; [repeat constructor|].
  destruct (ltb x z) eqn:Hxz.
  - constructor; [by constructor|]. constructor; [done|].
    eapply Forall_impl; [exact Hall|]. intros y Hzy. by apply (ltb_trans x z y).
  - destruct (ltb z x) eqn:Hzx; [|by constructor].
    constructor; [done|]. apply Forall_forall. intros y Hy.
    apply elem_of_insert_unique in Hy. destruct Hy as [->|Hy]; [done|].
    rewrite Forall_forall in Hall. by apply Hall.
Qed.

Lemma np_unique_sorted (l : list A) : StronglySorted lt (np_unique ltb l).
Proof.
  induction l as [|x l IH]; simpl; [constructor|].
  by apply insert_unique_sorted.
Qed.

Lemma elem_of_np_unique (l : list A) y : y ∈ np_unique ltb l ↔ y ∈ l.
Proof.
  induction l as [|x l IH]; simpl; [done|].
  rewrite elem_of_insert_unique, elem_of_cons, IH. tauto.
Qed.

Lemma np_sort_sorted (l : list A) : StronglySorted lt l → np_sort ltb l = l.
Proof.
  induction 1 as [|x l Hs IH Hall]; [done|].
  change (np_sort ltb (x :: l)) with (insert_sorted ltb x (np_sort ltb l)).
  rewrite IH. destruct l as [|y l]; simpl; [done|].
  inversion Hall as [|? ? Hxy _]; subst.
  by rewrite (ltb_asym x y Hxy).
Qed.

Lemma np_sort_unique (l : list A) :
  np_sort ltb (np_unique ltb l) = np_unique ltb l.
Proof. apply np_sort_sorted, np_unique_sorted. Qed.
End SortUnique.

Lemma string_ltb_irrefl (s : string) : String.ltb s s = false.
Proof.
  unfold String.ltb.
  pose proof (proj2 (OrderedTypeEx.String_as_OT.cmp_eq s s) eq_refl) as H.
  unfold OrderedTypeEx.String_as_OT.cmp in H. by rewrite H.
Qed.

Lemma string_ltb_trans (x y z : string) :
  String.ltb x y = true → String.ltb y z = true → String.ltb x z = true.
Proof.
  unfold String.ltb. intros Hxy Hyz.
  destruct (String.compare x y) eqn:Exy; try done.
  destruct (String.compare y z) eqn:Eyz; try done.
  apply (proj1 (OrderedTypeEx.String_as_OT.cmp_lt x y)) in Exy.
  apply (proj1 (OrderedTypeEx.String_as_OT.cmp_lt y z)) in Eyz.
  pose proof (OrderedTypeEx.String_as_OT.lt_trans _ _ _ Exy Eyz) as Hxz.
  apply OrderedTypeEx.String_as_OT.cmp_lt in Hxz.
  unfold OrderedTypeEx.String_as_OT.cmp in Hxz. by rewrite Hxz.
Qed.

Lemma string_ltb_total (x y : string) :
  String.ltb x y = false → String.ltb y x = false → x = y.
Proof.
  unfold String.ltb. rewrite (String.compare_antisym y x).
  destruct (String.compare x y) eqn:Exy; simpl; try done.
  intros _ _. by apply String.compare_eq_iff.
Qed.


Lemma Z_ltb_irrefl (x : Z) : (x <? x)%Z = false.
Proof. lia. Qed.

Lemma Z_ltb_trans (x y z : Z) :
  (x <? y)%Z = true → (y <? z)%Z = true → (x <? z)%Z = true.
Proof. lia. Qed.

Lemma Z_ltb_total (x y : Z) : (x <? y)%Z = false → (y <? x)%Z = false → x = y.
Proof. lia. Qed.

Lemma metrics_sort_unique (l : list string) :
  np_sort String.ltb (np_unique String.ltb l) = np_unique String.ltb l.
Proof.
  apply np_sort_unique;
    [apply string_ltb_irrefl | apply string_ltb_trans | apply string_ltb_total].
Qed.

Lemma topks_sort_unique (l : list Z) :
  np_sort Z.ltb (np_unique Z.ltb l) = np_unique Z.ltb l.
Proof.
  apply np_sort_unique;
    [apply Z_ltb_irrefl | apply Z_ltb_trans | apply Z_ltb_total].
Qed.

(** *** [format_metric] *)

Lemma dict_get_present (d : list (string * metric_value)) name :
  name ∈ map fst d → ∃ m, dict_get d name = Returns m.
Proof.
  induction d as [|[k m] d IH]; simpl; [by intros ?%elem_of_nil|].
  intros Hin. destruct (decide (k = name)); [eauto|].
  apply elem_of_cons in Hin. destruct Hin as [->|Hin]; [done|]. by apply IH.
Qed.

Lemma dict_get_missing (d : list (string * metric_value)) name :
  name ∉ map fst d → dict_get d name = Raises KeyError.
Proof.
  induction d as [|[k m] d IH]; simpl; [done|].
  intros Hin. apply not_elem_of_cons in Hin. destruct Hin as [Hne Hin].
  destruct (decide (k = name)); [congruence|]. by apply IH.
Qed.

Lemma metric_loop_present d (topk : Z) (metrics : list string) : ∀ acc,
  (∀ m, m ∈ metrics → metric_name m topk ∈ map fst d) →
  metric_loop d topk metrics acc
  = Returns (acc ++ concat (map (entry d topk) metrics)).
Proof.
  induction metrics as [|m metrics IH]; intros acc Hall; simpl.
  - by rewrite app_nil_r.
  - destruct (dict_get_present d (metric_name m topk)) as (v & Hv);
      [apply Hall, list_elem_of_here|].
    unfold entry at 1. rewrite Hv, outcome_bind_Returns.
    rewrite IH by (intros m' Hm'; by apply Hall, list_elem_of_further).
    by rewrite <- app_assoc.
Qed.

Lemma metric_loop_missing d (topk : Z) (metrics : list string) : ∀ acc,
  (∃ m, m ∈ metrics ∧ metric_name m topk ∉ map fst d) →
  metric_loop d topk metrics acc = Raises KeyError.
Proof.
  induction metrics as [|m metrics IH]; intros acc (m0 & Hin & Hmiss); simpl.
  - by apply elem_of_nil in Hin.
  - destruct (decide (metric_name m topk ∈ map fst d)) as [Hm|Hm].
    + destruct (dict_get_present d _ Hm) as (v & ->).
      rewrite outcome_bind_Returns. apply IH.
      apply elem_of_cons in Hin. destruct Hin as [->|Hin]; [done|eauto].
    + by rewrite dict_get_missing.
Qed.


Lemma topk_loop_missing d (topks : list Z) (metrics : list string) : ∀ acc,
  (∃ m t, m ∈ metrics ∧ t ∈ topks ∧ metric_name m t ∉ map fst d) →
  topk_loop d topks metrics acc = Raises KeyError.
Proof.
  induction topks as [|t topks IH]; intros acc (m0 & t0 & Hm & Ht & Hmiss);
    simpl.
  - by apply elem_of_nil in Ht.
  - destruct (decide (Forall (fun m => metric_name m t ∈ map fst d) metrics))
      as [Hall|Hnot].
    + rewrite Forall_forall in Hall.
      rewrite metric_loop_present, outcome_bind_Returns by done.
      apply IH. apply elem_of_cons in Ht. destruct Ht as [->|Ht].
      * destruct Hmiss. by apply Hall.
      * eauto.
    + rewrite metric_loop_missing; [done|].
      apply not_Forall_Exists in Hnot; [|apply _].
      apply Exists_exists in Hnot. destruct Hnot as (m & Hin & Hmissing).
      eauto.
Qed.

Section FormatMetricFacts.
Variable int_of_str : string → outcome Z.

Lemma keys_read (keys : list string) (mts : list (string * Z)) :
  Forall2 (reads_as int_of_str) keys mts →
  mapM (fun k => py_index (py_split "@" k) 0) keys = Returns (map fst mts)
  ∧ mapM (fun k => s ← py_index (py_split "@" k) 1; int_of_str s) keys
    = Returns (map snd mts).
Proof.
  induction 1 as [|k [m t] keys mts (s & rest & Hsplit & Hint) _ [IH0 IH1]];
    simpl in *; [done|].
  rewrite Hsplit, IH0, IH1. unfold py_index. simpl.
  by rewrite Hint.
Qed.

(** The first key that does not read as a metric at a cutoff decides
    the exception. *)
Lemma keys_read_fail (before after : list string) (k : string)
    (mts : list (string * Z)) (e : exception) :
  Forall2 (reads_as int_of_str) before mts →
  (s ← py_index (py_split "@" k) 1; int_of_str s) = Raises e →
  mapM (fun k => s ← py_index (py_split "@" k) 1; int_of_str s)
    (before ++ k :: after) = Raises e.
Proof.
  intros Hread Hk.
  apply (mapM_outcome_first_fail _ _ _ _ (map snd mts)); [|done].
  by apply keys_read.
Qed.

Lemma py_split_nonempty (sep : ascii) (s : string) : py_split sep s ≠ [].
Proof.
  induction s as [|c s IH]; simpl; [done|].
  destruct (Ascii.eqb c sep); [done|]. by destruct (py_split sep s).
Qed.

Lemma mapM_first_part (keys : list string) :
  ∃ firsts, mapM (fun k => py_index (py_split "@" k) 0) keys = Returns firsts.
Proof.
  induction keys as [|k keys (firsts & IH)]; [by eexists|].
  rewrite mapM_outcome_cons, IH.
  pose proof (py_split_nonempty "@" k) as Hne.
  destruct (py_split "@" k) as [|p ps]; [done|].
  unfold py_index. simpl. by eexists.
Qed.

(** Without the separator the string is the only part. *)
Lemma py_split_no_sep (sep : ascii) (s : string) :
  (∀ i, String.get i s ≠ Some sep) → py_split sep s = [s].
Proof.
  induction s as [|c s IH]; intros Hno; simpl; [done|].
  destruct (Ascii.eqb_spec c sep) as [->|Hne].
  - by destruct (Hno 0%nat).
  - rewrite IH; [done|]. intros i. apply (Hno (S i)).
Qed.
End FormatMetricFacts.

Example format_metric_example :
  format_metric decimal_int
    [("ndcg@10", FloatValue (FloatOf (1 # 2)));
     ("hit@5", IntValue 1);
     ("ndcg@5", FloatValue (FloatOf (1 # 32)));
     ("hit@10", FloatValue FloatNan)]
  = Returns "hit@5:1,ndcg@5:0.0312,hit@10:nan,ndcg@10:0.5000".
Proof. vm_compute. reflexivity. Qed.

(** *** The ideal ranking for [mrr_score], and hits against gains *)

Lemma mrr_weight_decreasing i : (mrr_weight (S i) <= mrr_weight i)%R.
Proof.
  unfold mrr_weight. pose proof (pos_INR i).
  apply Rinv_le_contravar; [lra|]. rewrite S_INR. lra.
Qed.

Lemma mrr_sum_as_wsum y order :
  sum_upto (length order) (mrr_term y order)
  = wsum mrr_weight (map (at_index y) order).
Proof.
  rewrite wsum_nth, length_map. apply sum_upto_ext. intros i Hi.
  unfold mrr_term, mrr_weight. rewrite gathered_nth by done.
  unfold Rdiv. lra.
Qed.

Lemma ideal_values_sorted argsort y :
  argsort_contract argsort →
  StronglySorted (fun a b => (b <= a)%R)
    (map (at_index y) (ranking argsort y)).
Proof.
  intros Hsort. unfold ranking. rewrite map_rev.
  apply (StronglySorted_rev_flip Rle), (argsort_sorted _ Hsort).
Qed.

Lemma mrr_sum_le_ideal argsort y s :
  argsort_contract argsort → length y = length s →
  (sum_upto (length y) (mrr_term y (ranking argsort s))
   <= sum_upto (length y) (mrr_term y (ranking argsort y)))%R.
Proof.
  intros Hsort Hlen.
  rewrite <- (ranking_length argsort Hsort y) at 2.
  rewrite Hlen at 1. rewrite <- (ranking_length argsort Hsort s).
  rewrite !mrr_sum_as_wsum.
  apply wsum_rearrangement.
  - apply mrr_weight_decreasing.
  - by apply ideal_values_sorted.
  - apply Permutation_map. rewrite !ranking_perm by done. by rewrite Hlen.
Qed.

Lemma sum_upto_zero m f : (∀ i, i < m → f i = 0%R) → sum_upto m f = 0%R.
Proof.
  induction m as [|m IH]; intros Hf; [done|].
  rewrite sum_upto_S, IH, Hf by auto with lia. lra.
Qed.

Lemma exists_or_all_below (P Q : nat → Prop) m :
  (∀ i, i < m → P i ∨ Q i) → (∃ i, i < m ∧ P i) ∨ (∀ i, i < m → Q i).
Proof.
  induction m as [|m IH]; intros Hpq; [right; intros; lia|].
  assert (∀ i, i < m → P i ∨ Q i) as Hpq' by auto with lia.
  assert (m < S m) as Hm by lia.
  destruct (IH Hpq') as [(i & Hi & Hp)|Hall].
  - left. exists i. split; [lia|done].
  - destruct (Hpq m Hm) as [Hlast|Hlast].
    + left. exists m. split; [lia|done].
    + right. intros i Hi. destruct (decide (i = m)) as [->|Hne]; [done|].
      apply Hall. lia.
Qed.

Lemma gain_0 : gain 0 = 0%R.
Proof. unfold gain. rewrite Rpower_O by lra. lra. Qed.

Lemma gain_1 : gain 1 = 1%R.
Proof. unfold gain. rewrite Rpower_1 by lra. lra. Qed.

Lemma hit_score_one argsort y_true y_score (k : Z) :
  (0 < k)%Z →
  hit_score argsort y_true y_score k = 1%Z
  ↔ ∃ idx, idx ∈ take (Z.to_nat k) (ranking argsort y_score)
           ∧ y_true !! idx = Some 1%R.
Proof.
  intros Hk. unfold hit_score. fold (ranking argsort y_score).
  rewrite py_slice_to_nonneg by lia. rewrite hit_loop_one.
  by setoid_rewrite elem_of_np_where_eq.
Qed.

(** *** Integer labels as numbers *)

Lemma IZR_labels_nonneg (a : list Z) :
  Forall (fun y => (0 <= y)%Z) a → Forall (fun x => (0 <= x)%R) (map IZR a).
Proof.
  intros Ha. apply List.Forall_forall. intros x Hx.
  apply in_map_iff in Hx as (y & <- & Hy).
  apply IZR_le, (proj1 (List.Forall_forall _ _) Ha y Hy).
Qed.

Lemma IZR_labels_pos (a : list Z) :
  Exists (fun y => (0 < y)%Z) a → Exists (fun x => (0 < x)%R) (map IZR a).
Proof.
  intros Ha. apply List.Exists_exists in Ha as (y & Hy & Hpos).
  apply List.Exists_exists. exists (IZR y).
  split; [by apply in_map | by apply IZR_lt].
Qed.

Lemma sum_labels_nonneg (a : list Z) :
  Forall (fun y => (0 <= y)%Z) a → (0 <= fold_right Z.add 0 a)%Z.
Proof. induction 1 as [|y a Hy _ IH]; simpl; lia. Qed.

(** *** The metrics in exact arithmetic *)

(** In exact arithmetic the DCG of a score vector never exceeds the DCG
    of the ground truth ranked by itself. *)
Lemma exact_dcg_le_ideal :
  ∀ argsort, argsort_contract argsort →
  ∀ (y_true y_score : list R) (k : Z),
    length y_true = length y_score →
    ∃ actual best : R,
      dcg_score argsort y_true y_score k = Ok actual
      ∧ dcg_score argsort y_true y_true k = Ok best
      ∧ (actual <= best)%R.
Proof.
  intros argsort Hsort y_true y_score k Hlen.
  eexists _, _. split; [by apply dcg_score_cut|].
  split; [by apply dcg_score_cut|].
  apply dcg_sum_le_ideal; [done|done|apply kept_ranks_le].
Qed.

(** In exact arithmetic, with non-negative relevance values of which
    one is positive, the NDCG at a positive cutoff lies between 0 and
    1. *)
Lemma exact_ndcg_unit_interval :
  ∀ argsort, argsort_contract argsort →
  ∀ (y_true y_score : list R) (k : Z),
    length y_true = length y_score → (0 < k)%Z →
    Forall (fun x => (0 <= x)%R) y_true →
    Exists (fun x => (0 < x)%R) y_true →
    ∃ v : R,
      ndcg_score argsort y_true y_score k = Ok (Finite v)
      ∧ (0 <= v <= 1)%R.
Proof.
  intros argsort Hsort y_true y_score k Hlen Hk Hall Hex.
  unfold ndcg_score.
  rewrite !(dcg_score_cut argsort _ _ k Hsort) by done.
  rewrite !result_bind_Ok.
  set (m := kept_ranks (length y_true) k).
  assert (0 < m) as Hm.
  { unfold m, kept_ranks. destruct (Z.ltb_spec k 0); [lia|].
    destruct (Exists_at_index _ _ Hex) as (p & Hp & _). lia. }
  pose proof (ideal_dcg_pos argsort y_true m Hsort Hall Hex Hm) as Hbest.
  pose proof (dcg_sum_le_ideal argsort y_true y_score m Hsort Hlen
                (kept_ranks_le _ _)) as Hle.
  assert (0 <= sum_upto m (dcg_term y_true (ranking argsort y_score)))%R
    as Hact by (apply sum_upto_nonneg; intros i _; by apply dcg_term_nonneg).
  rewrite np_divide_nonzero by lra.
  eexists. split; [reflexivity|]. split.
  - apply Rle_mult_inv_pos; lra.
  - apply Rdiv_le_bound; lra.
Qed.

(** In exact arithmetic, with non-negative relevance values of which
    one is positive, the MRR is greater than 0 and at most 1. *)
Lemma exact_mrr_unit_interval :
  ∀ argsort, argsort_contract argsort →
  ∀ (y_true y_score : list R),
    length y_true = length y_score →
    Forall (fun x => (0 <= x)%R) y_true →
    Exists (fun x => (0 < x)%R) y_true →
    ∃ v : R,
      mrr_score argsort y_true y_score = Ok (Finite v)
      ∧ (0 < v <= 1)%R.
Proof.
  intros argsort Hsort y_true y_score Hlen Hall Hex.
  rewrite mrr_score_value by done.
  pose proof (np_sum_pos y_true Hall Hex) as Htotal.
  rewrite np_divide_nonzero by lra.
  eexists. split; [reflexivity|].
  set (order := ranking argsort y_score).
  assert (length order = length y_true) as Hol
    by (unfold order; rewrite ranking_length by done; lia).
  assert (sum_upto (length y_true) (mrr_term y_true order) <= np_sum y_true)%R
    as Hle.
  { rewrite <- (np_sum_gather y_true order)
      by (unfold order; rewrite Hlen; by apply ranking_perm).
    rewrite np_sum_positions, Hol. apply sum_upto_le.
    intros i _. by apply mrr_term_bounds. }
  assert (0 < sum_upto (length y_true) (mrr_term y_true order))%R as Hpos.
  { destruct (Exists_at_index _ _ Hex) as (p & Hp & Hpp).
    destruct (ranking_rank_of argsort y_score p Hsort ltac:(lia))
      as (j & Hj & Hjp).
    apply (sum_upto_pos_at _ _ j); [|lia|].
    - intros i _. by apply mrr_term_bounds.
    - unfold mrr_term, order. rewrite Hjp.
      apply Rdiv_lt_0_compat; [done|]. pose proof (pos_INR j). lra. }
  split.
  - by apply Rdiv_lt_0_compat.
  - apply Rdiv_le_bound; lra.
Qed.

(** In exact arithmetic, with non-negative relevance values, the DCG
    is non-negative and grows with the cutoff. *)
Lemma exact_dcg_monotone_cutoff :
  ∀ argsort, argsort_contract argsort →
  ∀ (y_true y_score : list R) (k k' : Z),
    length y_true = length y_score →
    Forall (fun x => (0 <= x)%R) y_true →
    (0 <= k <= k')%Z →
    ∃ d d' : R,
      dcg_score argsort y_true y_score k = Ok d
      ∧ dcg_score argsort y_true y_score k' = Ok d'
      ∧ (0 <= d <= d')%R.
Proof.
  intros argsort Hsort y_true y_score k k' Hlen Hall Hk.
  rewrite !(dcg_score_cut argsort y_true y_score _ Hsort Hlen).
  eexists _, _. split; [reflexivity|]. split; [reflexivity|].
  set (f := dcg_term y_true (ranking argsort y_score)).
  assert (∀ i, (0 <= f i)%R) as Hf by (intros i; by apply dcg_term_nonneg).
  split; [apply sum_upto_nonneg; auto|].
  assert (kept_ranks (length y_true) k ≤ kept_ranks (length y_true) k') as Hle.
  { unfold kept_ranks.
    destruct (Z.ltb_spec k 0), (Z.ltb_spec k' 0); lia. }
  revert Hle. generalize (kept_ranks (length y_true) k) as m.
  generalize (kept_ranks (length y_true) k') as m'.
  induction m' as [|m' IH]; intros m Hle.
  - replace m with 0%nat by lia. lra.
  - destruct (decide (m = S m')) as [->|Hne]; [lra|].
    rewrite (sum_upto_S m'). specialize (IH m ltac:(lia)).
    specialize (Hf m'). lra.
Qed.

(** In exact arithmetic, with a positive sum of the ground truth, the
    MRR of a score vector never exceeds the MRR of the ground truth
    ranked by itself. *)
Lemma exact_mrr_le_ideal :
  ∀ argsort, argsort_contract argsort →
  ∀ (y_true y_score : list R),
    length y_true = length y_score →
    (0 < np_sum y_true)%R →
    ∃ actual best : R,
      mrr_score argsort y_true y_score = Ok (Finite actual)
      ∧ mrr_score argsort y_true y_true = Ok (Finite best)
      ∧ (actual <= best)%R.
Proof.
  intros argsort Hsort y_true y_score Hlen Htotal.
  rewrite !mrr_score_value by done.
  rewrite !np_divide_nonzero by lra.
  eexists _, _. split; [reflexivity|]. split; [reflexivity|].
  unfold Rdiv. apply Rmult_le_compat_r.
  - left. by apply Rinv_0_lt_compat.
  - by apply mrr_sum_le_ideal.
Qed.

(** ** Part III: the claims *)

(** C1, as stated, fails on an int64 ground truth.  With the label 64,
    the score 0.5 and the cutoff 1, the ranking is the one position 0
    and the claimed value is [(2^64 - 1) / log2(2)], which is positive;
    [2 ** 64] wraps to 0 and [dcg_score] returns [-1].  With the label
    [-1] the power is refused and [dcg_score] raises ValueError. *)
Lemma dcg_score_formula_wraps :
  length [64%Z] = length [0.5%R]
  ∧ (0 < 1)%Z
  ∧ rev (stable_argsort [0.5%R]) = [0%nat]
  ∧ dcg_score_array stable_argsort (Int64Array [64%Z]) [0.5%R] 1 = Ok (-1)%R
  ∧ dcg_score_array stable_argsort (Int64Array [64%Z]) [0.5%R] 1
    ≠ Ok (fold_right Rplus 0%R
            (map (fun i =>
                    ((Rpower 2 (IZR (nth (nth i [0%nat] 0%nat) [64%Z] 0%Z)) - 1)
                     / (ln (INR i + 2) / ln 2))%R)
               (seq 0 (Z.to_nat 1 `min` length [64%Z]))))
  ∧ dcg_score_array stable_argsort (Int64Array [(-1)%Z]) [0.5%R] 1
    = Raise ValueError.
Proof.
  assert (dcg_score_array stable_argsort (Int64Array [64%Z]) [0.5%R] 1
          = Ok (-1)%R) as Hrun.
  { unfold dcg_score_array, dcg_score_int64. simpl.
    replace (wrap64 (wrap64 (2 ^ 64) - 1)) with (-1)%Z by (by vm_compute).
    unfold log2. f_equal.
    replace (0 + 2)%R with 2%R by lra.
    assert (ln 2 ≠ 0)%R by (pose proof ln_lt_2; lra).
    by field. }
  split; [reflexivity|]. split; [lia|]. split; [reflexivity|].
  split; [exact Hrun|]. split; [|reflexivity].
  rewrite Hrun. simpl. replace (0 + 2)%R with 2%R by lra.
  assert (0 < ln 2)%R by (pose proof ln_lt_2; lra).
  assert (1 < Rpower 2 64)%R as Hp.
  { rewrite <- (Rpower_O 2) at 1 by lra. apply Rpower_lt; lra. }
  replace (ln 2 / ln 2)%R with 1%R by (field; lra).
  intros Heq.
  assert ((-1)%R = ((Rpower 2 64 - 1) / 1 + 0)%R) as Hneg by congruence.
  lra.
Qed.

(** C1: for a score vector and a positive cutoff [k], [dcg_score] ranks
    the positions by descending score (the ranking is a permutation of
    the positions along which the scores never increase), keeps the
    first [min(k, length)] of them, and returns the sum over the kept
    ranks [i], counted from zero, of [(2^relevance - 1) / log2(i + 2)],
    the relevance being the ground truth at the position of rank [i]:
    on every int64 ground truth of the same length with labels from 0 to
    63, and, in exact arithmetic, on every float64 ground truth of the
    same length with non-negative labels whose powers of two add up to
    less than [2^1023], so that nothing exceeds the range of float64. *)
Theorem dcg_score_formula :
  ∀ argsort, argsort_contract argsort →
  ∀ (y_score : list R) (k : Z),
    (0 < k)%Z →
    let order := rev (argsort y_score) in
    let dcg := fun (relevance : nat → R) (kept : nat) =>
      fold_right Rplus 0%R
        (map (fun i =>
                ((Rpower 2 (relevance (nth i order 0%nat)) - 1)
                 / (ln (INR i + 2) / ln 2))%R)
           (seq 0 kept)) in
    order ≡ₚ seq 0 (length y_score)
    ∧ (∀ i j, i < j < length order →
         (nth (nth j order 0%nat) y_score 0
          <= nth (nth i order 0%nat) y_score 0)%R)
    ∧ (∀ y_true : list Z,
         length y_true = length y_score →
         Forall (fun y => (0 <= y <= 63)%Z) y_true →
         dcg_score_array argsort (Int64Array y_true) y_score k
         = Ok (dcg (fun p => IZR (nth p y_true 0%Z))
                 (Z.to_nat k `min` length y_true)))
    ∧ (∀ y_true : list R,
         length y_true = length y_score →
         Forall (fun y => (0 <= y)%R) y_true →
         (fold_right Rplus 0 (map (Rpower 2) y_true) < 2 ^ 1023)%R →
         dcg_score_array argsort (Float64Array y_true) y_score k
         = Ok (dcg (fun p => nth p y_true 0%R)
                 (Z.to_nat k `min` length y_true))).
Proof.
  intros argsort Hsort y_score k Hk order dcg.
  split; [exact (ranking_perm argsort Hsort y_score)|].
  split; [exact (ranking_descending argsort Hsort y_score)|].
  split.
  - intros y_true Hlen Hrange. simpl.
    rewrite dcg_score_int64_exact by done.
    rewrite (dcg_score_value argsort Hsort) by (by rewrite ?length_map).
    rewrite length_map. f_equal. unfold sum_upto, np_sum, dcg. f_equal.
    apply map_ext. intros i. unfold dcg_term, log2.
    by rewrite at_index_IZR.
  - intros y_true Hlen _ _. simpl.
    by rewrite (dcg_score_value argsort Hsort).
Qed.

Lemma dcg_score_formula_witness :
  argsort_contract stable_argsort
  ∧ (0 < 5)%Z
  ∧ length [3; 2; 0; 0; 1]%Z = length [0.1; 0.4; 0.3; 0.2; 0.5]%R
  ∧ Forall (fun y => (0 <= y <= 63)%Z) [3; 2; 0; 0; 1]%Z
  ∧ length [3; 2; 0; 0; 1]%R = length [0.1; 0.4; 0.3; 0.2; 0.5]%R
  ∧ Forall (fun y => (0 <= y)%R) [3; 2; 0; 0; 1]%R
  ∧ (fold_right Rplus 0 (map (Rpower 2) [3; 2; 0; 0; 1]) < 2 ^ 1023)%R
  ∧ dcg_score_array stable_argsort (Int64Array [3; 2; 0; 0; 1]%Z)
      [0.1; 0.4; 0.3; 0.2; 0.5]%R 5
    = Ok (fold_right Rplus 0%R
            (map (fun i =>
                    ((Rpower 2
                        (IZR (nth (nth i (rev (stable_argsort
                                                 [0.1; 0.4; 0.3; 0.2; 0.5]%R))
                                     0%nat)
                                [3; 2; 0; 0; 1]%Z 0%Z)) - 1)
                     / (ln (INR i + 2) / ln 2))%R)
               (seq 0 (Z.to_nat 5 `min` length [3; 2; 0; 0; 1]%Z))))
  ∧ dcg_score_array stable_argsort (Float64Array [3; 2; 0; 0; 1]%R)
      [0.1; 0.4; 0.3; 0.2; 0.5]%R 5
    = Ok (fold_right Rplus 0%R
            (map (fun i =>
                    ((Rpower 2
                        (nth (nth i (rev (stable_argsort
                                            [0.1; 0.4; 0.3; 0.2; 0.5]%R))
                                0%nat)
                           [3; 2; 0; 0; 1]%R 0%R) - 1)
                     / (ln (INR i + 2) / ln 2))%R)
               (seq 0 (Z.to_nat 5 `min` length [3; 2; 0; 0; 1]%R)))).
Proof.
  assert (Forall (fun y => (0 <= y <= 63)%Z) [3; 2; 0; 0; 1]%Z) as Hrange
    by (repeat constructor; lia).
  assert (Forall (fun y => (0 <= y)%R) [3; 2; 0; 0; 1]%R) as Hnonneg
    by (repeat constructor; lra).
  assert (fold_right Rplus 0 (map (Rpower 2) [3; 2; 0; 0; 1]) < 2 ^ 1023)%R
    as Hsmall.
  { apply (Rle_lt_trans _ (2 ^ 4)%R); [|apply Rlt_pow; [lra | lia]].
    destruct Rpower_2_small as (H0 & H1 & H2 & H3).
    cbn [fold_right map pow]. rewrite H0, H1, H2, H3. lra. }
  destruct (dcg_score_formula stable_argsort stable_argsort_contract
              [0.1; 0.4; 0.3; 0.2; 0.5]%R 5 eq_refl)
    as (_ & _ & Hint & Hfloat).
  split; [exact stable_argsort_contract|]. split; [lia|].
  split; [reflexivity|]. split; [exact Hrange|].
  split; [reflexivity|]. split; [exact Hnonneg|]. split; [exact Hsmall|].
  split.
  - exact (Hint [3; 2; 0; 0; 1]%Z eq_refl Hrange).
  - exact (Hfloat [3; 2; 0; 0; 1]%R eq_refl Hnonneg Hsmall).
Defined.

(** C2: for vectors of the same length and a positive cutoff,
    [ndcg_score] returns the quotient of [dcg_score] on the scores by
    [dcg_score] on the ground truth taken as its own score vector; both
    calls return, and the quotient is the real quotient when the divisor
    is not zero. *)
Theorem ndcg_score_ratio :
  ∀ argsort, argsort_contract argsort →
  ∀ (y_true y_score : list R) (k : Z),
    length y_true = length y_score → (0 < k)%Z →
    ∃ actual best : R,
      dcg_score argsort y_true y_score k = Ok actual
      ∧ dcg_score argsort y_true y_true k = Ok best
      ∧ ndcg_score argsort y_true y_score k = Ok (np_divide actual best)
      ∧ (best ≠ 0%R →
         ndcg_score argsort y_true y_score k = Ok (Finite (actual / best))).
Proof.
  intros argsort Hsort y_true y_score k Hlen Hk.
  pose proof (dcg_score_value argsort Hsort y_true y_score k Hlen Hk) as Ha.
  pose proof (dcg_score_value argsort Hsort y_true y_true k eq_refl Hk) as Hb.
  eexists _, _. split; [exact Ha|]. split; [exact Hb|].
  assert (∀ a b, dcg_score argsort y_true y_score k = Ok a →
                 dcg_score argsort y_true y_true k = Ok b →
                 ndcg_score argsort y_true y_score k = Ok (np_divide a b))
    as Hn.
  { intros a b Ha' Hb'. unfold ndcg_score. by rewrite Hb', Ha'. }
  split; [by apply Hn|].
  intros Hbest. rewrite (Hn _ _ Ha Hb). f_equal. by apply np_divide_nonzero.
Qed.

Lemma ndcg_score_ratio_witness :
  argsort_contract stable_argsort
  ∧ length [3; 2; 0; 0; 1]%R = length [0.1; 0.4; 0.3; 0.2; 0.5]%R
  ∧ (0 < 5)%Z
  ∧ ∃ actual best : R,
      dcg_score stable_argsort [3; 2; 0; 0; 1]%R
        [0.1; 0.4; 0.3; 0.2; 0.5]%R 5 = Ok actual
      ∧ dcg_score stable_argsort [3; 2; 0; 0; 1]%R [3; 2; 0; 0; 1]%R 5
        = Ok best
      ∧ ndcg_score stable_argsort [3; 2; 0; 0; 1]%R
          [0.1; 0.4; 0.3; 0.2; 0.5]%R 5 = Ok (np_divide actual best)
      ∧ (best ≠ 0%R →
         ndcg_score stable_argsort [3; 2; 0; 0; 1]%R
           [0.1; 0.4; 0.3; 0.2; 0.5]%R 5 = Ok (Finite (actual / best))).
Proof.
  split; [exact stable_argsort_contract|].
  split; [reflexivity|]. split; [lia|].
  apply (ndcg_score_ratio stable_argsort stable_argsort_contract
           [3; 2; 0; 0; 1]%R [0.1; 0.4; 0.3; 0.2; 0.5]%R 5);
    [reflexivity | lia].
Defined.



(** C4: for a positive cutoff [k], [hit_score] returns 1 exactly when
    one of the first [k] positions of the ranking by descending score
    carries the ground-truth label 1, and returns 0 otherwise; on a
    ground-truth vector of zeros it returns 0 whatever the scores. *)
Theorem hit_score_iff :
  ∀ argsort, argsort_contract argsort →
  ∀ (y_true y_score : list R) (k : Z),
    (0 < k)%Z →
    let order := ranking argsort y_score in
    let top := take (Z.to_nat k) order in
    order ≡ₚ seq 0 (length y_score)
    ∧ descending y_score order
    ∧ (hit_score argsort y_true y_score k = 1%Z
       ↔ ∃ idx, idx ∈ top ∧ y_true !! idx = Some 1%R)
    ∧ (¬ (∃ idx, idx ∈ top ∧ y_true !! idx = Some 1%R)
       → hit_score argsort y_true y_score k = 0%Z)
    ∧ (Forall (fun x => x = 0%R) y_true
       → hit_score argsort y_true y_score k = 0%Z).
Proof.
  intros argsort Hsort y_true y_score k Hk order top.
  split; [by apply ranking_perm|]. split; [by apply ranking_descending|].
  assert (hit_score argsort y_true y_score k
          = hit_loop top (np_where_eq y_true 1%R)) as ->.
  { unfold hit_score. fold (ranking argsort y_score).
    by rewrite py_slice_to_nonneg by lia. }
  pose proof (hit_loop_cases top (np_where_eq y_true 1%R)) as Hcases.
  setoid_rewrite elem_of_np_where_eq in Hcases.
  assert (¬ (∃ idx, idx ∈ top ∧ y_true !! idx = Some 1%R)
          → hit_loop top (np_where_eq y_true 1%R) = 0%Z) as Hzero.
  { intros Hno. by destruct Hcases as [(_ & Hex)|(-> & _)]. }
  split; [|split].
  - destruct Hcases as [(-> & Hex)|(-> & Hno)]; split; try done.
  - exact Hzero.
  - intros Hall. apply Hzero. intros (idx & _ & Hidx).
    rewrite Forall_forall in Hall.
    apply list_elem_of_lookup_2, Hall in Hidx. lra.
Qed.

Lemma hit_score_iff_witness :
  argsort_contract stable_argsort
  ∧ (0 < 1)%Z
  ∧ let order := ranking stable_argsort [0.3; 0.9]%R in
    let top := take (Z.to_nat 1) order in
    order ≡ₚ seq 0 (length [0.3; 0.9]%R)
    ∧ descending [0.3; 0.9]%R order
    ∧ (hit_score stable_argsort [0; 1]%R [0.3; 0.9]%R 1 = 1%Z
       ↔ ∃ idx, idx ∈ top ∧ [0; 1]%R !! idx = Some 1%R)
    ∧ (¬ (∃ idx, idx ∈ top ∧ [0; 1]%R !! idx = Some 1%R)
       → hit_score stable_argsort [0; 1]%R [0.3; 0.9]%R 1 = 0%Z)
    ∧ (Forall (fun x => x = 0%R) [0; 1]%R
       → hit_score stable_argsort [0; 1]%R [0.3; 0.9]%R 1 = 0%Z).
Proof.
  split; [exact stable_argsort_contract|]. split; [lia|].
  apply (hit_score_iff stable_argsort stable_argsort_contract
           [0; 1]%R [0.3; 0.9]%R 1).
  lia.
Defined.

(** C5: when the ideal DCG is zero, [ndcg_score] returns the quotient
    of a division by zero, which is NaN or an infinity, and raises
    nothing; so does [mrr_score] when the ground-truth vector sums to
    zero. *)
Theorem zero_division_yields_nan_or_inf :
  ∀ argsort, argsort_contract argsort →
  ∀ (y_true y_score : list R) (k : Z),
    length y_true = length y_score →
    (dcg_score argsort y_true y_true k = Ok 0%R →
     ∃ actual v,
       dcg_score argsort y_true y_score k = Ok actual
       ∧ v = np_divide actual 0
       ∧ ndcg_score argsort y_true y_score k = Ok v
       ∧ is_nan_or_inf v)
    ∧ (np_sum y_true = 0%R →
       ∃ total v,
         v = np_divide total 0
         ∧ mrr_score argsort y_true y_score = Ok v
         ∧ is_nan_or_inf v).
Proof.
  intros argsort Hsort y_true y_score k Hlen. split.
  - intros Hbest.
    pose proof (dcg_score_kept argsort Hsort y_true y_score k Hlen) as Ha.
    cbv zeta in Ha. eexists _, _. split; [exact Ha|]. split; [reflexivity|].
    split; [|apply np_divide_by_zero].
    unfold ndcg_score. by rewrite Hbest, Ha.
  - intros Hzero. eexists _, _. split; [reflexivity|].
    split; [|apply np_divide_by_zero].
    rewrite mrr_score_value by done. by rewrite Hzero.
Qed.

Lemma dcg_score_zero_example :
  dcg_score stable_argsort [0; 0]%R [0; 0]%R 1 = Ok 0%R.
Proof.
  rewrite (dcg_score_value _ stable_argsort_contract) by (reflexivity || lia).
  f_equal. unfold sum_upto, ranking, stable_argsort, at_index; simpl.
  unfold key_le, at_index; simpl.
  destruct (Rle_dec 0 0) as [_|Hn]; [|lra]; simpl.
  unfold dcg_term, at_index; simpl.
  rewrite Rpower_O by lra. unfold Rdiv. lra.
Qed.

Lemma zero_division_yields_nan_or_inf_witness :
  argsort_contract stable_argsort
  ∧ length [0; 0]%R = length [0.4; 0.6]%R
  ∧ dcg_score stable_argsort [0; 0]%R [0; 0]%R 1 = Ok 0%R
  ∧ np_sum [0; 0]%R = 0%R
  ∧ (∃ actual v,
       dcg_score stable_argsort [0; 0]%R [0.4; 0.6]%R 1 = Ok actual
       ∧ v = np_divide actual 0
       ∧ ndcg_score stable_argsort [0; 0]%R [0.4; 0.6]%R 1 = Ok v
       ∧ is_nan_or_inf v)
  ∧ (∃ total v,
       v = np_divide total 0
       ∧ mrr_score stable_argsort [0; 0]%R [0.4; 0.6]%R = Ok v
       ∧ is_nan_or_inf v).
Proof.
  assert (np_sum [0; 0]%R = 0%R) as Hsum by (unfold np_sum; simpl; lra).
  split; [exact stable_argsort_contract|]. split; [reflexivity|].
  split; [exact dcg_score_zero_example|]. split; [exact Hsum|].
  split.
  - exact (proj1 (zero_division_yields_nan_or_inf stable_argsort
             stable_argsort_contract [0; 0]%R [0.4; 0.6]%R 1 eq_refl)
             dcg_score_zero_example).
  - exact (proj2 (zero_division_yields_nan_or_inf stable_argsort
             stable_argsort_contract [0; 0]%R [0.4; 0.6]%R 1 eq_refl)
             Hsum).
Defined.

(** C7: [dcg_score] reads the scores through the sort only, so a
    strictly increasing rescaling of the scores, which keeps every
    comparison between two scores, leaves its result unchanged, ties
    included, as long as the sort decides by comparisons. *)
Theorem dcg_score_rescale_invariant :
  ∀ argsort, comparison_sort argsort →
  ∀ (f : R → R), (∀ x y, (x < y)%R → (f x < f y)%R) →
  ∀ (y_true y_score : list R) (k : Z),
    dcg_score argsort y_true (map f y_score) k
    = dcg_score argsort y_true y_score k.
Proof.
  intros argsort Hcmp f Hf y_true y_score k.
  unfold dcg_score. by rewrite (argsort_rescale argsort f y_score Hcmp Hf).
Qed.

Lemma dcg_score_rescale_invariant_witness :
  comparison_sort stable_argsort
  ∧ (∀ x y, (x < y)%R → (2 * x + 1 < 2 * y + 1)%R)
  ∧ dcg_score stable_argsort [3; 2; 0; 0; 1]%R
      (map (fun x => (2 * x + 1)%R) [0.1; 0.4; 0.4; 0.2; 0.5]%R) 3
    = dcg_score stable_argsort [3; 2; 0; 0; 1]%R
        [0.1; 0.4; 0.4; 0.2; 0.5]%R 3.
Proof.
  assert (∀ x y, (x < y)%R → (2 * x + 1 < 2 * y + 1)%R) as Hf
    by (intros x y Hxy; lra).
  split; [exact stable_argsort_comparison|]. split; [exact Hf|].
  exact (dcg_score_rescale_invariant stable_argsort stable_argsort_comparison
           (fun x => (2 * x + 1)%R) Hf
           [3; 2; 0; 0; 1]%R [0.1; 0.4; 0.4; 0.2; 0.5]%R 3).
Defined.

(** When no two scores are equal the invariance needs no assumption on
    how the sort breaks ties: the contract fixes the order. *)
Lemma dcg_score_rescale_distinct :
  ∀ argsort, argsort_contract argsort →
  ∀ (f : R → R), (∀ x y, (x < y)%R → (f x < f y)%R) →
  ∀ (y_true y_score : list R) (k : Z),
    NoDup y_score →
    dcg_score argsort y_true (map f y_score) k
    = dcg_score argsort y_true y_score k.
Proof.
  intros argsort Hsort f Hf y_true y_score k Hnd.
  unfold dcg_score.
  by rewrite (argsort_rescale_distinct argsort f y_score Hsort Hnd Hf).
Qed.

(** The metrics on empty vectors. *)
Lemma argsort_nil argsort : argsort_contract argsort → argsort [] = [].
Proof.
  intros Hsort. apply Permutation_nil. symmetry.
  apply (argsort_perm _ Hsort []).
Qed.

Lemma dcg_score_nil argsort (k : Z) :
  argsort_contract argsort → dcg_score argsort [] [] k = Ok 0%R.
Proof.
  intros Hsort. unfold dcg_score. rewrite (argsort_nil _ Hsort). simpl.
  unfold py_slice_to. by destruct (_ <? 0)%Z; rewrite take_nil.
Qed.

Lemma ndcg_score_nil argsort (k : Z) :
  argsort_contract argsort → ndcg_score argsort [] [] k = Ok NaN.
Proof.
  intros Hsort. unfold ndcg_score. rewrite (dcg_score_nil _ _ Hsort).
  rewrite !result_bind_Ok. by rewrite np_divide_zero_zero.
Qed.

(** C8, as stated, fails on the empty vector: all its entries are 1,
    and [ndcg_score] divides zero by zero. *)
Lemma ndcg_score_all_ones_empty :
  Forall (fun x => x = 1%R) []
  ∧ (0 < 1)%Z
  ∧ ndcg_score stable_argsort [] [] 1 = Ok NaN
  ∧ ndcg_score stable_argsort [] [] 1 ≠ Ok (Finite 1).
Proof.
  split; [constructor|]. split; [lia|].
  rewrite (ndcg_score_nil _ _ stable_argsort_contract). by split.
Qed.

(** C8, amended: for a non-empty ground-truth vector whose entries are
    all 1 and a positive cutoff [k], [ndcg_score(gt, gt, k)] is 1. *)
Theorem ndcg_score_all_ones :
  ∀ argsort, argsort_contract argsort →
  ∀ (gt : list R) (k : Z),
    gt ≠ [] → Forall (fun x => x = 1%R) gt → (0 < k)%Z →
    ndcg_score argsort gt gt k = Ok (Finite 1).
Proof.
  intros argsort Hsort gt k Hne Hall Hk.
  unfold ndcg_score.
  rewrite (dcg_score_value argsort Hsort gt gt k eq_refl Hk).
  rewrite !result_bind_Ok. f_equal.
  apply np_divide_self, Rgt_not_eq, Rlt_gt.
  assert (0 < length gt) by (destruct gt; [done | simpl; lia]).
  apply sum_upto_pos; [lia|].
  intros i Hi. unfold dcg_term.
  rewrite (at_index_all 1 gt) by
    (try done; pose proof (ranking_in_range argsort Hsort gt) as Hr;
     rewrite List.Forall_forall in Hr; apply Hr, nth_In;
     rewrite ranking_length by done; lia).
  rewrite Rpower_1 by lra.
  apply Rdiv_lt_0_compat; [lra | apply log2_position_pos].
Qed.

Lemma ndcg_score_all_ones_witness :
  argsort_contract stable_argsort
  ∧ [1; 1; 1]%R ≠ []
  ∧ Forall (fun x => x = 1%R) [1; 1; 1]%R
  ∧ (0 < 2)%Z
  ∧ ndcg_score stable_argsort [1; 1; 1]%R [1; 1; 1]%R 2 = Ok (Finite 1).
Proof.
  assert (Forall (fun x => x = 1%R) [1; 1; 1]%R) as Hall
    by (repeat constructor).
  split; [exact stable_argsort_contract|]. split; [discriminate|].
  split; [exact Hall|]. split; [lia|].
  apply (ndcg_score_all_ones stable_argsort stable_argsort_contract
           [1; 1; 1]%R 2); [discriminate | exact Hall | lia].
Defined.
(** C9: [format_time(90061.5)] is ["1d 1h 1m 1.50s"]; in general, on a
    duration from 0 up to [2^53] seconds, where the division with
    remainder of floats is exact, [format_time] takes the floor quotient
    and the remainder by 86400, then of that remainder by 3600, then of
    that remainder by 60, and prints the three quotients as days, hours
    and minutes and the last remainder, which lies in [0, 60), with two
    decimal places: the number of hundredths nearest to it, the even one
    when two are as near, written as its integer part, a point and its
    last two digits; the four components add up to the duration. *)
Theorem format_time_decomposes :
  format_time (900615 # 10) = "1d 1h 1m 1.50s"
  ∧ ∀ seconds : Q,
      (0 <= seconds)%Q → (seconds < inject_Z (2 ^ 53))%Q →
      let days := Qfloor (seconds / 86400) in
      let r1 := (seconds - inject_Z days * 86400)%Q in
      let hours := Qfloor (r1 / 3600) in
      let r2 := (r1 - inject_Z hours * 3600)%Q in
      let minutes := Qfloor (r2 / 60) in
      let s := (r2 - inject_Z minutes * 60)%Q in
      (seconds == inject_Z days * 86400 + inject_Z hours * 3600
                  + inject_Z minutes * 60 + s)%Q
      ∧ (0 <= days)%Z
      ∧ (0 <= hours < 24)%Z
      ∧ (0 <= minutes < 60)%Z
      ∧ (0 <= s)%Q ∧ (s < 60)%Q
      ∧ ∃ hundredths : Z,
          (Qabs (s * 100 - inject_Z hundredths) <= 1 # 2)%Q
          ∧ ((Qabs (s * 100 - inject_Z hundredths) == 1 # 2)%Q
             → Z.even hundredths = true)
          ∧ format_time seconds
            = pretty days +:+ "d " +:+ pretty hours +:+ "h "
                +:+ pretty minutes +:+ "m "
                +:+ pretty (hundredths / 100)%Z +:+ "."
                +:+ String
                      (ascii_of_nat (48 + Z.to_nat (hundredths / 10 mod 10)))
                      (String
                         (ascii_of_nat (48 + Z.to_nat (hundredths mod 10))) "")
                +:+ "s".
Proof.
  split; [vm_compute; reflexivity|].
  intros seconds Hlo _ days r1 hours r2 minutes s.
  destruct (py_divmod_spec seconds 86400) as (_ & H1lo & H1hi); [lra|].
  fold days r1 in H1lo, H1hi.
  destruct (py_divmod_spec r1 3600) as (_ & H2lo & H2hi); [lra|].
  fold hours r2 in H2lo, H2hi.
  destruct (py_divmod_spec r2 60) as (_ & H3lo & H3hi); [lra|].
  fold minutes s in H3lo, H3hi.
  split; [unfold s, r2, r1; ring|].
  split.
  { unfold days. rewrite <- (Qfloor_Z 0). apply Qfloor_resp_le.
    apply Qle_shift_div_l; [lra|]. change (inject_Z 0) with 0%Q. lra. }
  split.
  { unfold hours. clearbody r1.
    apply Qfloor_bounds;
      [apply Qle_shift_div_l | apply Qlt_shift_div_r];
      change (inject_Z 0) with 0%Q; change (inject_Z 24) with 24%Q; lra. }
  split.
  { unfold minutes. clearbody r2.
    apply Qfloor_bounds;
      [apply Qle_shift_div_l | apply Qlt_shift_div_r];
      change (inject_Z 0) with 0%Q; change (inject_Z 60) with 60%Q; lra. }
  split; [done|]. split; [done|].
  destruct (format_2f_nonneg s H3lo) as (h & Hnear & Htie & Hprint).
  exists h. split; [exact Hnear|]. split; [exact Htie|].
  rewrite format_time_unfold. fold days r1 hours r2 minutes s.
  unfold render_time. rewrite Hprint.
  by rewrite !string_app_assoc.
Qed.

Lemma format_time_decomposes_witness :
  (0 <= 900615 # 10)%Q
  ∧ (900615 # 10 < inject_Z (2 ^ 53))%Q
  ∧ let seconds := (900615 # 10)%Q in
    let days := Qfloor (seconds / 86400) in
    let r1 := (seconds - inject_Z days * 86400)%Q in
    let hours := Qfloor (r1 / 3600) in
    let r2 := (r1 - inject_Z hours * 3600)%Q in
    let minutes := Qfloor (r2 / 60) in
    let s := (r2 - inject_Z minutes * 60)%Q in
    (seconds == inject_Z days * 86400 + inject_Z hours * 3600
                + inject_Z minutes * 60 + s)%Q
    ∧ (0 <= days)%Z
    ∧ (0 <= hours < 24)%Z
    ∧ (0 <= minutes < 60)%Z
    ∧ (0 <= s)%Q ∧ (s < 60)%Q
    ∧ ∃ hundredths : Z,
        (Qabs (s * 100 - inject_Z hundredths) <= 1 # 2)%Q
        ∧ ((Qabs (s * 100 - inject_Z hundredths) == 1 # 2)%Q
           → Z.even hundredths = true)
        ∧ format_time seconds
          = pretty days +:+ "d " +:+ pretty hours +:+ "h "
              +:+ pretty minutes +:+ "m "
              +:+ pretty (hundredths / 100)%Z +:+ "."
              +:+ String
                    (ascii_of_nat (48 + Z.to_nat (hundredths / 10 mod 10)))
                    (String
                       (ascii_of_nat (48 + Z.to_nat (hundredths mod 10))) "")
              +:+ "s".
Proof.
  assert (0 <= 900615 # 10)%Q as Hlo by (vm_compute; discriminate).
  assert (900615 # 10 < inject_Z (2 ^ 53))%Q as Hhi
    by (vm_compute; reflexivity).
  split; [exact Hlo|]. split; [exact Hhi|].
  exact (proj2 format_time_decomposes (900615 # 10) Hlo Hhi).
Defined.

(** C6: on a non-empty list of one- and two-dimensional arrays,
    [pad_and_stack] returns the two-dimensional array whose width is the
    largest column count of the inputs and whose rows are the rows of the
    inputs in order, a one-dimensional input counting as one row, each
    row extended on the right with the pad value up to that width (so
    every row has that width when the inputs are well formed); on the
    one-dimensional arrays [1,2] and [3,4,5] with pad value 0 it returns
    [[1,2,0],[3,4,5]]. *)
Theorem pad_and_stack_pads_and_stacks :
  (∀ (A : Type) (arrays : list (ndarray A)) (pad_value : A),
     arrays ≠ [] →
     (pad_and_stack arrays pad_value).2
       = Ok (pad_and_stack_spec arrays pad_value)
     ∧ (Forall wf_array arrays →
        wf_array (pad_and_stack_spec arrays pad_value)))
  ∧ (pad_and_stack [Arr1 [1; 2]%Z; Arr1 [3; 4; 5]%Z] 0%Z).2
      = Ok (Arr2 3 [[1; 2; 0]; [3; 4; 5]]%Z).
Proof.
  split.
  - intros A arrays pad_value Hne. split.
    + by apply pad_and_stack_returns.
    + apply pad_and_stack_spec_wf.
  - reflexivity.
Qed.

Lemma pad_and_stack_pads_and_stacks_witness :
  [Arr1 [5; 6]%Z; Arr2 3 [[1; 2; 3]; [7; 8; 9]]%Z] ≠ []
  ∧ (pad_and_stack [Arr1 [5; 6]%Z; Arr2 3 [[1; 2; 3]; [7; 8; 9]]%Z] 0%Z).2
      = Ok (Arr2 3 [[5; 6; 0]; [1; 2; 3]; [7; 8; 9]]%Z).
Proof.
  split; [discriminate|].
  apply (proj1 pad_and_stack_pads_and_stacks Z
           [Arr1 [5; 6]%Z; Arr2 3 [[1; 2; 3]; [7; 8; 9]]%Z] 0%Z).
  discriminate.
Defined.

(** C10: [pad_and_stack] updates the caller's list in place.  When the
    list holds at least one one-dimensional array, the list after the
    call differs from the list before it: it has the same length, every
    one-dimensional entry has been replaced by its single-row
    two-dimensional version and every other entry is the one it was. *)
Theorem pad_and_stack_mutates_input :
  ∀ (A : Type) (arrays : list (ndarray A)) (pad_value : A),
    (∃ a, a ∈ arrays ∧ ndim a = 1) →
    let final := (pad_and_stack arrays pad_value).1 in
    final ≠ arrays
    ∧ length final = length arrays
    ∧ (∀ i d, arrays !! i = Some (Arr1 d) →
              final !! i = Some (Arr2 (length d) [d]))
    ∧ (∀ i c rows, arrays !! i = Some (Arr2 c rows) →
                   final !! i = Some (Arr2 c rows)).
Proof.
  intros A arrays pad_value (a & Ha & Hdim) final.
  assert (final = promote <$> arrays) as Hfinal
    by apply pad_and_stack_final_list.
  assert (∀ i b, arrays !! i = Some b → final !! i = Some (promote b)) as Hat.
  { intros i b Hi. by rewrite Hfinal, list_lookup_fmap, Hi. }
  repeat split.
  - apply list_elem_of_lookup in Ha. destruct Ha as (i & Hi).
    intros Heq. specialize (Hat i a Hi). rewrite Heq, Hi in Hat.
    destruct a; [discriminate Hat | discriminate Hdim].
  - by rewrite Hfinal, length_fmap.
  - intros i d Hi. apply (Hat i _ Hi).
  - intros i c rows Hi. apply (Hat i _ Hi).
Qed.

Lemma pad_and_stack_mutates_input_witness :
  (∃ a, a ∈ [Arr1 [1; 2]%Z; Arr2 1 [[3]]%Z] ∧ ndim a = 1)
  ∧ (pad_and_stack [Arr1 [1; 2]%Z; Arr2 1 [[3]]%Z] 0%Z).1
      ≠ [Arr1 [1; 2]%Z; Arr2 1 [[3]]%Z].
Proof.
  assert (∃ a, a ∈ [Arr1 [1; 2]%Z; Arr2 1 [[3]]%Z] ∧ ndim a = 1) as H.
  { exists (Arr1 [1; 2]%Z). split; [apply list_elem_of_here | reflexivity]. }
  split; [exact H|].
  exact (proj1 (pad_and_stack_mutates_input Z _ 0%Z H)).
Defined.

(** ** Part IV: further properties of the code *)

(** X1: on an int64 ground truth with labels from 0 to 63, for a score
    vector of the same length and any cutoff, the DCG of the score
    vector never exceeds the DCG of the ground truth ranked by itself. *)
Theorem dcg_score_le_ideal :
  ∀ argsort, argsort_contract argsort →
  ∀ (y_true : list Z) (y_score : list R) (k : Z),
    length y_true = length y_score →
    Forall (fun y => (0 <= y <= 63)%Z) y_true →
    ∃ actual best : R,
      dcg_score_array argsort (Int64Array y_true) y_score k = Ok actual
      ∧ dcg_score_array argsort (Int64Array y_true) (map IZR y_true) k
        = Ok best
      ∧ (actual <= best)%R.
Proof.
  intros argsort Hsort y_true y_score k Hlen Hrange. simpl.
  rewrite !(dcg_score_int64_exact argsort Hsort)
    by (done || by rewrite length_map).
  apply exact_dcg_le_ideal; [done|]. by rewrite length_map.
Qed.

Lemma dcg_score_le_ideal_witness :
  argsort_contract stable_argsort
  ∧ length [3; 2; 0; 0; 1]%Z = length [0.1; 0.4; 0.3; 0.2; 0.5]%R
  ∧ Forall (fun y => (0 <= y <= 63)%Z) [3; 2; 0; 0; 1]%Z
  ∧ ∃ actual best : R,
      dcg_score_array stable_argsort (Int64Array [3; 2; 0; 0; 1]%Z)
        [0.1; 0.4; 0.3; 0.2; 0.5]%R 3 = Ok actual
      ∧ dcg_score_array stable_argsort (Int64Array [3; 2; 0; 0; 1]%Z)
          (map IZR [3; 2; 0; 0; 1]%Z) 3 = Ok best
      ∧ (actual <= best)%R.
Proof.
  assert (Forall (fun y => (0 <= y <= 63)%Z) [3; 2; 0; 0; 1]%Z) as Hrange
    by (repeat constructor; lia).
  split; [exact stable_argsort_contract|]. split; [reflexivity|].
  split; [exact Hrange|].
  exact (dcg_score_le_ideal stable_argsort stable_argsort_contract
           [3; 2; 0; 0; 1]%Z [0.1; 0.4; 0.3; 0.2; 0.5]%R 3 eq_refl Hrange).
Defined.

(** X2: on an int64 ground truth with labels from 0 to 63 of which one
    is positive, [ndcg_score] with a positive cutoff returns a finite
    value between 0 and 1. *)
Theorem ndcg_score_unit_interval :
  ∀ argsort, argsort_contract argsort →
  ∀ (y_true : list Z) (y_score : list R) (k : Z),
    length y_true = length y_score → (0 < k)%Z →
    Forall (fun y => (0 <= y <= 63)%Z) y_true →
    Exists (fun y => (0 < y)%Z) y_true →
    ∃ v : R,
      ndcg_score_array argsort (Int64Array y_true) y_score k = Ok (Finite v)
      ∧ (0 <= v <= 1)%R.
Proof.
  intros argsort Hsort y_true y_score k Hlen Hk Hrange Hex.
  rewrite (ndcg_score_int64_exact argsort Hsort) by done.
  apply exact_ndcg_unit_interval;
    [done | by rewrite length_map | done | | by apply IZR_labels_pos].
  apply IZR_labels_nonneg. eapply Forall_impl; [exact Hrange|].
  simpl. intros y Hy. lia.
Qed.

Lemma ndcg_score_unit_interval_witness :
  argsort_contract stable_argsort
  ∧ length [3; 2; 0; 0; 1]%Z = length [0.1; 0.4; 0.3; 0.2; 0.5]%R
  ∧ (0 < 3)%Z
  ∧ Forall (fun y => (0 <= y <= 63)%Z) [3; 2; 0; 0; 1]%Z
  ∧ Exists (fun y => (0 < y)%Z) [3; 2; 0; 0; 1]%Z
  ∧ ∃ v : R,
      ndcg_score_array stable_argsort (Int64Array [3; 2; 0; 0; 1]%Z)
        [0.1; 0.4; 0.3; 0.2; 0.5]%R 3 = Ok (Finite v)
      ∧ (0 <= v <= 1)%R.
Proof.
  assert (Forall (fun y => (0 <= y <= 63)%Z) [3; 2; 0; 0; 1]%Z) as Hrange
    by (repeat constructor; lia).
  assert (Exists (fun y => (0 < y)%Z) [3; 2; 0; 0; 1]%Z) as Hex
    by (apply Exists_cons_hd; lia).
  split; [exact stable_argsort_contract|]. split; [reflexivity|].
  split; [lia|]. split; [exact Hrange|]. split; [exact Hex|].
  apply (ndcg_score_unit_interval stable_argsort stable_argsort_contract
           [3; 2; 0; 0; 1]%Z [0.1; 0.4; 0.3; 0.2; 0.5]%R 3);
    [reflexivity | lia | exact Hrange | exact Hex].
Defined.

(** X3: on an int64 ground truth with non-negative labels of which one
    is positive and whose sum is below [2^63], [mrr_score] returns a
    finite value greater than 0 and at most 1. *)
Theorem mrr_score_unit_interval :
  ∀ argsort, argsort_contract argsort →
  ∀ (y_true : list Z) (y_score : list R),
    length y_true = length y_score →
    Forall (fun y => (0 <= y)%Z) y_true →
    Exists (fun y => (0 < y)%Z) y_true →
    (fold_right Z.add 0 y_true < 2 ^ 63)%Z →
    ∃ v : R,
      mrr_score_array argsort (Int64Array y_true) y_score = Ok (Finite v)
      ∧ (0 < v <= 1)%R.
Proof.
  intros argsort Hsort y_true y_score Hlen Hall Hex Hsum. simpl.
  rewrite (mrr_score_int64_exact argsort Hsort)
    by (done || pose proof (sum_labels_nonneg y_true Hall); lia).
  apply exact_mrr_unit_interval;
    [done | by rewrite length_map | by apply IZR_labels_nonneg
    | by apply IZR_labels_pos].
Qed.

Lemma mrr_score_unit_interval_witness :
  argsort_contract stable_argsort
  ∧ length [0; 2; 1]%Z = length [0.2; 0.7; 0.9]%R
  ∧ Forall (fun y => (0 <= y)%Z) [0; 2; 1]%Z
  ∧ Exists (fun y => (0 < y)%Z) [0; 2; 1]%Z
  ∧ (fold_right Z.add 0 [0; 2; 1] < 2 ^ 63)%Z
  ∧ ∃ v : R,
      mrr_score_array stable_argsort (Int64Array [0; 2; 1]%Z)
        [0.2; 0.7; 0.9]%R = Ok (Finite v)
      ∧ (0 < v <= 1)%R.
Proof.
  assert (Forall (fun y => (0 <= y)%Z) [0; 2; 1]%Z) as Hall
    by (repeat constructor; lia).
  assert (Exists (fun y => (0 < y)%Z) [0; 2; 1]%Z) as Hex
    by (apply Exists_cons_tl, Exists_cons_hd; lia).
  assert (fold_right Z.add 0 [0; 2; 1] < 2 ^ 63)%Z as Hsum
    by (vm_compute; reflexivity).
  split; [exact stable_argsort_contract|]. split; [reflexivity|].
  split; [exact Hall|]. split; [exact Hex|]. split; [exact Hsum|].
  exact (mrr_score_unit_interval stable_argsort stable_argsort_contract
           [0; 2; 1]%Z [0.2; 0.7; 0.9]%R eq_refl Hall Hex Hsum).
Defined.



(** X5: [hit_score] can only gain from a larger cutoff: a hit within the
    first [k] ranks is a hit within the first [k'] ranks for every
    [k' >= k >= 0]. *)
Theorem hit_score_monotone_cutoff :
  ∀ argsort (y_true y_score : list R) (k k' : Z),
    (0 <= k <= k')%Z →
    hit_score argsort y_true y_score k = 1%Z →
    hit_score argsort y_true y_score k' = 1%Z.
Proof.
  intros argsort y_true y_score k k' Hk. unfold hit_score.
  rewrite !py_slice_to_nonneg by lia. rewrite !hit_loop_one.
  intros (idx & Hin & Hgt). exists idx. split; [|done].
  apply elem_of_take in Hin. destruct Hin as (i & Hi & Hlt).
  apply elem_of_take. exists i. split; [done|lia].
Qed.

Lemma hit_score_monotone_cutoff_witness :
  (0 <= 1 <= 2)%Z
  ∧ hit_score stable_argsort [0; 1; 0]%R [0.3; 0.9; 0.5]%R 1 = 1%Z
  ∧ hit_score stable_argsort [0; 1; 0]%R [0.3; 0.9; 0.5]%R 2 = 1%Z.
Proof.
  assert (hit_score stable_argsort [0; 1; 0]%R [0.3; 0.9; 0.5]%R 1 = 1%Z)
    as H1 by exact (proj1 hit_score_example).
  split; [lia|]. split; [exact H1|].
  exact (hit_score_monotone_cutoff stable_argsort [0; 1; 0]%R
           [0.3; 0.9; 0.5]%R 1 2 ltac:(lia) H1).
Defined.

(** X6: with a cutoff that covers all the candidates, [hit_score] is 1
    exactly when the ground truth holds a label 1, and it is 0 or 1 in
    every case; with cutoff 0 it is 0. *)
Theorem hit_score_full_cutoff :
  ∀ argsort, argsort_contract argsort →
  ∀ (y_true y_score : list R) (k : Z),
    length y_true = length y_score →
    (hit_score argsort y_true y_score k = 0%Z
     ∨ hit_score argsort y_true y_score k = 1%Z)
    ∧ hit_score argsort y_true y_score 0 = 0%Z
    ∧ ((Z.of_nat (length y_score) <= k)%Z →
       (hit_score argsort y_true y_score k = 1%Z ↔ 1%R ∈ y_true)).
Proof.
  intros argsort Hsort y_true y_score k Hlen.
  split; [apply hit_loop_zero_or_one|]. split; [reflexivity|].
  intros Hk. unfold hit_score. fold (ranking argsort y_score).
  rewrite py_slice_to_nonneg, take_ge
    by (rewrite ?ranking_length by done; lia).
  rewrite hit_loop_one. setoid_rewrite elem_of_np_where_eq.
  rewrite list_elem_of_lookup. split.
  - intros (idx & _ & Hidx). eauto.
  - intros (idx & Hidx). exists idx. split; [|done].
    apply list_elem_of_In.
    apply (Permutation_in _ (Permutation_sym (ranking_perm _ Hsort y_score))).
    apply in_seq. apply lookup_lt_Some in Hidx. lia.
Qed.

Lemma hit_score_full_cutoff_witness :
  argsort_contract stable_argsort
  ∧ length [0; 1; 0]%R = length [0.3; 0.9; 0.5]%R
  ∧ (hit_score stable_argsort [0; 1; 0]%R [0.3; 0.9; 0.5]%R 7 = 0%Z
     ∨ hit_score stable_argsort [0; 1; 0]%R [0.3; 0.9; 0.5]%R 7 = 1%Z)
  ∧ hit_score stable_argsort [0; 1; 0]%R [0.3; 0.9; 0.5]%R 0 = 0%Z
  ∧ ((Z.of_nat (length [0.3; 0.9; 0.5]%R) <= 7)%Z →
     (hit_score stable_argsort [0; 1; 0]%R [0.3; 0.9; 0.5]%R 7 = 1%Z
      ↔ 1%R ∈ [0; 1; 0]%R)).
Proof.
  split; [exact stable_argsort_contract|]. split; [reflexivity|].
  exact (hit_score_full_cutoff stable_argsort stable_argsort_contract
           [0; 1; 0]%R [0.3; 0.9; 0.5]%R 7 eq_refl).
Defined.

(** X7: [ndcg_score], [hit_score] and [mrr_score] read the scores
    through the sort only: a strictly increasing rescaling of the scores
    changes none of them when the sort decides by comparisons. *)
Theorem metrics_rescale_invariant :
  ∀ argsort, comparison_sort argsort →
  ∀ (f : R → R), (∀ x y, (x < y)%R → (f x < f y)%R) →
  ∀ (y_true y_score : list R) (k : Z),
    ndcg_score argsort y_true (map f y_score) k
    = ndcg_score argsort y_true y_score k
    ∧ hit_score argsort y_true (map f y_score) k
      = hit_score argsort y_true y_score k
    ∧ mrr_score argsort y_true (map f y_score)
      = mrr_score argsort y_true y_score.
Proof.
  intros argsort Hcmp f Hf y_true y_score k.
  unfold ndcg_score, dcg_score, hit_score, mrr_score.
  by rewrite (argsort_rescale argsort f y_score Hcmp Hf).
Qed.

Lemma metrics_rescale_invariant_witness :
  comparison_sort stable_argsort
  ∧ (∀ x y, (x < y)%R → (3 * x - 1 < 3 * y - 1)%R)
  ∧ ndcg_score stable_argsort [0; 1; 0]%R
      (map (fun x => (3 * x - 1)%R) [0.3; 0.9; 0.9]%R) 2
    = ndcg_score stable_argsort [0; 1; 0]%R [0.3; 0.9; 0.9]%R 2
  ∧ hit_score stable_argsort [0; 1; 0]%R
      (map (fun x => (3 * x - 1)%R) [0.3; 0.9; 0.9]%R) 2
    = hit_score stable_argsort [0; 1; 0]%R [0.3; 0.9; 0.9]%R 2
  ∧ mrr_score stable_argsort [0; 1; 0]%R
      (map (fun x => (3 * x - 1)%R) [0.3; 0.9; 0.9]%R)
    = mrr_score stable_argsort [0; 1; 0]%R [0.3; 0.9; 0.9]%R.
Proof.
  assert (∀ x y, (x < y)%R → (3 * x - 1 < 3 * y - 1)%R) as Hf
    by (intros x y Hxy; lra).
  split; [exact stable_argsort_comparison|]. split; [exact Hf|].
  exact (metrics_rescale_invariant stable_argsort stable_argsort_comparison
           (fun x => (3 * x - 1)%R) Hf [0; 1; 0]%R [0.3; 0.9; 0.9]%R 2).
Defined.

(** X8: a score vector longer than the ground truth makes [mrr_score]
    raise IndexError: it gathers the ground truth at every scored
    position. *)
Theorem mrr_score_longer_scores :
  ∀ argsort, argsort_contract argsort →
  ∀ (y_true y_score : list R),
    length y_true < length y_score →
    mrr_score argsort y_true y_score = Raise IndexError.
Proof.
  intros argsort Hsort y_true y_score Hlen.
  unfold mrr_score. fold (ranking argsort y_score).
  rewrite np_take_out_of_range; [done|].
  apply List.Exists_exists. exists (length y_true). split; [|done].
  apply (Permutation_in _ (Permutation_sym (ranking_perm _ Hsort y_score))).
  apply in_seq. lia.
Qed.

Lemma mrr_score_longer_scores_witness :
  argsort_contract stable_argsort
  ∧ length [1]%R < length [0.1; 0.7]%R
  ∧ mrr_score stable_argsort [1]%R [0.1; 0.7]%R = Raise IndexError.
Proof.
  split; [exact stable_argsort_contract|]. split; [simpl; lia|].
  apply (mrr_score_longer_scores stable_argsort stable_argsort_contract).
  simpl; lia.
Defined.

(** X9: a score vector shorter than the ground truth raises nothing:
    [dcg_score], [hit_score] and [mrr_score] ignore the ground truth
    beyond the scored positions. *)
Theorem metrics_shorter_scores :
  ∀ argsort, argsort_contract argsort →
  ∀ (y_true y_score : list R) (k : Z),
    length y_score ≤ length y_true →
    let scored := take (length y_score) y_true in
    dcg_score argsort y_true y_score k = dcg_score argsort scored y_score k
    ∧ hit_score argsort y_true y_score k = hit_score argsort scored y_score k
    ∧ mrr_score argsort y_true y_score = mrr_score argsort scored y_score
    ∧ (∃ r, dcg_score argsort y_true y_score k = Ok r)
    ∧ (∃ v, mrr_score argsort y_true y_score = Ok v).
Proof.
  intros argsort Hsort y_true y_score k Hlen scored.
  pose proof (ranking_in_range argsort Hsort y_score) as Hrange.
  pose proof (ranking_length argsort Hsort y_score) as Hrl.
  assert (length scored = length y_score) as Hsl
    by (unfold scored; rewrite length_take; lia).
  assert (py_slice_to (Z.min (Z.of_nat (length y_true)) k)
            (ranking argsort y_score)
          = py_slice_to (Z.min (Z.of_nat (length scored)) k)
              (ranking argsort y_score)) as Hslice.
  { rewrite Hsl. unfold py_slice_to.
    destruct (Z.ltb_spec k 0).
    - by rewrite !Z.min_r by lia.
    - destruct (Z.ltb_spec (Z.of_nat (length y_true) `min` k) 0); [lia|].
      destruct (Z.ltb_spec (Z.of_nat (length y_score) `min` k) 0); [lia|].
      destruct (Z.le_ge_cases k (Z.of_nat (length y_score))).
      + by rewrite !Z.min_r by lia.
      + by rewrite !take_ge by lia. }
  assert (dcg_score argsort y_true y_score k
          = dcg_score argsort scored y_score k) as Hdcg.
  { unfold dcg_score. fold (ranking argsort y_score). rewrite Hslice.
    unfold scored. by rewrite np_take_truncated
      by (try done; by apply py_slice_to_Forall). }
  assert (mrr_score argsort y_true y_score
          = mrr_score argsort scored y_score) as Hmrr.
  { unfold mrr_score. fold (ranking argsort y_score).
    unfold scored. by rewrite np_take_truncated. }
  split; [exact Hdcg|]. split; [|split; [exact Hmrr|split]].
  - unfold hit_score. fold (ranking argsort y_score).
    set (top := py_slice_to k (ranking argsort y_score)).
    assert (Forall (fun i => i < length y_score) top) as Htop
      by (by apply py_slice_to_Forall).
    destruct (hit_loop_cases top (np_where_eq y_true 1%R))
      as [(-> & idx & Hin & Hgt)|(-> & Hno)];
      destruct (hit_loop_cases top (np_where_eq scored 1%R))
      as [(-> & idx' & Hin' & Hgt')|(-> & Hno')]; try done.
    + exfalso. apply Hno'. exists idx. split; [done|].
      apply elem_of_where_eq_take; [|done].
      rewrite Forall_forall in Htop. by apply Htop.
    + exfalso. apply Hno. exists idx'. split; [done|].
      eapply elem_of_where_eq_take; [|exact Hgt'].
      rewrite Forall_forall in Htop. by apply Htop.
  - rewrite Hdcg, (dcg_score_cut argsort scored y_score k Hsort Hsl). eauto.
  - rewrite Hmrr, (mrr_score_value argsort scored y_score Hsort Hsl). eauto.
Qed.

Lemma metrics_shorter_scores_witness :
  argsort_contract stable_argsort
  ∧ length [0.2; 0.7]%R ≤ length [0; 1; 1]%R
  ∧ mrr_score stable_argsort [0; 1; 1]%R [0.2; 0.7]%R
    = mrr_score stable_argsort (take (length [0.2; 0.7]%R) [0; 1; 1]%R)
        [0.2; 0.7]%R.
Proof.
  split; [exact stable_argsort_contract|]. split; [simpl; lia|].
  apply (metrics_shorter_scores stable_argsort stable_argsort_contract
           [0; 1; 1]%R [0.2; 0.7]%R 1).
  simpl; lia.
Defined.

(** X10: the cutoff of [dcg_score] outside the range of the ranks.  A
    cutoff of at least the length scores the whole ranking; a negative
    cutoff [k] drops the last [-k] ranks, as the slice [order[:k]] does;
    a cutoff of zero, or of [-length] and below, gives 0. *)
Theorem dcg_score_cutoff_edges :
  ∀ argsort, argsort_contract argsort →
  ∀ (y_true y_score : list R) (k : Z),
    length y_true = length y_score →
    let n := Z.of_nat (length y_true) in
    ((n <= k)%Z →
     dcg_score argsort y_true y_score k = dcg_score argsort y_true y_score n)
    ∧ ((- n < k < 0)%Z →
       dcg_score argsort y_true y_score k
       = dcg_score argsort y_true y_score (n + k))
    ∧ ((k = 0 ∨ k <= - n)%Z →
       dcg_score argsort y_true y_score k = Ok 0%R).
Proof.
  intros argsort Hsort y_true y_score k Hlen n.
  rewrite !(dcg_score_cut argsort y_true y_score _ Hsort Hlen).
  unfold kept_ranks, n. split; [|split].
  - intros Hk. destruct (Z.ltb_spec k 0), (Z.ltb_spec (Z.of_nat (length y_true)) 0);
      try lia. do 2 f_equal. lia.
  - intros Hk. destruct (Z.ltb_spec k 0); [|lia].
    destruct (Z.ltb_spec (Z.of_nat (length y_true) + k) 0); [lia|].
    do 2 f_equal. lia.
  - intros Hk. f_equal.
    replace (if (k <? 0)%Z
             then Z.to_nat (Z.of_nat (length y_true) + k)
             else Z.to_nat k `min` length y_true) with 0%nat; [done|].
    destruct (Z.ltb_spec k 0); lia.
Qed.

Lemma dcg_score_cutoff_edges_witness :
  argsort_contract stable_argsort
  ∧ length [3; 2; 0]%R = length [0.1; 0.4; 0.3]%R
  ∧ dcg_score stable_argsort [3; 2; 0]%R [0.1; 0.4; 0.3]%R (-1)
    = dcg_score stable_argsort [3; 2; 0]%R [0.1; 0.4; 0.3]%R
        (Z.of_nat (length [3; 2; 0]%R) + -1).
Proof.
  split; [exact stable_argsort_contract|]. split; [reflexivity|].
  apply (dcg_score_cutoff_edges stable_argsort stable_argsort_contract
           [3; 2; 0]%R [0.1; 0.4; 0.3]%R (-1) eq_refl).
  simpl; lia.
Defined.

(** X11: with the cutoff 0 both DCG values are 0 and [ndcg_score]
    returns NaN, whatever the vectors. *)
Theorem ndcg_score_zero_cutoff :
  ∀ argsort, argsort_contract argsort →
  ∀ (y_true y_score : list R),
    length y_true = length y_score →
    ndcg_score argsort y_true y_score 0 = Ok NaN.
Proof.
  intros argsort Hsort y_true y_score Hlen. unfold ndcg_score.
  rewrite !(dcg_score_cut argsort _ _ 0 Hsort) by done.
  rewrite !result_bind_Ok.
  change (kept_ranks (length y_true) 0) with 0%nat.
  unfold sum_upto. simpl map. unfold np_sum. simpl foldr.
  by rewrite np_divide_zero_zero.
Qed.

Lemma ndcg_score_zero_cutoff_witness :
  argsort_contract stable_argsort
  ∧ length [3; 2; 0]%R = length [0.1; 0.4; 0.3]%R
  ∧ ndcg_score stable_argsort [3; 2; 0]%R [0.1; 0.4; 0.3]%R 0 = Ok NaN.
Proof.
  split; [exact stable_argsort_contract|]. split; [reflexivity|].
  exact (ndcg_score_zero_cutoff stable_argsort stable_argsort_contract
           [3; 2; 0]%R [0.1; 0.4; 0.3]%R eq_refl).
Defined.

(** X12: on an int64 ground truth with labels from 0 to 63 the DCG is
    non-negative and never decreases when the cutoff grows. *)
Theorem dcg_score_monotone_cutoff :
  ∀ argsort, argsort_contract argsort →
  ∀ (y_true : list Z) (y_score : list R) (k k' : Z),
    length y_true = length y_score →
    Forall (fun y => (0 <= y <= 63)%Z) y_true →
    (0 <= k <= k')%Z →
    ∃ d d' : R,
      dcg_score_array argsort (Int64Array y_true) y_score k = Ok d
      ∧ dcg_score_array argsort (Int64Array y_true) y_score k' = Ok d'
      ∧ (0 <= d <= d')%R.
Proof.
  intros argsort Hsort y_true y_score k k' Hlen Hrange Hk. simpl.
  rewrite !(dcg_score_int64_exact argsort Hsort) by done.
  apply exact_dcg_monotone_cutoff;
    [done | by rewrite length_map | | done].
  apply IZR_labels_nonneg. eapply Forall_impl; [exact Hrange|].
  simpl. intros y Hy. lia.
Qed.

Lemma dcg_score_monotone_cutoff_witness :
  argsort_contract stable_argsort
  ∧ length [3; 2; 0]%Z = length [0.1; 0.4; 0.3]%R
  ∧ Forall (fun y => (0 <= y <= 63)%Z) [3; 2; 0]%Z
  ∧ (0 <= 1 <= 2)%Z
  ∧ ∃ d d' : R,
      dcg_score_array stable_argsort (Int64Array [3; 2; 0]%Z)
        [0.1; 0.4; 0.3]%R 1 = Ok d
      ∧ dcg_score_array stable_argsort (Int64Array [3; 2; 0]%Z)
          [0.1; 0.4; 0.3]%R 2 = Ok d'
      ∧ (0 <= d <= d')%R.
Proof.
  assert (Forall (fun y => (0 <= y <= 63)%Z) [3; 2; 0]%Z) as Hrange
    by (repeat constructor; lia).
  split; [exact stable_argsort_contract|]. split; [reflexivity|].
  split; [exact Hrange|]. split; [lia|].
  apply (dcg_score_monotone_cutoff stable_argsort stable_argsort_contract
           [3; 2; 0]%Z [0.1; 0.4; 0.3]%R 1 2 eq_refl Hrange).
  lia.
Defined.

(** X13: [pad_and_stack] raises exactly on the empty list, with
    ValueError and the list left empty; on every non-empty list of
    one- and two-dimensional arrays it returns an array. *)
Theorem pad_and_stack_raises_iff_empty :
  ∀ (A : Type) (arrays : list (ndarray A)) (pad_value : A),
    ((∃ r, (pad_and_stack arrays pad_value).2 = Ok r) ↔ arrays ≠ [])
    ∧ (arrays = [] →
       pad_and_stack arrays pad_value = ([], Raise ValueError)).
Proof.
  intros A arrays pad_value. split; [split|].
  - intros (r & Hr) ->. discriminate Hr.
  - intros Hne. rewrite pad_and_stack_returns by done. eauto.
  - intros ->. reflexivity.
Qed.

Lemma pad_and_stack_raises_iff_empty_witness :
  ((∃ r, (pad_and_stack [Arr1 [1; 2]%Z] 0%Z).2 = Ok r) ↔ [Arr1 [1; 2]%Z] ≠ [])
  ∧ (@nil (ndarray Z) = [] →
     pad_and_stack (@nil (ndarray Z)) 0%Z = ([], Raise ValueError)).
Proof.
  split.
  - exact (proj1 (pad_and_stack_raises_iff_empty Z [Arr1 [1; 2]%Z] 0%Z)).
  - exact (proj2 (pad_and_stack_raises_iff_empty Z [] 0%Z)).
Defined.

(** X14: on a non-empty list of well-formed arrays the rows of the
    result correspond one to one, in order, to the rows of the inputs:
    every output row has the maximal width, starts with its input row
    and continues with pad values only. *)
Theorem pad_and_stack_preserves_rows :
  ∀ (A : Type) (arrays : list (ndarray A)) (pad_value : A),
    arrays ≠ [] → Forall wf_array arrays →
    ∃ rows,
      (pad_and_stack arrays pad_value).2 = Ok (Arr2 (max_width arrays) rows)
      ∧ Forall2 (padded_from (max_width arrays) pad_value)
          (input_rows arrays) rows.
Proof.
  intros A arrays pad_value Hne Hwf.
  rewrite pad_and_stack_returns by done. unfold pad_and_stack_spec.
  eexists. split; [reflexivity|].
  apply padded_rows; [done|].
  apply Forall_forall. intros a Ha. by apply shape_last_le_max_width.
Qed.

Lemma pad_and_stack_preserves_rows_witness :
  [Arr1 [5; 6]%Z; Arr2 3 [[1; 2; 3]; [7; 8; 9]]%Z] ≠ []
  ∧ Forall wf_array [Arr1 [5; 6]%Z; Arr2 3 [[1; 2; 3]; [7; 8; 9]]%Z]
  ∧ ∃ rows,
      (pad_and_stack [Arr1 [5; 6]%Z; Arr2 3 [[1; 2; 3]; [7; 8; 9]]%Z] 0%Z).2
      = Ok (Arr2 (max_width [Arr1 [5; 6]%Z; Arr2 3 [[1; 2; 3]; [7; 8; 9]]%Z])
              rows)
      ∧ Forall2
          (padded_from
             (max_width [Arr1 [5; 6]%Z; Arr2 3 [[1; 2; 3]; [7; 8; 9]]%Z]) 0%Z)
          (input_rows [Arr1 [5; 6]%Z; Arr2 3 [[1; 2; 3]; [7; 8; 9]]%Z]) rows.
Proof.
  assert (Forall wf_array [Arr1 [5; 6]%Z; Arr2 3 [[1; 2; 3]; [7; 8; 9]]%Z])
    as Hwf by (repeat constructor).
  split; [discriminate|]. split; [exact Hwf|].
  apply (pad_and_stack_preserves_rows Z
           [Arr1 [5; 6]%Z; Arr2 3 [[1; 2; 3]; [7; 8; 9]]%Z] 0%Z);
    [discriminate | exact Hwf].
Defined.

(** X15: a second call of [pad_and_stack] on the list that a first call
    has left behind changes the list no more and returns what the first
    call returned. *)
Theorem pad_and_stack_second_call :
  ∀ (A : Type) (arrays : list (ndarray A)) (pad_value : A),
    let first := pad_and_stack arrays pad_value in
    pad_and_stack first.1 pad_value = first.
Proof.
  intros A arrays pad_value first.
  assert (first.1 = map promote arrays) as Hlist
    by apply pad_and_stack_final_list.
  apply injective_projections.
  - rewrite pad_and_stack_final_list, Hlist, map_map.
    apply map_ext. intros a. apply promote_promote.
  - destruct arrays as [|a arrays]; [reflexivity|].
    rewrite Hlist. unfold first.
    rewrite !pad_and_stack_returns by done.
    by rewrite pad_and_stack_spec_promote.
Qed.

(** X16: when the comparison is transitive, [non_increasing] holds
    exactly when every entry is at least every later entry, not only the
    next one. *)
Theorem non_increasing_pairwise :
  ∀ (A : Type) (ge : A → A → bool),
    (∀ x y z, ge x y = true → ge y z = true → ge x z = true) →
    ∀ lst : list A,
      non_increasing ge lst = true
      ↔ ∀ i j x y, i < j → lst !! i = Some x → lst !! j = Some y →
                   ge x y = true.
Proof.
  intros A ge Htrans lst. rewrite non_increasing_adjacent. split.
  - intros Hadj i j. revert i.
    induction j as [|j IH]; intros i x y Hij Hx Hy; [lia|].
    destruct (decide (i = j)) as [->|Hne]; [by apply (Hadj j)|].
    assert (is_Some (lst !! j)) as (z & Hz).
    { apply lookup_lt_is_Some. apply lookup_lt_Some in Hy. lia. }
    apply (Htrans x z y); [apply (IH i); auto with lia | by apply (Hadj j)].
  - intros Hall i x y Hx Hy. apply (Hall i (S i)); auto with lia.
Qed.

Lemma non_increasing_pairwise_witness :
  (∀ x y z, (x >=? y)%Z = true → (y >=? z)%Z = true → (x >=? z)%Z = true)
  ∧ (non_increasing Z.geb [5; 3; 3; 1]%Z = true
     ↔ ∀ i j x y, i < j → [5; 3; 3; 1]%Z !! i = Some x →
                  [5; 3; 3; 1]%Z !! j = Some y → (x >=? y)%Z = true).
Proof.
  assert (∀ x y z, (x >=? y)%Z = true → (y >=? z)%Z = true
                   → (x >=? z)%Z = true) as Htrans by (intros x y z; lia).
  split; [exact Htrans|].
  exact (non_increasing_pairwise Z Z.geb Htrans [5; 3; 3; 1]%Z).
Defined.

(** X17: every contiguous slice of a non-increasing list is
    non-increasing, and a list with fewer than two entries always is,
    whatever the comparison. *)
Theorem non_increasing_slice :
  ∀ (A : Type) (ge : A → A → bool) (lst : list A) (start len : nat),
    (length lst < 2 → non_increasing ge lst = true)
    ∧ (non_increasing ge lst = true →
       non_increasing ge (take len (drop start lst)) = true).
Proof.
  intros A ge lst start len. split.
  - destruct lst as [|x [|y lst]]; simpl; intros Hlen; try done. lia.
  - rewrite !non_increasing_adjacent. intros Hadj i x y Hx Hy.
    apply lookup_take_Some in Hx, Hy. destruct Hx as [Hx _], Hy as [Hy _].
    rewrite lookup_drop in Hx, Hy.
    apply (Hadj (start + i)); [done|]. by rewrite <- Nat.add_succ_r.
Qed.

Lemma non_increasing_slice_witness :
  non_increasing Z.geb [5; 3; 3; 1]%Z = true
  ∧ non_increasing Z.geb (take 2 (drop 1 [5; 3; 3; 1]%Z)) = true.
Proof.
  assert (non_increasing Z.geb [5; 3; 3; 1]%Z = true) as H by reflexivity.
  split; [exact H|].
  exact (proj2 (non_increasing_slice Z Z.geb [5; 3; 3; 1]%Z 1 2) H).
Defined.

(** X18: the scores read along the descending ranking that the metrics
    use pass [non_increasing]. *)
Theorem ranking_scores_non_increasing :
  ∀ argsort, argsort_contract argsort →
  ∀ y_score : list R,
    non_increasing Rgeb (map (at_index y_score) (ranking argsort y_score))
    = true.
Proof.
  intros argsort Hsort y_score. apply non_increasing_adjacent.
  intros i x y Hx Hy. apply Rgeb_true.
  pose proof (lookup_lt_Some _ _ _ Hy) as Hlt. rewrite length_map in Hlt.
  apply (nth_lookup_Some _ _ 0%R) in Hx, Hy. subst x y.
  rewrite !gathered_nth by lia.
  apply (ranking_descending argsort Hsort y_score). lia.
Qed.

Lemma ranking_scores_non_increasing_witness :
  argsort_contract stable_argsort
  ∧ non_increasing Rgeb
      (map (at_index [0.1; 0.4; 0.3]%R)
         (ranking stable_argsort [0.1; 0.4; 0.3]%R)) = true.
Proof.
  split; [exact stable_argsort_contract|].
  exact (ranking_scores_non_increasing stable_argsort stable_argsort_contract
           [0.1; 0.4; 0.3]%R).
Defined.

(** X19: [count_variables] is the total size of the parameters that
    require gradients: frozen parameters add nothing, the count of two
    parameter lists put together is the sum of their counts, and the
    count never exceeds the total size of all parameters. *)
Theorem count_variables_trainable :
  ∀ model model' : list (string * parameter),
    count_variables model
    = sum_list_with (fun np => numel np.2) (filter trainable model)
    ∧ count_variables (model ++ model')
      = count_variables model + count_variables model'
    ∧ count_variables model ≤ sum_list_with (fun np => numel np.2) model.
Proof.
  intros model model'.
  assert (∀ m, count_variables m
               = sum_list_with (fun np => numel np.2) (filter trainable m))
    as Hsum.
  { induction m as [|[name p] m IH]; [done|].
    rewrite count_variables_cons, IH, filter_cons.
    destruct (decide (trainable (name, p))) as [H|H];
      unfold trainable in H; simpl in H;
      destruct (requires_grad p); simpl in *; done. }
  split; [apply Hsum|]. split.
  - by rewrite !Hsum, filter_app, sum_list_with_app.
  - rewrite Hsum. induction model as [|[name p] m IH]; [done|].
    rewrite filter_cons.
    destruct (decide (trainable (name, p))); simpl; lia.
Qed.

(** X20: [format_time] rounds the seconds for printing only.  On a
    duration from 0 up to [2^53] seconds, when the remainder below a
    minute is 59.995 or more it prints 60.00 seconds and leaves the
    minutes as they are. *)
Theorem format_time_prints_sixty :
  ∀ seconds : Q,
    (0 <= seconds)%Q → (seconds < inject_Z (2 ^ 53))%Q →
    let days := Qfloor (seconds / 86400) in
    let r1 := (seconds - inject_Z days * 86400)%Q in
    let hours := Qfloor (r1 / 3600) in
    let r2 := (r1 - inject_Z hours * 3600)%Q in
    let minutes := Qfloor (r2 / 60) in
    let s := (r2 - inject_Z minutes * 60)%Q in
    (59995 # 1000 <= s)%Q →
    format_time seconds
    = pretty days +:+ "d " +:+ pretty hours +:+ "h " +:+ pretty minutes
        +:+ "m 60.00s".
Proof.
  intros seconds _ _ days r1 hours r2 minutes s Hs.
  rewrite format_time_unfold. fold days r1 hours r2 minutes s.
  unfold render_time. do 6 f_equal.
  destruct (py_divmod_spec r2 60) as (_ & _ & Hhi); [lra|].
  fold minutes s in Hhi. clearbody s.
  unfold format_2f.
  assert ((s ?= 0)%Q = Gt) as -> by (apply Qgt_alt; lra).
  rewrite round_half_even_carry; [reflexivity| |].
  - rewrite Qabs_pos by lra. lra.
  - rewrite Qabs_pos by lra. lra.
Qed.

Lemma format_time_prints_sixty_witness :
  let seconds := (119999 # 1000)%Q in
  let days := Qfloor (seconds / 86400) in
  let r1 := (seconds - inject_Z days * 86400)%Q in
  let hours := Qfloor (r1 / 3600) in
  let r2 := (r1 - inject_Z hours * 3600)%Q in
  let minutes := Qfloor (r2 / 60) in
  let s := (r2 - inject_Z minutes * 60)%Q in
  (0 <= seconds)%Q
  ∧ (seconds < inject_Z (2 ^ 53))%Q
  ∧ (59995 # 1000 <= s)%Q
  ∧ format_time seconds = "0d 0h 1m 60.00s".
Proof.
  cbv zeta. split; [vm_compute; discriminate|].
  split; [vm_compute; reflexivity|].
  split; [vm_compute; discriminate|].
  apply (format_time_prints_sixty (119999 # 1000));
    [vm_compute; discriminate | vm_compute; reflexivity
    | vm_compute; discriminate].
Defined.

(** X21: when every list in the batch holds only tensors and lists of
    tensors, [batch_to_gpu] returns; the batch keeps its keys in order;
    every tensor, at top level or up to two lists deep, ends on the
    target device with its contents unchanged; values that are neither
    tensors nor lists are untouched; and a second call with the same
    device changes nothing. *)
Theorem batch_to_gpu_moves :
  ∀ (D X K O : Type) (batch : list (K * value D X O)) (device : D),
    Forall (fun cv => movable cv.2) batch →
    let final := (batch_to_gpu batch device).1 in
    (batch_to_gpu batch device).2 = Returns ()
    ∧ map fst final = map fst batch
    ∧ Forall2
        (fun old new =>
           map tensor_data (tensors_of new.2)
           = map tensor_data (tensors_of old.2)
           ∧ Forall (fun t => tensor_device t = device) (tensors_of new.2)
           ∧ (∀ o, old.2 = Other o → new.2 = Other o))
        batch final
    ∧ batch_to_gpu final device = (final, Returns ()).
Proof.
  intros D X K O batch device Hall final.
  assert (batch_to_gpu batch device
          = (map (moved_entry device) batch, Returns ())) as Hrun
    by (by apply (batch_loop_movable device batch [])).
  unfold final. rewrite Hrun. simpl.
  split; [done|]. split; [|split].
  - rewrite map_map. by apply map_ext.
  - apply Forall2_fmap_r, Forall_Forall2_diag, Forall_forall.
    intros [c v] _. simpl. rewrite tensors_of_moved. split; [|split].
    + rewrite map_map. by apply map_ext.
    + apply List.Forall_forall. intros t Ht.
      apply in_map_iff in Ht. by destruct Ht as (t0 & <- & _).
    + by intros o ->.
  - unfold batch_to_gpu. rewrite batch_loop_movable.
    + simpl. f_equal. rewrite map_map. apply map_ext.
      intros [c v]. unfold moved_entry. simpl. by rewrite moved_idemp.
    + apply List.Forall_forall. intros cv Hcv.
      apply in_map_iff in Hcv. destruct Hcv as ([c v] & <- & Hin).
      rewrite List.Forall_forall in Hall. apply moved_movable, (Hall _ Hin).
Qed.

Lemma batch_to_gpu_moves_witness :
  let batch : list (string * value string Z bool) :=
    [("ids", Tensor {| tensor_device := "cpu"; tensor_data := 7%Z |});
     ("hist", PyList [Tensor {| tensor_device := "cpu"; tensor_data := 8%Z |};
                      PyList [Tensor {| tensor_device := "cpu";
                                        tensor_data := 9%Z |}]]);
     ("flag", Other true)] in
  Forall (fun cv => movable cv.2) batch
  ∧ (batch_to_gpu batch "cuda:0").2 = Returns ()
  ∧ map fst (batch_to_gpu batch "cuda:0").1 = ["ids"; "hist"; "flag"].
Proof.
  cbv zeta.
  assert (Forall (fun cv : string * value string Z bool => movable cv.2)
            [("ids", Tensor {| tensor_device := "cpu"; tensor_data := 7%Z |});
             ("hist",
              PyList [Tensor {| tensor_device := "cpu"; tensor_data := 8%Z |};
                      PyList [Tensor {| tensor_device := "cpu";
                                        tensor_data := 9%Z |}]]);
             ("flag", Other true)]) as Hall.
  { repeat constructor. }
  split; [exact Hall|].
  pose proof (batch_to_gpu_moves string Z string bool _ "cuda:0" Hall) as H.
  cbv zeta in H. destruct H as (Hret & Hkeys & _). split; [exact Hret|].
  exact Hkeys.
Defined.

(** X22: when a value of the batch is a list that holds something other
    than tensors and lists of tensors, [batch_to_gpu] raises
    AttributeError at the first such value: the entries before it have
    already been moved in the caller's dictionary, that entry and the
    later ones are as they were. *)
Theorem batch_to_gpu_raises :
  ∀ (D X K O : Type) (before after : list (K * value D X O))
    (c : K) (v : value D X O) (device : D),
    Forall (fun cv => movable cv.2) before →
    ¬ movable v →
    batch_to_gpu (before ++ (c, v) :: after) device
    = (map (moved_entry device) before ++ (c, v) :: after,
       Raises AttributeError).
Proof.
  intros D X K O before after c v device Hall Hv.
  by apply (batch_loop_fails device before after c v []).
Qed.

Lemma batch_to_gpu_raises_witness :
  let t : tensor string Z := {| tensor_device := "cpu"; tensor_data := 7%Z |} in
  Forall (fun cv : string * value string Z bool => movable cv.2)
    [("ids", Tensor t)]
  ∧ ¬ movable (PyList [Tensor t; Other true])
  ∧ batch_to_gpu
      ([("ids", Tensor t)] ++ ("hist", PyList [Tensor t; Other true])
         :: [("len", Tensor t)]) "cuda:0"
    = (map (moved_entry "cuda:0") [("ids", Tensor t)]
         ++ ("hist", PyList [Tensor t; Other true]) :: [("len", Tensor t)],
       Raises AttributeError).
Proof.
  cbv zeta.
  set (t := {| tensor_device := "cpu"; tensor_data := 7%Z |} : tensor string Z).
  assert (Forall (fun cv : string * value string Z bool => movable cv.2)
            [("ids", Tensor t)]) as Hall by (repeat constructor).
  assert (¬ movable (PyList [Tensor t; Other true] : value string Z bool))
    as Hv.
  { simpl. intros H. inversion H as [|? ? _ H']; subst.
    inversion H' as [|? ? Ho _]; subst. exact Ho. }
  split; [exact Hall|]. split; [exact Hv|].
  exact (batch_to_gpu_raises string Z string bool [("ids", Tensor t)]
           [("len", Tensor t)] "hist" _ "cuda:0" Hall Hv).
Defined.



(** X24: the path that [load_hyperparam] reads.  Without an explicit
    path it is ["config/{model}_{data}.yaml"], built from the attributes
    [model] and [data]; when one of them is missing the call raises
    AttributeError and leaves the namespace as it was, whatever the files
    hold. *)
Theorem load_hyperparam_default_path :
  ∀ (V : Type) (str : V → string) (yaml_load : string → outcome (yaml_doc V))
    (args : gmap string V),
    (∀ model data,
       args !! "model" = Some model → args !! "data" = Some data →
       load_hyperparam str yaml_load args ""
       = load_hyperparam str yaml_load args
           ("config/" +:+ str model +:+ "_" +:+ str data +:+ ".yaml"))
    ∧ (args !! "model" = None ∨ args !! "data" = None →
       load_hyperparam str yaml_load args "" = (args, Raises AttributeError)).
Proof.
  intros V str yaml_load args. split.
  - intros model data Hm Hd. unfold load_hyperparam at 1.
    destruct (decide ("" = "")); [|done].
    unfold default_path, getattr. rewrite Hm, Hd. simpl.
    unfold load_hyperparam.
    by destruct (decide (_ = "")).
  - intros Hmissing. unfold load_hyperparam.
    destruct (decide ("" = "")); [|done].
    unfold default_path, getattr.
    destruct Hmissing as [->| ->]; [done|].
    by destruct (args !! "model").
Qed.

Lemma load_hyperparam_default_path_witness :
  let yaml_load (path : string) : outcome (yaml_doc string) :=
    Raises OSError in
  let args : gmap string string := {["model" := "maps"]} in
  (args !! "model" = None ∨ args !! "data" = None)
  ∧ load_hyperparam (fun s : string => s) yaml_load args ""
    = (args, Raises AttributeError).
Proof.
  cbv zeta.
  assert (({["model" := "maps"]} : gmap string string) !! "model" = None
          ∨ ({["model" := "maps"]} : gmap string string) !! "data" = None)
    as H by (right; reflexivity).
  split; [exact H|].
  exact (proj2 (load_hyperparam_default_path string (fun s : string => s)
                  (fun _ => Raises OSError) {["model" := "maps"]}) H).
Defined.





(** X27: when every key reads as a metric at a cutoff but some metric
    of the dictionary has no key at some cutoff of the dictionary,
    [format_metric] raises KeyError. *)
Theorem format_metric_incomplete :
  ∀ (int_of_str : string → outcome Z)
    (result_dict : list (string * metric_value)) (reading : list (string * Z))
    (m : string) (t : Z),
    Forall2 (reads_as int_of_str) (map fst result_dict) reading →
    m ∈ map fst reading → t ∈ map snd reading →
    metric_name m t ∉ map fst result_dict →
    format_metric int_of_str result_dict = Raises KeyError.
Proof.
  intros int_of_str d reading m t Hread Hm Ht Hmiss.
  destruct (keys_read int_of_str _ _ Hread) as [Hms Hts].
  unfold format_metric. rewrite Hms, Hts, !outcome_bind_Returns.
  rewrite metrics_sort_unique, topks_sort_unique.
  rewrite topk_loop_missing; [done|].
  exists m, t. split; [|split; [|done]].
  - by apply elem_of_np_unique; [apply string_ltb_total|].
  - by apply elem_of_np_unique; [apply Z_ltb_total|].
Qed.

Lemma format_metric_incomplete_witness :
  let result_dict :=
    [("ndcg@10", FloatValue (FloatOf (1 # 2))); ("hit@5", IntValue 1)] in
  Forall2 (reads_as decimal_int) (map fst result_dict)
    [("ndcg", 10%Z); ("hit", 5%Z)]
  ∧ "hit" ∈ map fst [("ndcg", 10%Z); ("hit", 5%Z)]
  ∧ 10%Z ∈ map snd [("ndcg", 10%Z); ("hit", 5%Z)]
  ∧ (metric_name "hit" 10 ∉ map fst result_dict)
  ∧ format_metric decimal_int result_dict = Raises KeyError.
Proof.
  cbv zeta.
  assert (Forall2 (reads_as decimal_int)
            (map fst [("ndcg@10", FloatValue (FloatOf (1 # 2)));
                      ("hit@5", IntValue 1)])
            [("ndcg", 10%Z); ("hit", 5%Z)]) as Hread.
  { repeat constructor; eexists _, _; split; reflexivity. }
  assert ("hit" ∈ map fst [("ndcg", 10%Z); ("hit", 5%Z)]) as Hm
    by (apply list_elem_of_further, list_elem_of_here).
  assert (10%Z ∈ map snd [("ndcg", 10%Z); ("hit", 5%Z)]) as Ht
    by apply list_elem_of_here.
  assert (metric_name "hit" 10
          ∉ map fst [("ndcg@10", FloatValue (FloatOf (1 # 2)));
                     ("hit@5", IntValue 1)]) as Hmiss.
  { intros H. apply elem_of_cons in H as [H|H]; [discriminate H|].
    apply elem_of_cons in H as [H|H]; [discriminate H|].
    by apply elem_of_nil in H. }
  split; [exact Hread|]. split; [exact Hm|]. split; [exact Ht|].
  split; [exact Hmiss|].
  exact (format_metric_incomplete decimal_int _ _ "hit" 10%Z
           Hread Hm Ht Hmiss).
Defined.

(** X28: the first key that does not read as a metric at a cutoff
    decides how [format_metric] fails: IndexError when that key has no
    ["@"], the exception of [int] when what follows its first ["@"] is
    not an integer. *)
Theorem format_metric_bad_key :
  ∀ (int_of_str : string → outcome Z)
    (result_dict : list (string * metric_value))
    (before after : list string) (key : string) (reading : list (string * Z)),
    map fst result_dict = before ++ key :: after →
    Forall2 (reads_as int_of_str) before reading →
    ((∀ i, String.get i key ≠ Some "@"%char) →
     format_metric int_of_str result_dict = Raises (Builtin IndexError))
    ∧ (∀ metric s rest e,
         py_split "@" key = metric :: s :: rest →
         int_of_str s = Raises e →
         format_metric int_of_str result_dict = Raises e).
Proof.
  intros int_of_str d before after key reading Hkeys Hread.
  destruct (mapM_first_part (map fst d)) as (firsts & Hfirsts).
  split.
  - intros Hno. unfold format_metric.
    rewrite Hfirsts, outcome_bind_Returns, Hkeys.
    rewrite (keys_read_fail int_of_str before after key reading
               (Builtin IndexError)); [done|done|].
    by rewrite py_split_no_sep.
  - intros metric s rest e Hsplit Hint. unfold format_metric.
    rewrite Hfirsts, outcome_bind_Returns, Hkeys.
    rewrite (keys_read_fail int_of_str before after key reading e);
      [done|done|].
    rewrite Hsplit. unfold py_index. simpl. by rewrite Hint.
Qed.

Lemma format_metric_bad_key_witness :
  let result_dict :=
    [("ndcg@10", FloatValue (FloatOf (1 # 2))); ("loss", IntValue 1)] in
  map fst result_dict = ["ndcg@10"] ++ "loss" :: []
  ∧ Forall2 (reads_as decimal_int) ["ndcg@10"] [("ndcg", 10%Z)]
  ∧ (∀ i, String.get i "loss" ≠ Some "@"%char)
  ∧ format_metric decimal_int result_dict = Raises (Builtin IndexError).
Proof.
  cbv zeta.
  assert (Forall2 (reads_as decimal_int) ["ndcg@10"] [("ndcg", 10%Z)])
    as Hread.
  { repeat constructor; eexists _, _; split; reflexivity. }
  assert (∀ i, String.get i "loss" ≠ Some "@"%char) as Hno.
  { intros [|[|[|[|i]]]]; discriminate. }
  split; [reflexivity|]. split; [exact Hread|]. split; [exact Hno|].
  exact (proj1 (format_metric_bad_key decimal_int
                  [("ndcg@10", FloatValue (FloatOf (1 # 2)));
                   ("loss", IntValue 1)]
                  ["ndcg@10"] [] "loss" [("ndcg", 10%Z)] eq_refl Hread) Hno).
Defined.

(** X29: for labels that are all 0 or 1, vectors of the same length and
    a positive cutoff, [hit_score] is 1 exactly when [dcg_score] is
    positive: the binary metric and the graded one agree on whether the
    top of the ranking holds a relevant item. *)
Theorem hit_score_iff_dcg_positive :
  ∀ argsort, argsort_contract argsort →
  ∀ (y_true y_score : list R) (k : Z),
    length y_true = length y_score → (0 < k)%Z →
    Forall (fun x => x = 0%R ∨ x = 1%R) y_true →
    (hit_score argsort y_true y_score k = 1%Z
     ↔ ∃ d, dcg_score argsort y_true y_score k = Ok d ∧ (0 < d)%R).
Proof.
  intros argsort Hsort y_true y_score k Hlen Hk Hbin.
  rewrite hit_score_one by done.
  rewrite (dcg_score_value argsort Hsort y_true y_score k Hlen Hk).
  set (order := ranking argsort y_score).
  set (m := Z.to_nat k `min` length y_true).
  assert (length order = length y_true) as Hol
    by (unfold order; rewrite ranking_length by done; lia).
  assert (∀ i, i < m → nth i order 0%nat < length y_true) as Hrange.
  { intros i Hi. unfold order. rewrite Hlen.
    apply ranking_nth_in_range; [done|lia]. }
  assert (∀ i, i < m →
            at_index y_true (nth i order 0%nat) = 1%R
            ∨ at_index y_true (nth i order 0%nat) = 0%R) as Hlabel.
  { intros i Hi. rewrite List.Forall_forall in Hbin.
    destruct (Hbin (at_index y_true (nth i order 0%nat))) as [H|H]; auto.
    apply nth_In. by apply Hrange. }
  assert (Forall (fun x => (0 <= x)%R) y_true) as Hnonneg.
  { eapply Forall_impl; [exact Hbin|]. intros x [->| ->]; simpl; lra. }
  split.
  - intros (idx & Hin & Hidx).
    apply elem_of_take in Hin. destruct Hin as (i & Hi & Hik).
    assert (i < m) as Him.
    { apply lookup_lt_Some in Hi. lia. }
    eexists. split; [reflexivity|].
    apply (sum_upto_pos_at m _ i); [|done|].
    + intros j _. by apply dcg_term_nonneg.
    + unfold dcg_term. rewrite (nth_lookup_Some _ _ _ _ Hi).
      unfold at_index. rewrite (nth_lookup_Some _ _ _ _ Hidx).
      fold (gain 1). rewrite gain_1.
      apply Rdiv_lt_0_compat; [lra | apply log2_position_pos].
  - intros (d & [= <-] & Hpos).
    destruct (exists_or_all_below _ _ m Hlabel) as [(i & Hi & Hone)|Hzero].
    + exists (nth i order 0%nat). split.
      * apply elem_of_take. exists i. split; [|lia].
        destruct (nth_lookup_or_length order i 0%nat) as [H|H]; [exact H|lia].
      * destruct (nth_lookup_or_length y_true (nth i order 0%nat) 0%R)
          as [H|H]; [|specialize (Hrange i Hi); lia].
        rewrite H. f_equal. exact Hone.
    + exfalso. rewrite sum_upto_zero in Hpos; [lra|].
      intros i Hi. unfold dcg_term. rewrite (Hzero i Hi).
      fold (gain 0). rewrite gain_0. unfold Rdiv. lra.
Qed.

Lemma hit_score_iff_dcg_positive_witness :
  argsort_contract stable_argsort
  ∧ length [0; 1; 0]%R = length [0.3; 0.9; 0.5]%R
  ∧ (0 < 1)%Z
  ∧ Forall (fun x => x = 0%R ∨ x = 1%R) [0; 1; 0]%R
  ∧ (hit_score stable_argsort [0; 1; 0]%R [0.3; 0.9; 0.5]%R 1 = 1%Z
     ↔ ∃ d, dcg_score stable_argsort [0; 1; 0]%R [0.3; 0.9; 0.5]%R 1 = Ok d
            ∧ (0 < d)%R).
Proof.
  assert (Forall (fun x => x = 0%R ∨ x = 1%R) [0; 1; 0]%R) as Hbin
    by (repeat constructor; auto).
  split; [exact stable_argsort_contract|]. split; [reflexivity|].
  split; [lia|]. split; [exact Hbin|].
  apply (hit_score_iff_dcg_positive stable_argsort stable_argsort_contract
           [0; 1; 0]%R [0.3; 0.9; 0.5]%R 1 eq_refl); [lia | exact Hbin].
Defined.

(** X30: on an int64 ground truth with non-negative labels of which
    one is positive and whose sum is below [2^63], no score vector gives
    a larger [mrr_score] than the ground truth used as its own score
    vector. *)
Theorem mrr_score_le_ideal :
  ∀ argsort, argsort_contract argsort →
  ∀ (y_true : list Z) (y_score : list R),
    length y_true = length y_score →
    Forall (fun y => (0 <= y)%Z) y_true →
    Exists (fun y => (0 < y)%Z) y_true →
    (fold_right Z.add 0 y_true < 2 ^ 63)%Z →
    ∃ actual best : R,
      mrr_score_array argsort (Int64Array y_true) y_score
      = Ok (Finite actual)
      ∧ mrr_score_array argsort (Int64Array y_true) (map IZR y_true)
        = Ok (Finite best)
      ∧ (actual <= best)%R.
Proof.
  intros argsort Hsort y_true y_score Hlen Hall Hex Hsum. simpl.
  pose proof (sum_labels_nonneg y_true Hall) as Hnonneg.
  rewrite !(mrr_score_int64_exact argsort Hsort)
    by (done || by rewrite length_map || lia).
  apply exact_mrr_le_ideal; [done | by rewrite length_map|].
  apply np_sum_pos; [by apply IZR_labels_nonneg | by apply IZR_labels_pos].
Qed.

Lemma mrr_score_le_ideal_witness :
  argsort_contract stable_argsort
  ∧ length [0; 2; 1]%Z = length [0.9; 0.2; 0.7]%R
  ∧ Forall (fun y => (0 <= y)%Z) [0; 2; 1]%Z
  ∧ Exists (fun y => (0 < y)%Z) [0; 2; 1]%Z
  ∧ (fold_right Z.add 0 [0; 2; 1] < 2 ^ 63)%Z
  ∧ ∃ actual best : R,
      mrr_score_array stable_argsort (Int64Array [0; 2; 1]%Z)
        [0.9; 0.2; 0.7]%R = Ok (Finite actual)
      ∧ mrr_score_array stable_argsort (Int64Array [0; 2; 1]%Z)
          (map IZR [0; 2; 1]%Z) = Ok (Finite best)
      ∧ (actual <= best)%R.
Proof.
  assert (Forall (fun y => (0 <= y)%Z) [0; 2; 1]%Z) as Hall
    by (repeat constructor; lia).
  assert (Exists (fun y => (0 < y)%Z) [0; 2; 1]%Z) as Hex
    by (apply Exists_cons_tl, Exists_cons_hd; lia).
  assert (fold_right Z.add 0 [0; 2; 1] < 2 ^ 63)%Z as Hsum
    by (vm_compute; reflexivity).
  split; [exact stable_argsort_contract|]. split; [reflexivity|].
  split; [exact Hall|]. split; [exact Hex|]. split; [exact Hsum|].
  exact (mrr_score_le_ideal stable_argsort stable_argsort_contract
           [0; 2; 1]%Z [0.9; 0.2; 0.7]%R eq_refl Hall Hex Hsum).
Defined.
